(** * OrionTV detail store: source aggregation, scoring and failover

    A shallow embedding of [src/stores/detailStore.ts] (the zustand store
    [useDetailStore] and its helper [calculateVideoScore]) together with the
    methods of the API client it calls ([API.searchVideo],
    [API.searchVideos], [API.getResources] and [API._fetch] of
    [services/api.ts]), followed by the API client in full (its requests,
    its URLs and its cookie) and the auth store that uses it
    ([src/stores/authStore.ts]).

    Modelling conventions.
    - A JavaScript [number] is an IEEE 754 double: [NaN], an infinity, or a
      finite value given by the rational it stands for.  Every arithmetic
      operation rounds its exact result to the nearest double, a tie going
      to the even one.  The negative zero is not told apart from zero.
    - A JavaScript string is the [string] of its UTF-8 bytes.
    - [Set<string>] is [gset string]; [Record<string, boolean>] is
      [gmap string bool]; arrays are lists.
    - An [async] function is a state transformer over a [Machine]: the store,
      the heap of [AbortController] objects, a clock counting suspension
      points, the log of network calls and the log of states written by
      [set].  Collaborators outside the store (server, resolution probe,
      favourites storage, settings) are the fields of [Environment]. *)

From Stdlib Require Import QArith Qround Qminmax Qpower Lqa Ascii String.
From stdpp Require Import gmap strings list pretty.

(** ** JavaScript numbers *)

(** A Number is an IEEE 754 double: [NaN], an infinity, or a finite value,
    given by the rational it stands for.  The negative zero is not told
    apart from zero; no operation of the store tells them apart. *)
Inductive number : Type :=
| NaN
| Infinity (negative : bool)
| Num (q : Q).

(** [2 ^ k] *)
Definition pow2 (k : Z) : Q := (2 ^ k)%Q.

(** The integer part of the binary logarithm of a positive rational. *)
Definition ilog2 (q : Q) : Z :=
  let k := (Z.log2 (Qnum q) - Z.log2 (Zpos (Qden q)))%Z in
  if Qle_bool (pow2 k) q then k else (k - 1)%Z.

(** The integer nearest to [x], a tie going to the even one. *)
Definition round_half_even (x : Q) : Z :=
  let f := Qfloor x in
  match (x - inject_Z f ?= 1 # 2)%Q with
  | Lt => f
  | Gt => (f + 1)%Z
  | Eq => if Z.even f then f else (f + 1)%Z
  end.

(** The double nearest to a positive rational [a]: [a] is rounded to a
    multiple of [2 ^ e], where [e] leaves 53 binary digits and is no less
    than -1074, a tie going to the even multiple; what reaches [2 ^ 1024]
    is infinite. *)
Definition round_pos (a : Q) : number :=
  let e := Z.max (ilog2 a - 52) (-1074) in
  let v := (inject_Z (round_half_even (a / pow2 e)) * pow2 e)%Q in
  if Qle_bool (pow2 1024) v then Infinity false else Num (Qred v).

Definition js_neg (a : number) : number :=
  match a with
  | NaN => NaN
  | Infinity s => Infinity (negb s)
  | Num q => Num (- q)
  end.

(** The Number value for a rational: the double nearest to it, which is
    what a numeric literal denotes and what every arithmetic operation
    makes of its exact result. *)
Definition to_number (q : Q) : number :=
  match (q ?= 0)%Q with
  | Eq => Num 0
  | Gt => round_pos q
  | Lt => js_neg (round_pos (- q))
  end.

Arguments to_number : simpl never.

(** [a + b] *)
Definition js_add (a b : number) : number :=
  match a, b with
  | NaN, _ | _, NaN => NaN
  | Infinity s, Infinity t => if Bool.eqb s t then Infinity s else NaN
  | Infinity s, Num _ | Num _, Infinity s => Infinity s
  | Num x, Num y => to_number (x + y)
  end.

(** [a - b] *)
Definition js_sub (a b : number) : number := js_add a (js_neg b).

(** The sign of a rational: is it negative? *)
Definition Qnegative (q : Q) : bool :=
  match (q ?= 0)%Q with
  | Lt => true
  | _ => false
  end.

(** [a * b] *)
Definition js_mul (a b : number) : number :=
  match a, b with
  | NaN, _ | _, NaN => NaN
  | Infinity s, Infinity t => Infinity (xorb s t)
  | Infinity s, Num y | Num y, Infinity s =>
      if Qeq_bool y 0 then NaN else Infinity (xorb s (Qnegative y))
  | Num x, Num y => to_number (x * y)
  end.

(** [a / b].  A zero divisor is the positive zero; the store divides by
    the constants 5120, 950 and 100 only. *)
Definition js_div (a b : number) : number :=
  match a, b with
  | NaN, _ | _, NaN => NaN
  | Infinity _, Infinity _ => NaN
  | Infinity s, Num y => Infinity (xorb s (Qnegative y))
  | Num _, Infinity _ => Num 0
  | Num x, Num y =>
      if Qeq_bool y 0 then
        match (x ?= 0)%Q with
        | Eq => NaN
        | Gt => Infinity false
        | Lt => Infinity true
        end
      else to_number (x / y)
  end.

(** [a <= b] and [a >= b]: false as soon as one side is [NaN]. *)
Definition js_le (a b : number) : bool :=
  match a, b with
  | NaN, _ | _, NaN => false
  | Infinity true, _ | _, Infinity false => true
  | Infinity false, _ | _, Infinity true => false
  | Num x, Num y => Qle_bool x y
  end.

Definition js_ge (a b : number) : bool := js_le b a.

(** [Math.min(a, b)]: [NaN] as soon as one argument is. *)
Definition Math_min (a b : number) : number :=
  match a, b with
  | NaN, _ | _, NaN => NaN
  | _, _ => if js_le a b then a else b
  end.

(** [Math.round(x)]: the nearest integer, a tie going up.  The integer
    nearest to a double is a double. *)
Definition Math_round (x : number) : number :=
  match x with
  | Num q => Num (inject_Z (Qfloor (q + (1 # 2))%Q))
  | _ => x
  end.

(** The sign a sort comparator's result is read with: negative, positive,
    or neither ([0] and [NaN] alike). *)
Definition js_sign (v : number) : comparison :=
  match v with
  | Num q => (q ?= 0)%Q
  | Infinity true => Lt
  | Infinity false => Gt
  | NaN => Eq
  end.

(** Equality and order of two results; two [NaN] results count as the same
    result, a [NaN] and a number are unrelated. *)
Definition num_eq (a b : number) : Prop :=
  match a, b with
  | NaN, NaN => True
  | Infinity s, Infinity t => s = t
  | Num x, Num y => (x == y)%Q
  | _, _ => False
  end.

Definition num_le (a b : number) : Prop :=
  match a, b with
  | NaN, NaN => True
  | NaN, _ | _, NaN => False
  | Infinity true, _ | _, Infinity false => True
  | Infinity false, _ | _, Infinity true => False
  | Num x, Num y => (x <= y)%Q
  end.

(** ** Strings: the fragments of [String.prototype] and [RegExp] in use *)

(** [s.includes(sub)] *)
Fixpoint includes (s sub : string) : bool :=
  String.prefix sub s ||
  match s with
  | EmptyString => false
  | String _ rest => includes rest sub
  end.

Definition is_digit (c : ascii) : bool :=
  (48 <=? nat_of_ascii c)%nat && (nat_of_ascii c <=? 57)%nat.

Definition is_dot (c : ascii) : bool := (nat_of_ascii c =? 46)%nat.

(** The longest prefix of [s] whose characters satisfy [p], and the rest. *)
Fixpoint span (p : ascii → bool) (s : string) : string * string :=
  match s with
  | EmptyString => (EmptyString, EmptyString)
  | String c rest =>
      if p c then let '(a, b) := span p rest in (String c a, b)
      else (EmptyString, s)
  end.

(** One-byte members of the class [\s]: TAB, LF, VT, FF, CR, SPACE. *)
Definition is_space1 (c : ascii) : bool :=
  let n := nat_of_ascii c in
  ((9 <=? n)%nat && (n <=? 13)%nat) || (n =? 32)%nat.

(** U+00A0 in UTF-8. *)
Definition is_space2 (c1 c2 : ascii) : bool :=
  (nat_of_ascii c1 =? 194)%nat && (nat_of_ascii c2 =? 160)%nat.

(** U+1680, U+2000..U+200A, U+2028, U+2029, U+202F, U+205F, U+3000 and
    U+FEFF in UTF-8. *)
Definition is_space3 (c1 c2 c3 : ascii) : bool :=
  let a := nat_of_ascii c1 in
  let b := nat_of_ascii c2 in
  let c := nat_of_ascii c3 in
  ((a =? 225) && (b =? 154) && (c =? 128))%nat
  || ((a =? 226) && (b =? 128)
      && (((128 <=? c) && (c <=? 138)) || (c =? 168) || (c =? 169) || (c =? 175)))%nat
  || ((a =? 226) && (b =? 129) && (c =? 159))%nat
  || ((a =? 227) && (b =? 128) && (c =? 128))%nat
  || ((a =? 239) && (b =? 187) && (c =? 191))%nat.

(** What is left of [s] after the greedy [\s*]. *)
Fixpoint skip_spaces (s : string) : string :=
  match s with
  | EmptyString => s
  | String c1 r1 =>
      if is_space1 c1 then skip_spaces r1
      else
        match r1 with
        | EmptyString => s
        | String c2 r2 =>
            if is_space2 c1 c2 then skip_spaces r2
            else
              match r2 with
              | EmptyString => s
              | String c3 r3 =>
                  if is_space3 c1 c2 c3 then skip_spaces r3 else s
              end
        end
  end.

(** [speedStr.match(/^([\d.]+)\s*(KB\/s|MB\/s)$/)]: the two groups of the
    match, or [None].  Both quantifiers are greedy and what follows each of
    them starts with a character outside its class, so no shorter choice can
    match where the longest does not. *)
Definition match_speed (speedStr : string) : option (string * string) :=
  let '(magnitude, rest) := span (λ c, is_digit c || is_dot c) speedStr in
  if String.eqb magnitude "" then None
  else
    let unit := skip_spaces rest in
    if String.eqb unit "KB/s" || String.eqb unit "MB/s"
    then Some (magnitude, unit)
    else None.

(** The value of a run of decimal digits. *)
Definition digits_value (s : string) : Z :=
  fold_left (λ acc c, 10 * acc + (Z.of_nat (nat_of_ascii c) - 48))%Z
            (list_ascii_of_string s) 0%Z.

(** [parseFloat(s)] for [s] made of digits and dots, which is all the
    first group of [match_speed] can hold: the longest prefix of the form
    [digits], [digits.], [digits.digits] or [.digits] is read as a decimal
    numeral and gives the double nearest to it, as the engines do for a
    numeral of any length; a string that starts with none of these gives
    [NaN]. *)
Definition parseFloat (s : string) : number :=
  let '(int_part, rest) := span is_digit s in
  let frac_part :=
    match rest with
    | String c rest' => if is_dot c then fst (span is_digit rest') else EmptyString
    | EmptyString => EmptyString
    end in
  if String.eqb int_part "" && String.eqb frac_part "" then NaN
  else to_number (inject_Z (digits_value int_part)
                  + inject_Z (digits_value frac_part)
                    / inject_Z (10 ^ Z.of_nat (String.length frac_part)))%Q.

(** ** [calculateVideoScore] *)

(** [pingTime] is [NaN] also where the measurement carries none: every
    operation of the scorer reads [undefined] as [NaN]. *)
Record VideoInfo : Type := {
  quality : string;
  loadSpeed : string;
  pingTime : number;
}.

Definition qualityScore (quality : string) : Q :=
  (if String.eqb quality "4K" then 100
   else if String.eqb quality "2K" then 85
   else if String.eqb quality "1080p" then 75
   else if String.eqb quality "720p" then 60
   else if String.eqb quality "480p" then 40
   else if String.eqb quality "SD" then 20
   else 30)%Q.

Definition speedScore (speedStr : string) : number :=
  if String.eqb speedStr "未知" || String.eqb speedStr "测量中..." then Num 30%Q
  else
    match match_speed speedStr with
    | None => Num 30%Q
    | Some (magnitude, unit) =>
        let value := parseFloat magnitude in
        let speedKBps :=
          if String.eqb unit "MB/s" then js_mul value (Num 1024%Q) else value in
        let maxSpeed := Num 5120%Q in
        let speedRatio := Math_min (js_div speedKBps maxSpeed) (Num 1%Q) in
        js_mul speedRatio (Num 100%Q)
    end.

Definition pingScore (ping : number) : number :=
  if js_le ping (Num 0%Q) then Num 0%Q
  else
    let minPing := Num 50%Q in
    let maxPing := Num 1000%Q in
    if js_le ping minPing then Num 100%Q
    else if js_ge ping maxPing then Num 0%Q
    else js_mul (js_div (js_sub maxPing ping) (js_sub maxPing minPing)) (Num 100%Q).

Definition calculateVideoScore (videoInfo : VideoInfo) : number :=
  let score := Num 0%Q in
  let score :=
    js_add score (js_mul (Num (qualityScore (quality videoInfo))) (to_number 0.4%Q)) in
  let score := js_add score (js_mul (speedScore (loadSpeed videoInfo)) (to_number 0.4%Q)) in
  let score := js_add score (js_mul (pingScore (pingTime videoInfo)) (to_number 0.2%Q)) in
  js_div (Math_round (js_mul score (Num 100%Q))) (Num 100%Q).

(** ** The data of the store *)

(** [SearchResultWithResolution]: a [SearchResult] of the API client and the
    [resolution] the store attaches ([None] for [undefined] and [null]).
    The optional [class], [desc] and [type_name], which the store never
    reads, are left out. *)
Record SearchResult : Type := {
  result_id : Z;
  title : string;
  poster : string;
  episodes : list string;
  source : string;
  source_name : string;
  year : string;
  videoInfo : option VideoInfo;
  resolution : option string;
}.

(** An element of [DetailState.sources]. *)
Record SourceEntry : Type := {
  entry_source : string;
  entry_source_name : string;
  entry_resolution : option string;
  entry_videoInfo : option VideoInfo;
}.

Record DetailState : Type := {
  q : option string;
  searchResults : list SearchResult;
  sources : list SourceEntry;
  detail : option SearchResult;
  loading : bool;
  error : option string;
  allSourcesLoaded : bool;
  controller : option nat;
  isFavorited : bool;
  failedSources : gset string;
}.

(** The state [create<DetailState>] starts from. *)
Definition initial_state : DetailState := {|
  q := None;
  searchResults := [];
  sources := [];
  detail := None;
  loading := true;
  error := None;
  allSourcesLoaded := false;
  controller := None;
  isFavorited := false;
  failedSources := ∅;
|}.

(** The partial updates handed to [set]. *)
Definition with_q (v : option string) (st : DetailState) : DetailState :=
  {| q := v; searchResults := searchResults st; sources := sources st;
     detail := detail st; loading := loading st; error := error st;
     allSourcesLoaded := allSourcesLoaded st; controller := controller st;
     isFavorited := isFavorited st; failedSources := failedSources st |}.

Definition with_searchResults (v : list SearchResult) (st : DetailState) : DetailState :=
  {| q := q st; searchResults := v; sources := sources st;
     detail := detail st; loading := loading st; error := error st;
     allSourcesLoaded := allSourcesLoaded st; controller := controller st;
     isFavorited := isFavorited st; failedSources := failedSources st |}.

Definition with_sources (v : list SourceEntry) (st : DetailState) : DetailState :=
  {| q := q st; searchResults := searchResults st; sources := v;
     detail := detail st; loading := loading st; error := error st;
     allSourcesLoaded := allSourcesLoaded st; controller := controller st;
     isFavorited := isFavorited st; failedSources := failedSources st |}.

Definition with_detail (v : option SearchResult) (st : DetailState) : DetailState :=
  {| q := q st; searchResults := searchResults st; sources := sources st;
     detail := v; loading := loading st; error := error st;
     allSourcesLoaded := allSourcesLoaded st; controller := controller st;
     isFavorited := isFavorited st; failedSources := failedSources st |}.

Definition with_loading (v : bool) (st : DetailState) : DetailState :=
  {| q := q st; searchResults := searchResults st; sources := sources st;
     detail := detail st; loading := v; error := error st;
     allSourcesLoaded := allSourcesLoaded st; controller := controller st;
     isFavorited := isFavorited st; failedSources := failedSources st |}.

Definition with_error (v : option string) (st : DetailState) : DetailState :=
  {| q := q st; searchResults := searchResults st; sources := sources st;
     detail := detail st; loading := loading st; error := v;
     allSourcesLoaded := allSourcesLoaded st; controller := controller st;
     isFavorited := isFavorited st; failedSources := failedSources st |}.

Definition with_allSourcesLoaded (v : bool) (st : DetailState) : DetailState :=
  {| q := q st; searchResults := searchResults st; sources := sources st;
     detail := detail st; loading := loading st; error := error st;
     allSourcesLoaded := v; controller := controller st;
     isFavorited := isFavorited st; failedSources := failedSources st |}.

Definition with_controller (v : option nat) (st : DetailState) : DetailState :=
  {| q := q st; searchResults := searchResults st; sources := sources st;
     detail := detail st; loading := loading st; error := error st;
     allSourcesLoaded := allSourcesLoaded st; controller := v;
     isFavorited := isFavorited st; failedSources := failedSources st |}.

Definition with_isFavorited (v : bool) (st : DetailState) : DetailState :=
  {| q := q st; searchResults := searchResults st; sources := sources st;
     detail := detail st; loading := loading st; error := error st;
     allSourcesLoaded := allSourcesLoaded st; controller := controller st;
     isFavorited := v; failedSources := failedSources st |}.

Definition with_failedSources (v : gset string) (st : DetailState) : DetailState :=
  {| q := q st; searchResults := searchResults st; sources := sources st;
     detail := detail st; loading := loading st; error := error st;
     allSourcesLoaded := allSourcesLoaded st; controller := controller st;
     isFavorited := isFavorited st; failedSources := v |}.

(** ** The world around the store *)

(** A settled promise: fulfilled with a value, or rejected with an [Error]
    carrying a message. *)
Inductive Outcome (A : Type) : Type :=
| Resolved (a : A)
| Rejected (message : string).
Arguments Resolved {A} a.
Arguments Rejected {A} message.

(** [ApiSite] of the API client. *)
Record ApiSite : Type := {
  key : string;
  api : string;
  name : string;
}.

(** [useSettingsStore.getState().videoSource]; [enabled] is its [sources]. *)
Record VideoSource : Type := {
  enabledAll : bool;
  enabled : gmap string bool;
}.

(** Everything outside the store that a run of its actions depends on.
    - [server_search_one q k], [server_search_all q], [server_resources]:
      what the server answers on [/api/search/one], [/api/search] and
      [/api/search/resources].
    - [getResolutionFromM3U8 url]: the probe of [services/m3u8].
    - [FavoriteManager_isFavorited source id] and [FavoriteManager_toggle]:
      [services/storage], called with [id.toString()].
    - [settle_order]: the order in which the searches of the fan-out
      settle.
    - [abort_at]: the suspension point, counted from the machine's clock,
      during which the user calls the store's [abort] action, if ever. *)
Record Environment : Type := {
  server_search_one : string → string → Outcome (list SearchResult);
  server_search_all : string → Outcome (list SearchResult);
  server_resources : Outcome (list ApiSite);
  getResolutionFromM3U8 : string → Outcome (option string);
  FavoriteManager_isFavorited : string → Z → Outcome bool;
  FavoriteManager_toggle : string → Z → Outcome bool;
  videoSource : VideoSource;
  settle_order : list ApiSite → list ApiSite;
  abort_at : option nat;
}.

(** A network call as it is issued: [signal] is the [AbortController] whose
    signal the call was given.  [api.searchVideos(query)] takes none. *)
Inductive Call : Type :=
| call_searchVideo (query resourceId : string) (signal : nat)
| call_searchVideos (query : string)
| call_getResources (signal : nat)
| call_getResolutionFromM3U8 (url : string) (signal : nat).

(** The store, the [AbortController] objects allocated so far (the entry at
    an index is that controller's [signal.aborted]), the number of
    suspension points passed, the calls issued and the states written by
    [set], each with the clock it was written at (newest first). *)
Record Machine : Type := {
  store : DetailState;
  heap : list bool;
  clock : nat;
  calls : list Call;
  published : list (nat * DetailState);
}.

Definition initial_machine : Machine := {|
  store := initial_state;
  heap := [];
  clock := 0;
  calls := [];
  published := [];
|}.

Definition with_store (v : DetailState) (m : Machine) : Machine :=
  {| store := v; heap := heap m; clock := clock m; calls := calls m;
     published := published m |}.

Definition M (A : Type) : Type := Machine → A * Machine.

#[global] Instance M_ret : MRet M := λ A a m, (a, m).
#[global] Instance M_bind : MBind M := λ A B f c m, f (c m).1 (c m).2.

(** zustand's [get()] and [set(partial)]. *)
Definition get : M DetailState := λ m, (store m, m).

Definition set (partial : DetailState → DetailState) : M unit :=
  λ m,
    let st := partial (store m) in
    (tt, {| store := st; heap := heap m; clock := clock m; calls := calls m;
            published := (clock m, st) :: published m |}).

(** [new AbortController()] *)
Definition new_AbortController : M nat :=
  λ m, (length (heap m),
        {| store := store m; heap := heap m ++ [false]; clock := clock m;
           calls := calls m; published := published m |}).

(** [c.abort()] *)
Definition controller_abort (c : nat) : M unit :=
  λ m, (tt, {| store := store m; heap := <[c := true]> (heap m); clock := clock m;
               calls := calls m; published := published m |}).

(** [signal.aborted] of controller [c] *)
Definition signal_aborted (c : nat) : M bool :=
  λ m, (default false (heap m !! c), m).

Definition issue (c : Call) : M unit :=
  λ m, (tt, {| store := store m; heap := heap m; clock := clock m;
               calls := c :: calls m; published := published m |}).

(** The store's [abort] action: [get().controller?.abort()]. *)
Definition abort : M unit :=
  st ← get;
  match controller st with
  | Some c => controller_abort c
  | None => mret tt
  end.

(** An [await]: the clock advances, and the user aborts now if this is the
    moment the environment chose.  No other action of the store runs
    meanwhile (see [perform_all]). *)
Definition suspend (env : Environment) : M unit :=
  λ m,
    let m' := {| store := store m; heap := heap m; clock := S (clock m);
                 calls := calls m; published := published m |} in
    if decide (abort_at env = Some (clock m')) then abort m' else (tt, m').

(** ** The API client ([services/api.ts]) *)

(** [API._fetch(url, {signal})]: the request is in flight for one
    suspension; when the caller's signal is aborted by the time it settles,
    [fetch] rejects with an [AbortError], which [_fetch] rethrows as
    [Error("Request timeout")]; otherwise the server's answer comes back. *)
Definition _fetch {A : Type} (env : Environment) (response : Outcome A)
    (signal : option nat) : M (Outcome A) :=
  suspend env ;;
  match signal with
  | Some c =>
      aborted ← signal_aborted c;
      mret (if aborted : bool then Rejected "Request timeout" else response)
  | None => mret response
  end.

(** [api.searchVideo(query, resourceId, signal)], from the moment the
    request is out. *)
Definition searchVideo_settle (env : Environment) (query resourceId : string)
    (signal : nat) : M (Outcome (list SearchResult)) :=
  response ← _fetch env (server_search_one env query resourceId) (Some signal);
  mret (match response with
        | Resolved results => Resolved (filter (λ item, title item = query) results)
        | Rejected e => Rejected e
        end).

Definition api_searchVideo (env : Environment) (query resourceId : string)
    (signal : nat) : M (Outcome (list SearchResult)) :=
  issue (call_searchVideo query resourceId signal) ;;
  searchVideo_settle env query resourceId signal.

(** [api.searchVideos(query)] *)
Definition api_searchVideos (env : Environment) (query : string)
    : M (Outcome (list SearchResult)) :=
  issue (call_searchVideos query) ;;
  _fetch env (server_search_all env query) None.

(** [api.getResources(signal)] *)
Definition api_getResources (env : Environment) (signal : nat)
    : M (Outcome (list ApiSite)) :=
  issue (call_getResources signal) ;;
  _fetch env (server_resources env) (Some signal).

(** ** [init] and its local [processAndSetResults] *)

Definition with_resolution (v : option string) (r : SearchResult) : SearchResult :=
  {| result_id := result_id r; title := title r; poster := poster r;
     episodes := episodes r; source := source r; source_name := source_name r;
     year := year r; videoInfo := videoInfo r; resolution := v |}.

(** The body of [results.map(async (searchResult) => ...)]. *)
Definition attach_resolution (env : Environment) (searchResult : SearchResult)
    : SearchResult :=
  match videoInfo searchResult with
  | Some info => with_resolution (Some (quality info)) searchResult
  | None =>
      let resolution :=
        match episodes searchResult with
        | first :: _ =>
            match getResolutionFromM3U8 env first with
            | Resolved r => r
            | Rejected _ => None
            end
        | [] => None
        end in
      with_resolution resolution searchResult
  end.

(** The probes that map starts, in order. *)
Definition probe_calls (signal : nat) (results : list SearchResult) : list Call :=
  omap (λ r, match videoInfo r, episodes r with
             | None, first :: _ => Some (call_getResolutionFromM3U8 first signal)
             | _, _ => None
             end) results.

Definition issue_all (cs : list Call) : M unit :=
  λ m, (tt, {| store := store m; heap := heap m; clock := clock m;
               calls := rev cs ++ calls m; published := published m |}).

Definition source_entry (r : SearchResult) : SourceEntry :=
  {| entry_source := source r; entry_source_name := source_name r;
     entry_resolution := resolution r; entry_videoInfo := videoInfo r |}.

(** The updater handed to [set] at the end of [processAndSetResults]. *)
Definition merge_results (resultsWithResolution : list SearchResult) (merge : bool)
    (state : DetailState) : DetailState :=
  let existingSources : gset string := list_to_set (source <$> searchResults state) in
  let newResults := filter (λ r, source r ∉ existingSources) resultsWithResolution in
  let finalResults :=
    if merge then searchResults state ++ newResults else resultsWithResolution in
  with_searchResults finalResults
    (with_sources (source_entry <$> finalResults)
       (with_detail (match detail state with
                     | Some d => Some d
                     | None => head finalResults
                     end) state)).

Definition processAndSetResults (env : Environment) (signal : nat)
    (results : list SearchResult) (merge : bool) : M unit :=
  issue_all (probe_calls signal results) ;;
  let resultsWithResolution := attach_resolution env <$> results in
  suspend env ;;
  aborted ← signal_aborted signal;
  if aborted : bool then mret tt
  else set (merge_results resultsWithResolution merge).

(** A double quote, for the messages that quote the query. *)
Definition dq : string := String (ascii_of_nat 34) EmptyString.

Definition msg_fallback_no_match (q : string) : string :=
  "未找到 " +:+ dq +:+ q +:+ dq +:+ " 的播放源，请检查标题或稍后重试".
Definition msg_search_failed (message : string) : string :=
  "搜索失败：" +:+ message.
Definition msg_no_enabled_resources : string :=
  "没有可用的视频源，请检查设置或联系管理员".
Definition msg_all_sources_empty (q : string) : string :=
  "未找到 " +:+ dq +:+ q +:+ dq +:+ " 的播放源，请尝试其他关键词或稍后重试".
Definition msg_resources_failed (message : string) : string :=
  "获取视频源失败：" +:+ message.
Definition msg_final_no_results (q : string) : string :=
  "未找到 " +:+ dq +:+ q +:+ dq +:+ " 的播放源，请检查标题拼写或稍后重试".

(** Truthiness of an optional string. *)
Definition truthy (s : option string) : bool :=
  match s with
  | Some s => negb (String.eqb s "")
  | None => false
  end.

(** The branch [if (preferredSource && id)] of [init].  The result says
    whether control reaches the code after the branch ([false]: a [return]
    was taken). *)
Definition preferred_protocol (env : Environment) (q preferredSource : string)
    (signal : nat) : M bool :=
  response ← api_searchVideo env q preferredSource signal;
  let preferredResult := match response with Resolved results => results | Rejected _ => [] end in
  aborted ← signal_aborted signal;
  if aborted : bool then mret false
  else
    (if (0 <? length preferredResult)%nat
     then processAndSetResults env signal preferredResult false ;;
          set (with_loading false)
     else
       fallback ← api_searchVideos env q;
       match fallback with
       | Resolved allResults =>
           let filteredResults := filter (λ item, title item = q) allResults in
           if (0 <? length filteredResults)%nat
           then processAndSetResults env signal filteredResults false ;;
                set (with_loading false)
           else set (with_error (Some (msg_fallback_no_match q)) ∘ with_loading false)
       | Rejected message =>
           set (with_error (Some (msg_search_failed message)) ∘ with_loading false)
       end) ;;
    if (0 <? length preferredResult)%nat
    then
      background ← api_searchVideos env q;
      match background with
      | Resolved allResults =>
          aborted ← signal_aborted signal;
          if aborted : bool then mret false
          else processAndSetResults env signal
                 (filter (λ item, title item = q) allResults) true ;;
               mret true
      | Rejected _ => mret true
      end
    else mret true.

(** The bodies of [enabledResources.map(async (resource) => ...)] from the
    moment their requests are out; [firstResultFound] and [totalResults]
    are the two locals the bodies share.  A body touches the store only
    after its second [await], and what it did before touched the locals
    alone, so the bodies are run one after the other in the order
    [settle_order] gives: the order in which they reach the store. *)
Fixpoint fan_in (env : Environment) (q : string) (signal : nat)
    (settling : list ApiSite) (firstResultFound : bool) (totalResults : nat)
    : M (bool * nat) :=
  match settling with
  | [] => mret (firstResultFound, totalResults)
  | resource :: rest =>
      response ← searchVideo_settle env q (key resource) signal;
      match response with
      | Resolved results =>
          if (0 <? length results)%nat
          then
            processAndSetResults env signal results true ;;
            (if firstResultFound then mret tt else set (with_loading false)) ;;
            fan_in env q signal rest true (totalResults + length results)
          else fan_in env q signal rest firstResultFound totalResults
      | Rejected _ => fan_in env q signal rest firstResultFound totalResults
      end
  end.

(** The [else] branch of [init]: the standard navigation. *)
Definition standard_protocol (env : Environment) (q : string) (signal : nat) : M bool :=
  resources ← api_getResources env signal;
  match resources with
  | Resolved allResources =>
      let enabledResources :=
        if enabledAll (videoSource env) then allResources
        else filter (λ r, enabled (videoSource env) !! key r = Some true) allResources in
      if (length enabledResources =? 0)%nat
      then set (with_error (Some msg_no_enabled_resources) ∘ with_loading false) ;;
           mret false
      else
        issue_all ((λ resource, call_searchVideo q (key resource) signal) <$> enabledResources) ;;
        '(_, totalResults) ← fan_in env q signal (settle_order env enabledResources) false 0;
        (if (totalResults =? 0)%nat
         then set (with_error (Some (msg_all_sources_empty q)) ∘ with_loading false)
         else mret tt) ;;
        mret true
  | Rejected message =>
      set (with_error (Some (msg_resources_failed message)) ∘ with_loading false) ;;
      mret false
  end.

(** The end of the [try] block of [init]: the final check and the
    favourite status. *)
Definition final_checks (env : Environment) (q : string) : M unit :=
  finalState ← get;
  (if (length (searchResults finalState) =? 0)%nat && negb (truthy (error finalState))
   then set (with_error (Some (msg_final_no_results q)))
   else mret tt) ;;
  match detail finalState with
  | Some d =>
      suspend env ;;
      match FavoriteManager_isFavorited env (source d) (result_id d) with
      | Resolved favorited => set (with_isFavorited favorited)
      | Rejected _ => mret tt
      end
  | None => mret tt
  end.

(** What [init] does once it has reset the store: the search, the final
    checks and the [finally] block. *)
Definition init_after_reset (env : Environment) (q : string)
    (preferredSource id : option string) (signal : nat) : M unit :=
  reached_end ←
    (if truthy preferredSource && truthy id
     then preferred_protocol env q (default "" preferredSource) signal
     else standard_protocol env q signal);
  (if reached_end : bool then final_checks env q else mret tt) ;;
  aborted ← signal_aborted signal;
  if aborted : bool then mret tt
  else set (with_loading false ∘ with_allSourcesLoaded true).

(** The fields [init] resets before it searches. *)
Definition reset (q : string) (newController : nat) : DetailState → DetailState :=
  with_q (Some q) ∘ with_loading true ∘ with_searchResults [] ∘ with_detail None
  ∘ with_error None ∘ with_allSourcesLoaded false
  ∘ with_controller (Some newController).

Definition init (env : Environment) (q : string) (preferredSource id : option string)
    : M unit :=
  st ← get;
  match controller st with
  | Some oldController => controller_abort oldController
  | None => mret tt
  end ;;
  newController ← new_AbortController;
  let signal := newController in
  set (reset q newController) ;;
  init_after_reset env q preferredSource id signal.

(** ** The other actions of the store *)

Definition setDetail (env : Environment) (d : SearchResult) : M unit :=
  set (with_detail (Some d)) ;;
  suspend env ;;
  match FavoriteManager_isFavorited env (source d) (result_id d) with
  | Resolved favorited => set (with_isFavorited favorited)
  | Rejected _ => mret tt
  end.

Definition toggleFavorite (env : Environment) : M unit :=
  st ← get;
  match detail st with
  | None => mret tt
  | Some d =>
      suspend env ;;
      match FavoriteManager_toggle env (source d) (result_id d) with
      | Resolved newIsFavorited => set (with_isFavorited newIsFavorited)
      | Rejected _ => mret tt
      end
  end.

Definition markSourceAsFailed (source reason : string) : M unit :=
  st ← get;
  let newFailedSources := failedSources st ∪ {[ source ]} in
  set (with_failedSources newFailedSources).

(** ** [getNextAvailableSource] *)

Definition resolutionPriority (res : string) : Z :=
  if includes res "1080" then 4
  else if includes res "720" then 3
  else if includes res "480" then 2
  else if includes res "360" then 1
  else 0.

(** The comparator handed to [availableSources.sort]. *)
Definition compareSources (a b : SearchResult) : number :=
  match videoInfo a, videoInfo b with
  | Some infoA, Some infoB =>
      let scoreA := calculateVideoScore infoA in
      let scoreB := calculateVideoScore infoB in
      js_sub scoreB scoreA
  | _, _ =>
      let aResolution := default "" (resolution a) in
      let bResolution := default "" (resolution b) in
      Num (inject_Z (resolutionPriority bResolution - resolutionPriority aResolution))
  end.

(** [Array.prototype.sort(comparefn)] as a stable insertion sort: each
    element in turn goes in front of the first element it compares
    negative with.  The language fixes the result of [sort] only for a
    consistent comparator, and there every stable sort gives this one; for
    any other comparator the order is the engine's choice, of which this is
    one. *)
Fixpoint insert_by {A : Type} (comparefn : A → A → number) (x : A) (sorted : list A)
    : list A :=
  match sorted with
  | [] => [x]
  | y :: rest =>
      match js_sign (comparefn x y) with
      | Lt => x :: sorted
      | _ => y :: insert_by comparefn x rest
      end
  end.

Definition Array_sort {A : Type} (comparefn : A → A → number) (l : list A) : list A :=
  fold_left (λ sorted x, insert_by comparefn x sorted) l [].

(** The local [availableSources]; [episodeIndex] is an array index. *)
Definition availableSources (st : DetailState) (currentSource : string)
    (episodeIndex : nat) : list SearchResult :=
  filter (λ result, (source result ≠ currentSource)
                    ∧ (source result ∉ failedSources st)
                    ∧ (episodeIndex < length (episodes result))%nat)
         (searchResults st).

Definition getNextAvailableSource (currentSource : string) (episodeIndex : nat)
    : M (option SearchResult) :=
  st ← get;
  let available := availableSources st currentSource episodeIndex in
  if (length available =? 0)%nat then mret None
  else
    let sortedSources := Array_sort compareSources available in
    let selectedSource := head sortedSources in
    mret selectedSource.

(** [episodesSelectorBySource] *)
Definition episodesSelectorBySource (src : string) (state : DetailState) : list string :=
  match List.find (λ r, String.eqb (source r) src) (searchResults state) with
  | Some r => episodes r
  | None => []
  end.

(** ** Runs of several actions *)

Inductive Action : Type :=
| Init (q : string) (preferredSource id : option string)
| SetDetail (d : SearchResult)
| Abort
| ToggleFavorite
| MarkSourceAsFailed (source reason : string)
| GetNextAvailableSource (currentSource : string) (episodeIndex : nat).

Definition perform (env : Environment) (a : Action) : M unit :=
  match a with
  | Init q preferredSource id => init env q preferredSource id
  | SetDetail d => setDetail env d
  | Abort => abort
  | ToggleFavorite => toggleFavorite env
  | MarkSourceAsFailed source reason => markSourceAsFailed source reason
  | GetNextAvailableSource currentSource episodeIndex =>
      getNextAvailableSource currentSource episodeIndex ;; mret tt
  end.

(** The actions of a run, one after the other: each runs to its end before
    the next starts.  A run in which an action starts while an [init] is
    still awaiting is not among these. *)
Definition perform_all (env : Environment) (actions : list Action) (m : Machine) : Machine :=
  fold_left (λ m a, (perform env a m).2) actions m.

(** ** The API client in full ([services/api.ts]) *)

(** A thrown JavaScript error: its [name] and its [message].  Whatever is
    thrown is an instance of [Error]. *)
Record JsError : Type := {
  error_name : string;
  error_message : string;
}.

(** [new Error(message)] *)
Definition Error (message : string) : JsError :=
  {| error_name := "Error"; error_message := message |}.

(** The [DOMException] an aborted [fetch] rejects with. *)
Definition AbortError : JsError :=
  {| error_name := "AbortError"; error_message := "Aborted" |}.

(** A settled promise of the client. *)
Inductive Promise (A : Type) : Type :=
| Fulfilled (a : A)
| Thrown (e : JsError).
Arguments Fulfilled {A} a.
Arguments Thrown {A} e.

(** A parsed JSON document; of a number, the client reads no more than
    whether it is zero. *)
#[warnings="-register-all"] Inductive Json : Type :=
| JNull
| JBool (b : bool)
| JNumber (n : Z)
| JString (s : string)
| JArray (items : list Json)
| JObject (fields : list (string * Json)).

(** What the client reads of a [Response]: the status, the [Set-Cookie]
    header ([headers.get] gives [null] when there is none) and what
    [response.json()] settles with. *)
Record Response : Type := {
  status : nat;
  set_cookie : option string;
  json : Promise Json;
}.

(** [response.ok]: the status is in the range 200-299. *)
Definition ok (response : Response) : bool :=
  (200 <=? status response)%nat && (status response <=? 299)%nat.

(** A request as [fetch] gets it: the method ([GET] when the options name
    none), the full URL and the body, kept as the value that
    [JSON.stringify] is given. *)
Record Request : Type := {
  method : string;
  url : string;
  body : option Json;
}.

(** What the network does with a request: [latency] milliseconds after it
    is sent, it settles as [reply] says. *)
Record Exchange : Type := {
  latency : nat;
  reply : Promise Response;
}.

(** An [AbortSignal], by the number of milliseconds after the request is
    sent at which it is aborted ([Some 0]: aborted already), if ever. *)
Definition AbortSignal : Type := option nat.

(** [fetch(url, {..., signal})]: an abort that comes no later than the
    answer rejects the request with an [AbortError]. *)
Definition fetch (exchange : Exchange) (signal : AbortSignal) : Promise Response :=
  match signal with
  | Some t => if (t <=? latency exchange)%nat then Thrown AbortError else reply exchange
  | None => reply exchange
  end.

(** [AsyncStorage]: string values under string keys. *)
Definition AsyncStorage : Type := gmap string string.

(** Truthiness of a JSON value, and the property [key] of one ([None] for
    [undefined]; of a key given twice, the later value counts). *)
Definition json_truthy (j : Json) : bool :=
  match j with
  | JNull => false
  | JBool b => b
  | JNumber n => negb (n =? 0)%Z
  | JString s => negb (String.eqb s "")
  | JArray _ | JObject _ => true
  end.

Definition json_get (key : string) (j : Json) : option Json :=
  match j with
  | JObject fields => snd <$> List.find (λ field, String.eqb (fst field) key) (rev fields)
  | _ => None
  end.

Module API.

(** An instance of the class: its one field. *)
Record t : Type := { baseURL : string }.

(** [new API(baseURL)] *)
Definition new (baseURL : option string) : t :=
  match baseURL with
  | Some url => if negb (String.eqb url "") then {| baseURL := url |}
                else {| baseURL := "https://tv.kelvin.dpdns.org" |}
  | None => {| baseURL := "https://tv.kelvin.dpdns.org" |}
  end.

Definition setBaseUrl (url : string) (this : t) : t := {| baseURL := url |}.

(** [_fetch(url, options, timeout)].  [signal] is [options.signal]; the
    signal of the method's own controller is aborted by its timer
    [timeout] milliseconds after the request is sent, unless the request
    has settled by then. *)
Definition _fetch (this : t) (net : Request → Exchange) (method url : string)
    (body : option Json) (signal : option AbortSignal) (timeout : nat) : Promise Response :=
  if String.eqb (baseURL this) "" then Thrown (Error "API_URL_NOT_SET")
  else
    let controller_signal : AbortSignal := Some timeout in
    let attempt :=
      match fetch (net {| method := method; url := baseURL this +:+ url; body := body |})
                  (default controller_signal signal) with
      | Fulfilled response =>
          if (status response =? 401)%nat then Thrown (Error "UNAUTHORIZED")
          else if negb (ok response)
               then Thrown (Error ("HTTP error! status: " +:+ pretty (status response)))
               else Fulfilled response
      | Thrown error => Thrown error
      end in
    match attempt with
    | Fulfilled response => Fulfilled response
    | Thrown error =>
        if String.eqb (error_name error) "AbortError" then Thrown (Error "Request timeout")
        else Thrown error
    end.

(** The default timeout of [_fetch]. *)
Definition default_timeout : nat := 10 * 1000.

(** The characters [encodeURIComponent] leaves alone: letters, digits and
    [- _ . ! ~ * ' ( )]. *)
Definition is_unreserved (c : ascii) : bool :=
  let n := nat_of_ascii c in
  ((65 <=? n) && (n <=? 90)) || ((97 <=? n) && (n <=? 122)) || ((48 <=? n) && (n <=? 57))
  || (n =? 45) || (n =? 95) || (n =? 46) || (n =? 33) || (n =? 126) || (n =? 42)
  || (n =? 39) || (n =? 40) || (n =? 41).

Definition hex_digit (n : nat) : ascii :=
  if n <? 10 then ascii_of_nat (48 + n) else ascii_of_nat (55 + n).

(** [encodeURIComponent(s)] on a well-formed string: every byte of its
    UTF-8 form that is not an unreserved character becomes [%XX]. *)
Fixpoint encodeURIComponent (s : string) : string :=
  match s with
  | EmptyString => EmptyString
  | String c rest =>
      if is_unreserved c then String c (encodeURIComponent rest)
      else String "%" (String (hex_digit (nat_of_ascii c / 16))
                         (String (hex_digit (nat_of_ascii c mod 16))
                            (encodeURIComponent rest)))
  end.

(** The URLs the methods ask [_fetch] for. *)
Definition searchVideos_url (query : string) : string :=
  "/api/search?q=" +:+ encodeURIComponent query.

Definition searchVideo_url (query resourceId : string) : string :=
  "/api/search/one?q=" +:+ encodeURIComponent query
  +:+ "&resourceId=" +:+ encodeURIComponent resourceId.

Definition getResources_url : string := "/api/search/resources".

Definition getFavorites_url (key : option string) : string :=
  if truthy key then "/api/favorites?key=" +:+ encodeURIComponent (default "" key)
  else "/api/favorites".

Definition deleteFavorite_url (key : option string) : string :=
  if truthy key then "/api/favorites?key=" +:+ encodeURIComponent (default "" key)
  else "/api/favorites".

Definition deletePlayRecord_url (key : option string) : string :=
  if truthy key then "/api/playrecords?key=" +:+ encodeURIComponent (default "" key)
  else "/api/playrecords".

Definition deleteSearchHistory_url (keyword : option string) : string :=
  if truthy keyword then "/api/searchhistory?keyword=" +:+ default "" keyword
  else "/api/searchhistory".

Definition getVideoDetail_url (source id : string) : string :=
  "/api/detail?source=" +:+ source +:+ "&id=" +:+ id.

Definition getImageProxyUrl (this : t) (imageUrl : string) : string :=
  baseURL this +:+ "/api/image-proxy?url=" +:+ encodeURIComponent imageUrl.

(** [JSON.stringify({ username, password })] leaves out what is
    [undefined]. *)
Definition login_body (username password : option string) : Json :=
  JObject (match username with Some u => [("username", JString u)] | None => [] end
           ++ match password with Some p => [("password", JString p)] | None => [] end).

(** [login(username, password)]: what the promise settles with, and the
    storage it leaves. *)
Definition login (this : t) (net : Request → Exchange) (username password : option string)
    (storage : AsyncStorage) : Promise Json * AsyncStorage :=
  match _fetch this net "POST" "/api/login" (Some (login_body username password)) None
               default_timeout with
  | Fulfilled response =>
      let cookies := set_cookie response in
      let storage :=
        if truthy cookies then <["authCookies" := default "" cookies]> storage else storage in
      (json response, storage)
  | Thrown error => (Thrown error, storage)
  end.

Definition logout (this : t) (net : Request → Exchange) (storage : AsyncStorage)
    : Promise Json * AsyncStorage :=
  match _fetch this net "POST" "/api/logout" None None default_timeout with
  | Fulfilled response => (json response, <["authCookies" := ""]> storage)
  | Thrown error => (Thrown error, storage)
  end.

Definition getServerConfig (this : t) (net : Request → Exchange) : Promise Json :=
  match _fetch this net "GET" "/api/server-config" None None default_timeout with
  | Fulfilled response => json response
  | Thrown error => Thrown error
  end.

End API.

(** ** The auth store ([stores/authStore.ts]) *)

Record AuthState : Type := {
  isLoggedIn : bool;
  isLoginModalVisible : bool;
}.

(** The state [create<AuthState>] starts from. *)
Definition initial_auth : AuthState :=
  {| isLoggedIn := false; isLoginModalVisible := false |}.

Definition showLoginModal (st : AuthState) : AuthState :=
  {| isLoggedIn := isLoggedIn st; isLoginModalVisible := true |}.

Definition hideLoginModal (st : AuthState) : AuthState :=
  {| isLoggedIn := isLoggedIn st; isLoginModalVisible := false |}.

(** [ServerConfig] of the API client, and what the auth store reads of the
    settings store. *)
Record ServerConfig : Type := {
  SiteName : string;
  StorageType : string;
}.

Record SettingsState : Type := {
  serverConfig : option ServerConfig;
  isLoadingServerConfig : bool;
}.

(** Everything outside the auth store that a run of its actions depends on.
    - [client], [requests]: the API client and what the network does with
      the first, second, ... request of the run.
    - [settings_first]: [useSettingsStore.getState()] when the run starts.
    - [fetchServerConfig]: how the settings store's action of that name
      settles, with the state of the settings store read right after it.
    - [settings_poll k]: the state of the settings store at poll [k] of the
      wait loop.
    - [LoginCredentialsManager_get]: the saved user name and password. *)
Record AuthWorld : Type := {
  client : API.t;
  requests : nat → Request → Exchange;
  settings_first : SettingsState;
  fetchServerConfig : Promise SettingsState;
  settings_poll : nat → SettingsState;
  LoginCredentialsManager_get : Promise (option (string * string));
}.

(** What a run leaves: the state of the store, the storage, the toasts
    shown and the number of polls of the wait loop. *)
Record AuthRun : Type := {
  auth : AuthState;
  storage_after : AsyncStorage;
  toasts : list string;
  polls : nat;
}.

(** A value that is not [null]. *)
Definition present {A : Type} (x : option A) : bool :=
  match x with
  | Some _ => true
  | None => false
  end.

Definition maxWaitTime : nat := 3000.
Definition checkInterval : nat := 100.

(** The loop [while (waitTime < maxWaitTime)] of [checkLoginStatus], from
    poll [k] on: the server configuration it ends with and the number of
    polls made.  [fuel] bounds the number of rounds. *)
Fixpoint wait_for_config (fuel : nat) (world : AuthWorld) (k waitTime : nat)
    (config : option ServerConfig) : option ServerConfig * nat :=
  match fuel with
  | 0 => (config, k)
  | S fuel =>
      if (waitTime <? maxWaitTime)%nat then
        let waitTime := waitTime + checkInterval in
        let currentState := settings_poll world k in
        if negb (isLoadingServerConfig currentState)
        then (serverConfig currentState, S k)
        else wait_for_config fuel world (S k) waitTime config
      else (config, k)
  end.

(** [serverConfig?.StorageType], as a condition. *)
Definition has_StorageType (config : option ServerConfig) : bool :=
  match config with
  | Some config => negb (String.eqb (StorageType config) "")
  | None => false
  end.

(** [loginResult && loginResult.ok], as a condition. *)
Definition login_ok (loginResult : Json) : bool :=
  json_truthy loginResult
  && match json_get "ok" loginResult with
     | Some v => json_truthy v
     | None => false
     end.

Definition msg_check_network : string := "请检查网络或者服务器地址是否可用".

(** The [catch] of [checkLoginStatus] around everything. *)
Definition on_unexpected (error : JsError) (st : AuthState) (storage : AsyncStorage)
    (polls : nat) : AuthRun :=
  {| auth := if String.eqb (error_message error) "UNAUTHORIZED"
             then {| isLoggedIn := false; isLoginModalVisible := true |}
             else {| isLoggedIn := false; isLoginModalVisible := isLoginModalVisible st |};
     storage_after := storage; toasts := []; polls := polls |}.

(** [checkLoginStatus] from the read of the token on. *)
Definition check_token (world : AuthWorld) (config : option ServerConfig)
    (st : AuthState) (storage : AsyncStorage) (polls : nat) : AuthRun :=
  let authToken := storage !! "authCookies" in
  if negb (truthy authToken) then
    if match config with
       | Some c => String.eqb (StorageType c) "localstorage"
       | None => false
       end
    then
      let '(loginResult, storage) :=
        API.login (client world) (requests world 0) None None storage in
      match loginResult with
      | Fulfilled result =>
          {| auth := if login_ok result
                     then {| isLoggedIn := true; isLoginModalVisible := isLoginModalVisible st |}
                     else st;
             storage_after := storage; toasts := []; polls := polls |}
      | Thrown _ =>
          {| auth := {| isLoggedIn := false; isLoginModalVisible := true |};
             storage_after := storage; toasts := []; polls := polls |}
      end
    else
      {| auth := {| isLoggedIn := false; isLoginModalVisible := true |};
         storage_after := storage; toasts := []; polls := polls |}
  else
    match API.getServerConfig (client world) (requests world 0) with
    | Fulfilled _ =>
        {| auth := {| isLoggedIn := true; isLoginModalVisible := false |};
           storage_after := storage; toasts := []; polls := polls |}
    | Thrown _ =>
        match LoginCredentialsManager_get world with
        | Thrown error => on_unexpected error st storage polls
        | Fulfilled savedCredentials =>
            let drop_cookie (storage : AsyncStorage) : AuthRun :=
              {| auth := {| isLoggedIn := false; isLoginModalVisible := true |};
                 storage_after := delete "authCookies" storage; toasts := [];
                 polls := polls |} in
            match savedCredentials with
            | Some (username, password) =>
                let '(loginResult, storage) :=
                  API.login (client world) (requests world 1) (Some username) (Some password)
                            storage in
                match loginResult with
                | Fulfilled result =>
                    if login_ok result then
                      match API.getServerConfig (client world) (requests world 2) with
                      | Fulfilled _ =>
                          {| auth := {| isLoggedIn := true; isLoginModalVisible := false |};
                             storage_after := storage; toasts := []; polls := polls |}
                      | Thrown _ => drop_cookie storage
                      end
                    else drop_cookie storage
                | Thrown _ => drop_cookie storage
                end
            | None => drop_cookie storage
            end
        end
    end.

Definition checkLoginStatus (world : AuthWorld) (apiBaseUrl : option string)
    (st : AuthState) (storage : AsyncStorage) : AuthRun :=
  if negb (truthy apiBaseUrl) then
    {| auth := {| isLoggedIn := false; isLoginModalVisible := false |};
       storage_after := storage; toasts := []; polls := 0 |}
  else
    let settingsState := settings_first world in
    let config := serverConfig settingsState in
    match (if negb (present config) && negb (isLoadingServerConfig settingsState)
           then fetchServerConfig world
           else Fulfilled settingsState) with
    | Thrown error => on_unexpected error st storage 0
    | Fulfilled settingsState =>
        let config := serverConfig settingsState in
        let '(config, polls) :=
          if isLoadingServerConfig settingsState
          then wait_for_config (maxWaitTime / checkInterval) world 0 0 config
          else (config, 0) in
        if negb (has_StorageType config) then
          {| auth := st; storage_after := storage;
             toasts := if negb (isLoadingServerConfig settingsState)
                       then [msg_check_network] else [];
             polls := polls |}
        else check_token world config st storage polls
    end.

(** The store's [logout] action. *)
Definition logout (world : AuthWorld) (st : AuthState) (storage : AsyncStorage)
    : AuthState * AsyncStorage :=
  let '(result, storage) := API.logout (client world) (requests world 0) storage in
  match result with
  | Fulfilled _ => ({| isLoggedIn := false; isLoginModalVisible := true |}, storage)
  | Thrown _ => (st, storage)
  end.

(** * The vocabulary of the properties *)

(** ** Scores *)

(** [a] is below [b] and not the other way round. *)
Definition num_lt (a b : number) : Prop := num_le a b ∧ ¬ num_le b a.

(** What the scorer makes of the three component scores: the sum it
    accumulates in its local [score], rounded to two decimal places. *)
Definition score_of (qualityScore speedScore pingScore : number) : number :=
  let score := Num 0%Q in
  let score := js_add score (js_mul qualityScore (to_number 0.4%Q)) in
  let score := js_add score (js_mul speedScore (to_number 0.4%Q)) in
  let score := js_add score (js_mul pingScore (to_number 0.2%Q)) in
  js_div (Math_round (js_mul score (Num 100%Q))) (Num 100%Q).

(** The kilobytes per second a load-speed label stands for, when the label
    has the shape the scorer reads and its magnitude is a number: the value
    of the local [speedKBps] of [speedScore]. *)
Definition speedKBps_of (speedStr : string) : option number :=
  if String.eqb speedStr "未知" || String.eqb speedStr "测量中..." then None
  else
    match match_speed speedStr with
    | None => None
    | Some (magnitude, unit) =>
        match parseFloat magnitude with
        | NaN => None
        | value => Some (if String.eqb unit "MB/s" then js_mul value (Num 1024%Q) else value)
        end
    end.

(** Rounding to two decimal places, in exact arithmetic. *)
Definition round2 (x : Q) : Q := (inject_Z (Qfloor (x * 100 + (1 # 2))) / 100)%Q.

(** The three component scores and the final score as the specification
    words them, in exact arithmetic. *)
Definition spec_speedScore (label : string) : Q :=
  match speedKBps_of label with
  | Some (Num kbps) => Qmin kbps 5120 / 5120 * 100
  | Some _ => 100
  | None => 30
  end%Q.

Definition spec_pingScore (ping : number) : Q :=
  match ping with
  | Num ping =>
      if Qle_bool ping 0 then 0
      else if Qle_bool ping 50 then 100
      else if Qle_bool 1000 ping then 0
      else 100 * (1000 - ping) / 950
  | _ => 0
  end%Q.

Definition spec_score (v : VideoInfo) : Q :=
  round2 (0.4 * qualityScore (quality v)
          + 0.4 * spec_speedScore (loadSpeed v)
          + 0.2 * spec_pingScore (pingTime v))%Q.

(** The value [round_pos] reaches before it looks at the range. *)
Definition rounded (a : Q) : Q :=
  let e := Z.max (ilog2 a - 52) (-1074) in
  (inject_Z (round_half_even (a / pow2 e)) * pow2 e)%Q.

(** The doubles are integer multiples of [2 ^ -1074]. *)
Definition on_grid (q : Q) : Prop := ∃ k : Z, (q == inject_Z k * pow2 (-1074))%Q.

(** ** Ranking *)

(** The element a left-to-right scan keeps: the current choice is replaced
    by a later element exactly when that element compares negative with it. *)
Definition best {A : Type} (comparefn : A → A → number) (h : A) (l : list A) : A :=
  fold_left (λ h x, match js_sign (comparefn x h) with Lt => x | _ => h end) l h.

(** The video score of a candidate, when it carries a quality measurement
    and the score is a number. *)
Definition videoScore (c : SearchResult) : option Q :=
  match videoInfo c with
  | Some info => match calculateVideoScore info with Num s => Some s | _ => None end
  | None => None
  end.

(** The candidate carries a measurement whose video score is [s]. *)
Definition has_score (c : SearchResult) (s : Q) : Prop :=
  match videoScore c with
  | Some x => (x == s)%Q
  | None => False
  end.

(** The resolution-label priority of a candidate. *)
Definition priority_of (c : SearchResult) : Z :=
  resolutionPriority (default "" (resolution c)).

(** [r] is the top of [candidates] by [rank], and the earliest of those
    that share its rank: everything before it ranks strictly lower,
    nothing after it ranks higher. *)
Definition top_ranked {A : Type} (rank : A → Q) (candidates : list A) (r : A) : Prop :=
  ∃ earlier later, candidates = earlier ++ r :: later
    ∧ (∀ c, c ∈ earlier → (rank c < rank r)%Q)
    ∧ (∀ c, c ∈ later → (rank c <= rank r)%Q).

(** On [l] the comparator orders by descending [rank]. *)
Definition agrees {A : Type} (comparefn : A → A → number) (rank : A → Q) (l : list A) : Prop :=
  ∀ a b, a ∈ l → b ∈ l → js_sign (comparefn a b) = (rank b ?= rank a)%Q.

(** [sorted] is [l] put in order by [comparefn], as the language requires
    of [sort] for a consistent comparator: the elements of [l], taken at the
    positions [order] lists, so that no element compares positive with a
    later one and elements that compare equal keep the order they have in
    [l]. *)
Definition sorted_by {A : Type} (comparefn : A → A → number) (l sorted : list A) : Prop :=
  ∃ order : list nat,
    order ≡ₚ seq 0 (length l)
    ∧ Forall2 (λ i x, l !! i = Some x) order sorted
    ∧ ∀ i j pi pj a b,
        (i < j)%nat →
        order !! i = Some pi → order !! j = Some pj →
        sorted !! i = Some a → sorted !! j = Some b →
        js_sign (comparefn a b) ≠ Gt
        ∧ (js_sign (comparefn a b) = Eq → (pi < pj)%nat).

(** ** Invariants of the asynchronous actions *)

Definition preserves {A : Type} (I : Machine → Prop) (c : M A) : Prop :=
  ∀ m, I m → I (c m).2.

(** An invariant that reads the store and the published states only. *)
Definition lift_inv (J : DetailState → list (nat * DetailState) → Prop) (m : Machine) : Prop :=
  J (store m) (published m).

(** An update that [set] may publish without breaking [J]. *)
Definition good (J : DetailState → list (nat * DetailState) → Prop)
    (f : DetailState → DetailState) : Prop :=
  ∀ st pub t, J st pub → J (f st) ((t, f st) :: pub).

(** The results of a settled search all carry the query as their title. *)
Definition titled (query : string) (response : Outcome (list SearchResult)) : Prop :=
  match response with
  | Resolved results => Forall (λ r, title r = query) results
  | Rejected _ => True
  end.

(** The store belongs to a session for [query] and every candidate in its
    result set has that title. *)
Definition matches_query (query : string) (st : DetailState) : Prop :=
  q st = Some query ∧ Forall (λ r, title r = query) (searchResults st).

(** The same, whatever the query of the store is; before the first session
    the result set is empty. *)
Definition consistent (st : DetailState) : Prop :=
  match q st with
  | Some query => Forall (λ r, title r = query) (searchResults st)
  | None => searchResults st = []
  end.

(** The store satisfies [P], and so does every state published on top of
    [base]. *)
Definition published_since (P : DetailState → Prop) (base : list (nat * DetailState))
    (st : DetailState) (pub : list (nat * DetailState)) : Prop :=
  P st ∧ ∃ new, pub = new ++ base ∧ Forall (λ entry, P entry.2) new.

(** ** Runs that nobody cancels *)

(** From a machine whose store is [st] and whose [signal] is live, [c]
    returns [a], leaves the store [st'], issues the calls [log] and
    publishes the states [shown] (both newest first), and leaves [signal]
    live. *)
Definition runs {A : Type} (signal : nat) (c : M A) (st : DetailState) (a : A)
    (st' : DetailState) (log : list Call) (shown : list DetailState) : Prop :=
  ∀ m, store m = st → heap m !! signal = Some false →
    (c m).1 = a ∧ store (c m).2 = st' ∧ heap (c m).2 !! signal = Some false
    ∧ calls (c m).2 = log ++ calls m
    ∧ (published (c m).2).*2 = shown ++ (published m).*2.

(** What [api.searchVideo] makes of the server's answer. *)
Definition filtered (query : string) (response : Outcome (list SearchResult))
    : Outcome (list SearchResult) :=
  match response with
  | Resolved results => Resolved (filter (λ item, title item = query) results)
  | Rejected e => Rejected e
  end.

(** The preferred source found nothing: its search failed, or no result
    carries the query as its title. *)
Definition preferred_empty (env : Environment) (query preferredSource : string) : Prop :=
  match filtered query (server_search_one env query preferredSource) with
  | Resolved results => results = []
  | Rejected _ => True
  end.

(** The store the fallback leaves, by the matches of the all-sources search. *)
Definition fallback_store (env : Environment) (query : string)
    (found : list SearchResult) (st : DetailState) : DetailState :=
  match found with
  | [] => (with_error (Some (msg_fallback_no_match query)) ∘ with_loading false) st
  | _ :: _ => with_loading false (merge_results (attach_resolution env <$> found) false st)
  end.

(** The states the fallback publishes, newest first. *)
Definition fallback_shown (env : Environment) (query : string)
    (found : list SearchResult) (st : DetailState) : list DetailState :=
  match found with
  | [] => [fallback_store env query found st]
  | _ :: _ =>
      [fallback_store env query found st;
       merge_results (attach_resolution env <$> found) false st]
  end.

(** The store the fallback leaves when the all-sources search fails. *)
Definition fallback_failed_store (message : string) (st : DetailState) : DetailState :=
  (with_error (Some (msg_search_failed message)) ∘ with_loading false) st.

(** The store the fallback leaves, by the answer of the all-sources search. *)
Definition fallback_end (env : Environment) (query : string) (st : DetailState)
    : DetailState :=
  match server_search_all env query with
  | Resolved allResults =>
      fallback_store env query (filter (λ item, title item = query) allResults) st
  | Rejected message => fallback_failed_store message st
  end.

(** [st'] shows the user what [st] does: the same result set, loading flag
    and error. *)
Definition same_outcome (st st' : DetailState) : Prop :=
  searchResults st' = searchResults st
  ∧ loading st' = loading st
  ∧ error st' = error st.

(** The providers the fan-out searches: the local [enabledResources] of
    [init]. *)
Definition enabled_resources (vs : VideoSource) (allResources : list ApiSite)
    : list ApiSite :=
  if enabledAll vs then allResources
  else filter (λ r, enabled vs !! key r = Some true) allResources.

(** ** Example data *)

(** A candidate as the store holds it. *)
Definition candidate (src : string) (n : nat) (info : option VideoInfo)
    (res : option string) : SearchResult :=
  {| result_id := 1; title := "X"; poster := "";
     episodes := replicate n "https://example.org/e.m3u8";
     source := src; source_name := src; year := "2020"; videoInfo := info;
     resolution := res |}.

(** A result as the server sends it. *)
Definition raw (src : string) (n : Z) (t : string) : SearchResult :=
  {| result_id := n; title := t; poster := ""; episodes := ["https://example.org/1.m3u8"];
     source := src; source_name := src; year := "2020"; videoInfo := None;
     resolution := None |}.

Definition machine_with (results : list SearchResult) : Machine :=
  with_store (with_searchResults results initial_state) initial_machine.

(** Playback runs on ["B"]; ["A"] has five episodes and score 80, ["C"]
    three episodes and score 90. *)
Definition scenario_A : SearchResult :=
  candidate "A" 5 (Some {| quality := "4K"; loadSpeed := "5 MB/s"; pingTime := Num 0 |})
            (Some "4K").
Definition scenario_B : SearchResult :=
  candidate "B" 5 None (Some "1080p").
Definition scenario_C : SearchResult :=
  candidate "C" 3 (Some {| quality := "4K"; loadSpeed := "5 MB/s"; pingTime := Num 525 |})
            (Some "4K").
Definition scenario_machine : Machine :=
  machine_with [scenario_B; scenario_A; scenario_C].

(** Playback runs on ["Z"]; ["A"] scores 40.92, ["B"] and ["C"] score 40.93
    each, and ["D"], of score 100, has one episode only. *)
Definition ranked_A : SearchResult :=
  candidate "A" 3 (Some {| quality := "2K"; loadSpeed := "16 KB/s"; pingTime := Num 677 |})
            (Some "2K").
Definition ranked_B : SearchResult :=
  candidate "B" 3 (Some {| quality := "2K"; loadSpeed := "0 KB/s"; pingTime := Num 671 |})
            (Some "2K").
Definition ranked_C : SearchResult :=
  candidate "C" 4 (Some {| quality := "2K"; loadSpeed := "0 KB/s"; pingTime := Num 671 |})
            (Some "2K").
Definition ranked_D : SearchResult :=
  candidate "D" 1 (Some {| quality := "4K"; loadSpeed := "5 MB/s"; pingTime := Num 50 |})
            (Some "4K").
Definition ranked_machine : Machine :=
  machine_with [ranked_A; ranked_D; ranked_B; ranked_C].

(** Three candidates that rank in a cycle: ["A"] and ["C"] carry a
    measurement (scores 100 and 30), ["B"] only a probed resolution. *)
Definition cycle_A : SearchResult :=
  candidate "A" 1 (Some {| quality := "4K"; loadSpeed := "5 MB/s"; pingTime := Num 50 |})
            (Some "4K").
Definition cycle_B : SearchResult :=
  candidate "B" 1 None (Some "720p").
Definition cycle_C : SearchResult :=
  candidate "C" 1 (Some {| quality := "1080p"; loadSpeed := "0 KB/s"; pingTime := Num 0 |})
            (Some "1080p").
Definition cycle_machine : Machine := machine_with [cycle_A; cycle_B; cycle_C].

(** A world in which every search comes back empty and nobody aborts. *)
Definition quiet_env : Environment := {|
  server_search_one := λ _ _, Resolved [];
  server_search_all := λ _, Resolved [];
  server_resources := Resolved [];
  getResolutionFromM3U8 := λ _, Resolved None;
  FavoriteManager_isFavorited := λ _ _, Resolved false;
  FavoriteManager_toggle := λ _ _, Resolved true;
  videoSource := {| enabledAll := true; enabled := ∅ |};
  settle_order := λ l, l;
  abort_at := None |}.

Definition with_abort_at (t : option nat) (env : Environment) : Environment :=
  {| server_search_one := server_search_one env;
     server_search_all := server_search_all env;
     server_resources := server_resources env;
     getResolutionFromM3U8 := getResolutionFromM3U8 env;
     FavoriteManager_isFavorited := FavoriteManager_isFavorited env;
     FavoriteManager_toggle := FavoriteManager_toggle env;
     videoSource := videoSource env;
     settle_order := settle_order env;
     abort_at := t |}.

(** The preferred source knows nothing of ["X"]; the all-sources search
    finds it at ["B"] and ["C"], and another title at ["D"]. *)
Definition fallback_results : list SearchResult :=
  [raw "B" 1 "X"; raw "C" 2 "X"; raw "D" 3 "X 2"].

Definition fallback_env : Environment := {|
  server_search_one := λ _ _, Resolved [];
  server_search_all := λ _, Resolved fallback_results;
  server_resources := Resolved [];
  getResolutionFromM3U8 := λ _, Resolved (Some "1080p");
  FavoriteManager_isFavorited := λ _ _, Resolved false;
  FavoriteManager_toggle := λ _ _, Resolved true;
  videoSource := {| enabledAll := true; enabled := ∅ |};
  settle_order := λ l, l;
  abort_at := None |}.

(** One provider, ["A"], answers with two results of the same title. *)
Definition twin_env : Environment := {|
  server_search_one := λ _ _, Resolved [raw "A" 1 "X"; raw "A" 2 "X"];
  server_search_all := λ _, Resolved [];
  server_resources :=
    Resolved [{| key := "A"; api := "https://a.example.org"; name := "A" |}];
  getResolutionFromM3U8 := λ _, Resolved (Some "1080p");
  FavoriteManager_isFavorited := λ _ _, Resolved false;
  FavoriteManager_toggle := λ _ _, Resolved true;
  videoSource := {| enabledAll := true; enabled := ∅ |};
  settle_order := λ l, l;
  abort_at := None |}.

(** ** More vocabulary: invariants, runs and examples *)

(** Hoare triples over the machine: from a machine that satisfies [P], [c]
    returns a value and leaves a machine that together satisfy [Q]. *)
Definition triple {A : Type} (P : Machine → Prop) (c : M A) (Q : A → Machine → Prop) : Prop :=
  ∀ m, P m → Q (c m).1 (c m).2.

(** The part of the store the user picks a source from. *)
Definition result_set (st : DetailState)
    : list SearchResult * list SourceEntry * option SearchResult :=
  (searchResults st, sources st, detail st).

(** An update that leaves the result set and the controller alone. *)
Definition keeps_result_set (f : DetailState → DetailState) : Prop :=
  ∀ st, result_set (f st) = result_set st ∧ controller (f st) = controller st.

(** The session of controller [signal], to be aborted at clock [a], has
    published [new] on top of [base]: the controller is the store's, it is
    aborted exactly from clock [a] on, and every state published from then
    on shows the result set the store holds now. *)
Definition frozen_since (signal a : nat) (base : list (nat * DetailState)) (m : Machine) : Prop :=
  controller (store m) = Some signal
  ∧ heap m !! signal = Some (bool_decide (a ≤ clock m))
  ∧ ∃ new, published m = new ++ base
      ∧ Forall (λ entry, entry.1 ≤ clock m
                         ∧ (a ≤ entry.1 → result_set entry.2 = result_set (store m))) new.

(** The controller [signal] exists and is not aborted. *)
Definition live (signal : nat) (m : Machine) : Prop := heap m !! signal = Some false.

(** The session has something to show: candidates, or an error message. *)
Definition settled (st : DetailState) : Prop :=
  searchResults st ≠ [] ∨ truthy (error st) = true.

(** The store of a session that has merged nothing yet. *)
Definition fresh (st : DetailState) : Prop := searchResults st = [] ∧ detail st = None.

(** [sources] lists the candidates of the result set, in order. *)
Definition sources_mirror (st : DetailState) : Prop :=
  searchResults st = [] ∨ sources st = source_entry <$> searchResults st.

(** A search marked as finished shows no loading indicator. *)
Definition finished_means_loaded (st : DetailState) : Prop :=
  allSourcesLoaded st = true → loading st = false.

(** What a session's search writes: everything in the store but the
    detail, the favourite flag and the failed-source set. *)
Definition search_state (st : DetailState)
    : option string * list SearchResult * list SourceEntry * bool * option string
      * bool * option nat :=
  (q st, searchResults st, sources st, loading st, error st, allSourcesLoaded st,
   controller st).

(** The searches among the calls of a log: query, provider and signal. *)
Definition searches (log : list Call) : list (string * string * nat) :=
  omap (λ c, match c with
             | call_searchVideo query resourceId signal => Some (query, resourceId, signal)
             | _ => None
             end) log.

(** What the search of one provider contributes to the candidates [acc]
    gathered so far: its results that carry the query as title, each with
    its resolution attached, unless [acc] already has their source. *)
Definition contribution (env : Environment) (query : string) (acc : list SearchResult)
    (resource : ApiSite) : list SearchResult :=
  match filtered query (server_search_one env query (key resource)) with
  | Resolved results =>
      filter (λ r, source r ∉ source <$> acc) (attach_resolution env <$> results)
  | Rejected _ => []
  end.

(** The candidates gathered once the searches of [settling] have come back,
    in that order. *)
Definition gather (env : Environment) (query : string) (settling : list ApiSite)
    (acc : list SearchResult) : list SearchResult :=
  fold_left (λ acc resource, acc ++ contribution env query acc resource) settling acc.

(** The number of results those searches have found: the local
    [totalResults] of [init]. *)
Definition found_total (env : Environment) (query : string) (settling : list ApiSite) : nat :=
  sum_list ((λ resource, match filtered query (server_search_one env query (key resource)) with
                         | Resolved results => length results
                         | Rejected _ => 0
                         end) <$> settling).

(** The store the fan-out leaves once the searches of [settling] have come
    back. *)
Fixpoint fan_in_store (env : Environment) (query : string) (settling : list ApiSite)
    (firstResultFound : bool) (st : DetailState) : DetailState :=
  match settling with
  | [] => st
  | resource :: rest =>
      match filtered query (server_search_one env query (key resource)) with
      | Resolved (r :: results) =>
          fan_in_store env query rest true
            ((if firstResultFound then id else with_loading false)
               (merge_results (attach_resolution env <$> r :: results) true st))
      | _ => fan_in_store env query rest firstResultFound st
      end
  end.

(** Two providers; only the second knows the title. *)
Definition site (k : string) : ApiSite := {| key := k; api := ""; name := k |}.

Definition two_sites_env : Environment := {|
  server_search_one := λ _ k, if String.eqb k "B" then Resolved [raw "B" 1 "X"]
                              else Rejected "HTTP error! status: 500";
  server_search_all := λ _, Rejected "HTTP error! status: 500";
  server_resources := Resolved [site "A"; site "B"; site "C"];
  getResolutionFromM3U8 := λ _, Resolved (Some "1080p");
  FavoriteManager_isFavorited := λ _ _, Resolved false;
  FavoriteManager_toggle := λ _ _, Resolved true;
  videoSource := {| enabledAll := false; enabled := {[ "A" := true; "B" := true; "C" := false ]} |};
  settle_order := λ l, rev l;
  abort_at := None |}.


(** A world in which the server is down. *)
Definition down_env : Environment := {|
  server_search_one := λ _ _, Rejected "HTTP error! status: 502";
  server_search_all := λ _, Rejected "HTTP error! status: 502";
  server_resources := Rejected "HTTP error! status: 502";
  getResolutionFromM3U8 := λ _, Rejected "HTTP error! status: 502";
  FavoriteManager_isFavorited := λ _ _, Resolved false;
  FavoriteManager_toggle := λ _ _, Resolved false;
  videoSource := {| enabledAll := true; enabled := ∅ |};
  settle_order := λ l, l;
  abort_at := None |}.

(** Every character of [s] satisfies [p]. *)
Fixpoint all_chars (p : ascii → bool) (s : string) : bool :=
  match s with
  | EmptyString => true
  | String c rest => p c && all_chars p rest
  end.

(** The label starts with a dot that no digit follows. *)
Definition starts_with_bare_dot (label : string) : bool :=
  match label with
  | String c rest =>
      is_dot c && match rest with
                  | String d _ => negb (is_digit d)
                  | EmptyString => true
                  end
  | EmptyString => false
  end.

(** What has to be undone to read an encoded component back. *)
Definition unhex (c : ascii) : nat :=
  if is_digit c then nat_of_ascii c - 48 else nat_of_ascii c - 55.

Fixpoint percent_decode (s : string) : string :=
  match s with
  | EmptyString => EmptyString
  | String c rest =>
      if Ascii.eqb c "%" then
        match rest with
        | String h (String l rest') =>
            String (ascii_of_nat (16 * unhex h + unhex l)) (percent_decode rest')
        | _ => s
        end
      else String c (percent_decode rest)
  end.

(** The character occurs in the string. *)
Fixpoint occurs (c : ascii) (s : string) : bool :=
  match s with
  | EmptyString => false
  | String d rest => Ascii.eqb c d || occurs c rest
  end.

(** No request of the run is answered with a status between 200 and 299. *)
Definition offline (world : AuthWorld) : Prop :=
  ∀ n request response,
    reply (requests world n request) = Fulfilled response → ok response = false.

(** The settings store holds a server configuration that names a storage
    type, and is not loading one. *)
Definition configured (world : AuthWorld) (storageType : string) : Prop :=
  ∃ siteName,
    settings_first world
    = {| serverConfig := Some {| SiteName := siteName; StorageType := storageType |};
         isLoadingServerConfig := false |}
    ∧ storageType ≠ "".

(** A world to run the examples in: the settings store knows a server whose
    sessions live in Redis, every request is answered at once with status
    [status] and an empty object, and no credentials are saved. *)
Definition answering (code : nat) : AuthWorld := {|
  client := API.new None;
  requests := λ _ _, {| latency := 20;
                        reply := Fulfilled {| status := code; set_cookie := None;
                                              json := Fulfilled (JObject []) |} |};
  settings_first := {| serverConfig := Some {| SiteName := "OrionTV"; StorageType := "redis" |};
                       isLoadingServerConfig := false |};
  fetchServerConfig := Thrown (Error "not needed");
  settings_poll := λ _, {| serverConfig := None; isLoadingServerConfig := true |};
  LoginCredentialsManager_get := Fulfilled None |}.

(** * Properties *)

(** ** Rounding to the nearest double *)

Section Rounding.
Local Open Scope Q_scope.

Lemma pow2_pos k : 0 < pow2 k.
Proof. apply Qpower_0_lt. reflexivity. Qed.

Lemma pow2_plus a b : pow2 (a + b) == pow2 a * pow2 b.
Proof. apply Qpower_plus. discriminate. Qed.

Lemma pow2_le a b : (a ≤ b)%Z → pow2 a <= pow2 b.
Proof. intros H. apply Qpower_le_compat_l; [done|discriminate]. Qed.

Lemma pow2_lt_inv a b : pow2 a < pow2 b → (a < b)%Z.
Proof. intros H. eapply Qpower_lt_compat_l_inv; [exact H|reflexivity]. Qed.

Lemma pow2_Z k : (0 ≤ k)%Z → pow2 k == inject_Z (2 ^ k).
Proof. intros H. unfold pow2. by rewrite Zpower_Qpower. Qed.

Lemma Qdiv_le_pow2 x y e : x <= y → x / pow2 e <= y / pow2 e.
Proof.
  intros H. unfold Qdiv. apply Qmult_le_compat_r; [done|].
  apply Qlt_le_weak, Qinv_lt_0_compat, pow2_pos.
Qed.

(** The binary logarithm *)

Lemma ilog2_spec q : 0 < q → pow2 (ilog2 q) <= q ∧ q < pow2 (ilog2 q + 1).
Proof.
  intros Hq. destruct q as [n d].
  assert (0 < n)%Z as Hn.
  { unfold Qlt in Hq. cbn in Hq. lia. }
  unfold ilog2. cbn [Qnum Qden].
  set (ln := Z.log2 n). set (ld := Z.log2 (Z.pos d)).
  destruct (Z.log2_spec n Hn) as [Hn1 Hn2]. fold ln in Hn1, Hn2.
  destruct (Z.log2_spec (Z.pos d) ltac:(done)) as [Hd1 Hd2]. fold ld in Hd1, Hd2.
  assert (0 ≤ ln)%Z as Hln by apply Z.log2_nonneg.
  assert (0 ≤ ld)%Z as Hld by apply Z.log2_nonneg.
  assert (n # d == inject_Z n / inject_Z (Z.pos d)) as Hnd by apply Qmake_Qdiv.
  assert (0 < inject_Z (Z.pos d)) as Hdpos by (unfold Qlt; cbn; lia).
  assert (pow2 ln <= inject_Z n) as A1 by (rewrite pow2_Z by done; by rewrite <- Zle_Qle).
  assert (inject_Z n < pow2 (ln + 1)) as A2
    by (rewrite pow2_Z by lia; by rewrite <- Zlt_Qlt).
  assert (pow2 ld <= inject_Z (Z.pos d)) as B1
    by (rewrite pow2_Z by done; by rewrite <- Zle_Qle).
  assert (inject_Z (Z.pos d) < pow2 (ld + 1)) as B2
    by (rewrite pow2_Z by lia; by rewrite <- Zlt_Qlt).
  assert (n # d < pow2 (ln - ld + 1)) as Hup.
  { rewrite Hnd. apply Qlt_shift_div_r; [done|].
    eapply Qlt_le_trans; [exact A2|].
    replace (ln + 1)%Z with ((ln - ld + 1) + ld)%Z by lia. rewrite pow2_plus.
    apply Qmult_le_l; [apply pow2_pos|done]. }
  assert (pow2 (ln - ld - 1) <= n # d) as Hlow.
  { rewrite Hnd. apply Qle_shift_div_l; [done|].
    eapply Qle_trans; [|exact A1].
    replace ln with ((ln - ld - 1) + (ld + 1))%Z at 2 by lia. rewrite pow2_plus.
    apply Qmult_le_l; [apply pow2_pos|by apply Qlt_le_weak]. }
  destruct (Qle_bool (pow2 (ln - ld)) (n # d)) eqn:E.
  - apply Qle_bool_iff in E. done.
  - apply not_true_iff_false in E. rewrite Qle_bool_iff in E.
    replace (ln - ld - 1 + 1)%Z with (ln - ld)%Z by lia.
    split; [done|]. by apply Qnot_le_lt.
Qed.

Lemma ilog2_mono x y : 0 < x → x <= y → (ilog2 x ≤ ilog2 y)%Z.
Proof.
  intros Hx Hxy.
  destruct (ilog2_spec x Hx) as [Hx1 _].
  destruct (ilog2_spec y) as [_ Hy2]; [lra|].
  assert (pow2 (ilog2 x) < pow2 (ilog2 y + 1)) as H by lra.
  apply pow2_lt_inv in H. lia.
Qed.

(** Rounding to an integer *)

Lemma round_half_even_Z n : round_half_even (inject_Z n) = n.
Proof.
  unfold round_half_even. rewrite Qfloor_Z.
  destruct (Qcompare_spec (inject_Z n - inject_Z n) (1 # 2)); [exfalso; lra| done |exfalso; lra].
Qed.

Lemma round_half_even_mono x y : x <= y → (round_half_even x ≤ round_half_even y)%Z.
Proof.
  intros Hxy. unfold round_half_even.
  pose proof (Qfloor_resp_le x y Hxy) as Hf.
  pose proof (Qfloor_le x) as Hx1. pose proof (Qlt_floor x) as Hx2.
  pose proof (Qfloor_le y) as Hy1. pose proof (Qlt_floor y) as Hy2.
  destruct (Z.eq_dec (Qfloor x) (Qfloor y)) as [Heq|Hne].
  - rewrite <- Heq in *.
    destruct (Qcompare_spec (x - inject_Z (Qfloor x)) (1 # 2)),
             (Qcompare_spec (y - inject_Z (Qfloor x)) (1 # 2));
      try destruct (Z.even (Qfloor x)); try lia; exfalso; lra.
  - assert (Qfloor x + 1 ≤ Qfloor y)%Z as Hlt by lia.
    destruct (x - inject_Z (Qfloor x) ?= 1 # 2), (y - inject_Z (Qfloor y) ?= 1 # 2);
      try destruct (Z.even (Qfloor x)); try destruct (Z.even (Qfloor y)); lia.
Qed.

Lemma round_half_even_le x n : x <= inject_Z n → (round_half_even x ≤ n)%Z.
Proof. intros H. rewrite <- (round_half_even_Z n). by apply round_half_even_mono. Qed.

Lemma round_half_even_ge x n : inject_Z n <= x → (n ≤ round_half_even x)%Z.
Proof. intros H. rewrite <- (round_half_even_Z n). by apply round_half_even_mono. Qed.

Lemma round_pos_eq a :
  round_pos a = if Qle_bool (pow2 1024) (rounded a) then Infinity false
                else Num (Qred (rounded a)).
Proof. reflexivity. Qed.

Lemma rounded_nonneg a : 0 < a → 0 <= rounded a.
Proof.
  intros Ha. unfold rounded. cbv zeta.
  set (e := Z.max _ _).
  apply Qmult_le_0_compat; [|apply Qlt_le_weak, pow2_pos].
  change 0 with (inject_Z 0). rewrite <- Zle_Qle. apply round_half_even_ge.
  apply Qle_shift_div_l; [apply pow2_pos|]. change (inject_Z 0) with 0. lra.
Qed.

Lemma rounded_mono a b : 0 < a → a <= b → rounded a <= rounded b.
Proof.
  intros Ha Hab. unfold rounded. cbv zeta.
  pose proof (ilog2_mono a b Ha Hab) as Hlog.
  set (ea := Z.max (ilog2 a - 52) (-1074)).
  set (eb := Z.max (ilog2 b - 52) (-1074)).
  assert (ea ≤ eb)%Z as He by lia.
  destruct (Z.eq_dec ea eb) as [Heq|Hne].
  - rewrite <- Heq. apply Qmult_le_compat_r; [|apply Qlt_le_weak, pow2_pos].
    rewrite <- Zle_Qle. apply round_half_even_mono. by apply Qdiv_le_pow2.
  - assert (eb = ilog2 b - 52)%Z as Heb by lia.
    assert (ilog2 a - 52 ≤ ea)%Z as Hea by lia.
    destruct (ilog2_spec a Ha) as [_ Ha2].
    destruct (ilog2_spec b) as [Hb1 _]; [lra|].
    assert (round_half_even (a / pow2 ea) ≤ 2 ^ 53)%Z as Hma.
    { apply round_half_even_le. rewrite <- pow2_Z by done.
      apply Qle_shift_div_r; [apply pow2_pos|]. rewrite <- pow2_plus.
      eapply Qle_trans; [apply Qlt_le_weak, Ha2|]. apply pow2_le. lia. }
    assert (2 ^ 52 ≤ round_half_even (b / pow2 eb))%Z as Hmb.
    { apply round_half_even_ge. rewrite <- pow2_Z by done.
      apply Qle_shift_div_l; [apply pow2_pos|]. rewrite <- pow2_plus.
      eapply Qle_trans; [|exact Hb1]. apply pow2_le. lia. }
    rewrite Zle_Qle in Hma, Hmb.
    eapply Qle_trans; [apply Qmult_le_compat_r; [exact Hma|apply Qlt_le_weak, pow2_pos]|].
    eapply Qle_trans; [|apply Qmult_le_compat_r; [exact Hmb|apply Qlt_le_weak, pow2_pos]].
    rewrite <- !pow2_Z by done. rewrite <- !pow2_plus. apply pow2_le. lia.
Qed.

Lemma round_pos_mono a b : 0 < a → a <= b → num_le (round_pos a) (round_pos b).
Proof.
  intros Ha Hab. rewrite !round_pos_eq.
  pose proof (rounded_mono a b Ha Hab) as Hv.
  destruct (Qle_bool (pow2 1024) (rounded a)) eqn:Ea,
           (Qle_bool (pow2 1024) (rounded b)) eqn:Eb; cbn; try done.
  - apply Qle_bool_iff in Ea. apply not_true_iff_false in Eb.
    rewrite Qle_bool_iff in Eb. apply Eb. lra.
  - by rewrite !Qred_correct.
Qed.

Lemma round_pos_nonneg a : 0 < a → num_le (Num 0) (round_pos a).
Proof.
  intros Ha. rewrite round_pos_eq.
  destruct (Qle_bool _ _); cbn; [done|]. rewrite Qred_correct. by apply rounded_nonneg.
Qed.

Lemma num_le_refl a : num_le a a.
Proof. destruct a as [|[]|q]; cbn; try done. apply Qle_refl. Qed.

Lemma num_le_trans a b c : num_le a b → num_le b c → num_le a c.
Proof.
  destruct a as [|[]|x], b as [|[]|y], c as [|[]|z]; cbn; try done.
  apply Qle_trans.
Qed.

Lemma num_le_neg a b : num_le a b → num_le (js_neg b) (js_neg a).
Proof.
  destruct a as [|[]|x], b as [|[]|y]; cbn; try done. intros H. lra.
Qed.

(** Rounding keeps the order. *)
Lemma to_number_mono x y : x <= y → num_le (to_number x) (to_number y).
Proof.
  intros Hxy. unfold to_number.
  destruct (Qcompare_spec x 0), (Qcompare_spec y 0); try (exfalso; lra).
  - apply Qle_refl.
  - by apply round_pos_nonneg.
  - apply (num_le_neg (Num 0)). apply round_pos_nonneg. lra.
  - apply num_le_neg. apply round_pos_mono; lra.
  - eapply num_le_trans; [|apply round_pos_nonneg; lra].
    apply (num_le_neg (Num 0)). apply round_pos_nonneg. lra.
  - by apply round_pos_mono.
Qed.

End Rounding.

Section Grid.
Local Open Scope Q_scope.

Lemma on_grid_comp x y : x == y → on_grid x → on_grid y.
Proof. intros H [k Hk]. exists k. by rewrite <- H. Qed.

Lemma on_grid_opp x : on_grid x → on_grid (- x).
Proof.
  intros [k Hk]. exists (- k)%Z. rewrite Hk, inject_Z_opp. ring.
Qed.

Lemma on_grid_plus x y : on_grid x → on_grid y → on_grid (x + y).
Proof.
  intros [k Hk] [l Hl]. exists (k + l)%Z. rewrite Hk, Hl, inject_Z_plus. ring.
Qed.

Lemma on_grid_pos x : on_grid x → 0 < x → pow2 (-1074) <= x.
Proof.
  intros [k Hk] Hx. pose proof (pow2_pos (-1074)) as Hu.
  assert (0 < k)%Z as Hk0.
  { destruct (Z.lt_trichotomy 0 k) as [?|[<-|Hneg]]; [done|exfalso..].
    - rewrite Hk in Hx. change (inject_Z 0) with 0 in Hx. lra.
    - assert (inject_Z k <= -1) as H1.
      { change (-1) with (inject_Z (-1)). rewrite <- Zle_Qle. lia. }
      assert (inject_Z k * pow2 (-1074) <= (-1) * pow2 (-1074)) as H2
        by (apply Qmult_le_compat_r; [done|lra]).
      lra. }
  assert (1 <= inject_Z k) as H1.
  { change 1 with (inject_Z 1). rewrite <- Zle_Qle. lia. }
  assert (1 * pow2 (-1074) <= inject_Z k * pow2 (-1074)) as H2
    by (apply Qmult_le_compat_r; [done|lra]).
  lra.
Qed.

Lemma rounded_on_grid a : on_grid (rounded a).
Proof.
  unfold rounded. cbv zeta. set (e := Z.max _ _). set (m := round_half_even _).
  exists (m * 2 ^ (e + 1074))%Z.
  rewrite inject_Z_mult, <- pow2_Z by lia.
  replace e with ((e + 1074) + -1074)%Z at 1 by lia. rewrite pow2_plus. ring.
Qed.

Lemma round_pos_on_grid a v : round_pos a = Num v → on_grid v.
Proof.
  rewrite round_pos_eq. destruct (Qle_bool _ _); [done|]. intros [= <-].
  eapply on_grid_comp; [symmetry; apply Qred_correct|apply rounded_on_grid].
Qed.

Lemma to_number_on_grid q v : to_number q = Num v → on_grid v.
Proof.
  unfold to_number. destruct (q ?= 0).
  - intros [= <-]. exists 0%Z. ring.
  - destruct (round_pos (- q)) as [|s|w] eqn:E; try done. intros [= <-].
    apply on_grid_opp. by eapply round_pos_on_grid.
  - apply round_pos_on_grid.
Qed.

Lemma rounded_pos a : pow2 (-1074) <= a → 0 < rounded a.
Proof.
  intros Ha. pose proof (pow2_pos (-1074)) as Hu.
  unfold rounded. cbv zeta. set (e := Z.max _ _).
  apply Qmult_lt_0_compat; [|apply pow2_pos].
  change 0 with (inject_Z 0). rewrite <- Zlt_Qlt.
  assert (1 ≤ round_half_even (a / pow2 e))%Z; [|lia].
  apply round_half_even_ge. apply Qle_shift_div_l; [apply pow2_pos|].
  change (inject_Z 1) with 1. rewrite Qmult_1_l.
  destruct (Z.eq_dec e (-1074)%Z) as [->|Hne]; [done|].
  destruct (ilog2_spec a) as [H1 _]; [lra|].
  eapply Qle_trans; [|exact H1]. apply pow2_le. lia.
Qed.

Lemma to_number_0 q : q == 0 → to_number q = Num 0.
Proof.
  intros H. unfold to_number.
  by destruct (Qcompare_spec q 0); [|exfalso; lra..].
Qed.

Lemma to_number_sign q : on_grid q → js_sign (to_number q) = (q ?= 0).
Proof.
  intros Hq. unfold to_number.
  destruct (Qcompare_spec q 0) as [H|H|H]; [done| |].
  - assert (pow2 (-1074) <= - q) as Hq'.
    { apply on_grid_pos; [by apply on_grid_opp|lra]. }
    rewrite round_pos_eq. destruct (Qle_bool _ _); [done|]. unfold js_neg, js_sign.
    rewrite <- Qlt_alt. pose proof (rounded_pos _ Hq'). rewrite Qred_correct. lra.
  - assert (pow2 (-1074) <= q) as Hq' by by apply on_grid_pos.
    rewrite round_pos_eq. destruct (Qle_bool _ _); [done|]. unfold js_sign.
    rewrite <- Qgt_alt. pose proof (rounded_pos _ Hq'). rewrite Qred_correct. lra.
Qed.

(** The sign of a difference of two doubles is the sign of the exact
    difference: no difference of two doubles is rounded to zero. *)
Lemma js_sub_sign x y :
  on_grid x → on_grid y → js_sign (js_sub (Num y) (Num x)) = (y ?= x).
Proof.
  intros Hx Hy. cbn. rewrite to_number_sign by (apply on_grid_plus; [done|by apply on_grid_opp]).
  destruct (Qcompare_spec y x), (Qcompare_spec (y + - x) 0); try done; exfalso; lra.
Qed.

End Grid.

Section Operations.
Local Open Scope Q_scope.

Lemma Qeq_bool_pos c : 0 < c → Qeq_bool c 0 = false.
Proof.
  intros Hc. apply not_true_iff_false. intros H%Qeq_bool_iff. lra.
Qed.

Lemma Qnegative_pos c : 0 < c → Qnegative c = false.
Proof.
  intros Hc. unfold Qnegative. by destruct (Qcompare_spec c 0); [|exfalso; lra|].
Qed.

Lemma to_number_not_NaN q : to_number q ≠ NaN.
Proof.
  unfold to_number. destruct (q ?= 0); [done|..]; rewrite round_pos_eq;
    by destruct (Qle_bool _ _).
Qed.

Ltac to_number_cases :=
  match goal with
  | |- context [to_number ?q] =>
      let H := fresh in
      pose proof (to_number_not_NaN q) as H; by destruct (to_number q) as [|[]|]
  end.

Lemma js_mul_mono c x y :
  0 < c → num_le x y → num_le (js_mul x (Num c)) (js_mul y (Num c)).
Proof.
  intros Hc. destruct x as [|[]|x], y as [|[]|y]; unfold js_mul; cbv beta iota;
    rewrite ?(Qeq_bool_pos c Hc), ?(Qnegative_pos c Hc); cbv beta iota;
    try done; try (intros _; to_number_cases).
  intros H. apply to_number_mono. by apply Qmult_le_compat_r; [|lra].
Qed.

Lemma js_div_mono c x y :
  0 < c → num_le x y → num_le (js_div x (Num c)) (js_div y (Num c)).
Proof.
  intros Hc. destruct x as [|[]|x], y as [|[]|y]; unfold js_div; cbv beta iota;
    rewrite ?(Qeq_bool_pos c Hc), ?(Qnegative_pos c Hc); cbv beta iota;
    try done; try (intros _; to_number_cases).
  intros H. apply to_number_mono. unfold Qdiv.
    apply Qmult_le_compat_r; [done|]. apply Qlt_le_weak, Qinv_lt_0_compat, Hc.
Qed.

(** Sums of values that are not negative. *)
Lemma js_add_mono x x' y y' :
  num_le (Num 0) x → num_le x x' → num_le (Num 0) y → num_le y y' →
  num_le (js_add x y) (js_add x' y').
Proof.
  destruct x as [|[]|x], x' as [|[]|x'], y as [|[]|y], y' as [|[]|y'];
    cbn [js_add num_le Bool.eqb]; try done.
  all: try (intros; to_number_cases).
  intros. apply to_number_mono. lra.
Qed.

Lemma js_add_nonneg x y :
  num_le (Num 0) x → num_le (Num 0) y → num_le (Num 0) (js_add x y).
Proof.
  intros Hx Hy.
  replace (Num 0) with (js_add (Num 0) (Num 0)) at 1 by (apply to_number_0; reflexivity).
  apply js_add_mono; try done; apply Qle_refl.
Qed.

Lemma js_mul_nonneg c x : 0 < c → num_le (Num 0) x → num_le (Num 0) (js_mul x (Num c)).
Proof.
  intros Hc Hx.
  replace (Num 0) with (js_mul (Num 0) (Num c)) at 1 by (apply to_number_0; ring).
  by apply js_mul_mono.
Qed.

Lemma js_div_nonneg c x : 0 < c → num_le (Num 0) x → num_le (Num 0) (js_div x (Num c)).
Proof.
  intros Hc Hx.
  replace (Num 0) with (js_div (Num 0) (Num c)) at 1.
  - by apply js_div_mono.
  - unfold js_div. rewrite (Qeq_bool_pos c Hc). apply to_number_0. unfold Qdiv. ring.
Qed.

Lemma js_sub_anti c x y :
  num_le x y → num_le (js_sub (Num c) y) (js_sub (Num c) x).
Proof.
  destruct x as [|[]|x], y as [|[]|y]; cbn [js_sub js_neg js_add num_le negb]; try done;
    try (intros; to_number_cases).
  intros H. apply to_number_mono. lra.
Qed.

Lemma Math_min_mono c x y :
  num_le x y → num_le (Math_min x (Num c)) (Math_min y (Num c)).
Proof.
  destruct x as [|[]|x], y as [|[]|y]; cbn [Math_min js_le num_le]; try done.
  - intros _. destruct (Qle_bool y c); cbn [num_le]; done.
  - intros _. apply Qle_refl.
  - intros _. destruct (Qle_bool x c) eqn:E; cbn [num_le];
      [by apply Qle_bool_iff|apply Qle_refl].
  - intros H. destruct (Qle_bool x c) eqn:Ex, (Qle_bool y c) eqn:Ey; cbn [num_le]; try done.
    + by apply Qle_bool_iff.
    + apply not_true_iff_false in Ex. rewrite Qle_bool_iff in Ex.
      apply Qle_bool_iff in Ey. lra.
    + apply Qle_refl.
Qed.

Lemma Math_round_mono x y : num_le x y → num_le (Math_round x) (Math_round y).
Proof.
  destruct x as [|[]|x], y as [|[]|y]; cbn [Math_round num_le]; try done.
  intros H. rewrite <- Zle_Qle. apply Qfloor_resp_le. lra.
Qed.

(** A value between two numbers is a number between them. *)
Lemma num_between lo hi x :
  num_le (Num lo) x → num_le x (Num hi) → ∃ q, x = Num q ∧ lo <= q <= hi.
Proof. destruct x as [|[]|q]; cbn; try done. eauto. Qed.

End Operations.

(** ** The video score *)

Section Scoring.
Local Open Scope Q_scope.
#[local] Opaque to_number.

Lemma calculateVideoScore_eq v :
  calculateVideoScore v
  = score_of (Num (qualityScore (quality v))) (speedScore (loadSpeed v))
             (pingScore (pingTime v)).
Proof. reflexivity. Qed.

Lemma js_add_NaN_r x : js_add x NaN = NaN.
Proof. by destruct x as [|[]|]. Qed.

Lemma score_of_NaN_speed q p : score_of q NaN p = NaN.
Proof. unfold score_of. cbn [js_mul]. by rewrite js_add_NaN_r. Qed.

Lemma score_of_NaN_ping q s : score_of q s NaN = NaN.
Proof. unfold score_of. cbn [js_mul]. by rewrite js_add_NaN_r. Qed.

(** The two weights are positive doubles. *)
Lemma weights :
  ∃ w4 w2, to_number 0.4 = Num w4 ∧ to_number 0.2 = Num w2 ∧ 0 < w4 ∧ 0 < w2.
Proof. eexists _, _. split; [by vm_compute|]. split; [by vm_compute|]. done. Qed.

(** The score never decreases when a component score grows. *)
Lemma score_of_mono q q' s s' p p' :
  num_le (Num 0) q → num_le q q' →
  num_le (Num 0) s → num_le s s' →
  num_le (Num 0) p → num_le p p' →
  num_le (score_of q s p) (score_of q' s' p').
Proof.
  intros Hq Hqq Hs Hss Hp Hpp. unfold score_of.
  destruct weights as (w4 & w2 & -> & -> & Hw4 & Hw2). cbv zeta.
  apply js_div_mono; [done|]. apply Math_round_mono. apply js_mul_mono; [done|].
  apply js_add_mono; [|..|by apply js_mul_mono]; [| |by apply js_mul_nonneg].
  - repeat first [apply js_add_nonneg | apply js_mul_nonneg | apply Qle_refl | done].
  - apply js_add_mono; [|..|by apply js_mul_mono]; [| |by apply js_mul_nonneg].
    + repeat first [apply js_add_nonneg | apply js_mul_nonneg | apply Qle_refl | done].
    + apply js_add_mono; [apply Qle_refl..| |by apply js_mul_mono].
      by apply js_mul_nonneg.
Qed.

(** With component scores in their ranges, the score is a number between
    8 and 100. *)
Lemma score_of_range q s p :
  20 <= q <= 100 →
  num_le (Num 0) s → num_le s (Num 100) →
  num_le (Num 0) p → num_le p (Num 100) →
  ∃ r, score_of (Num q) s p = Num r ∧ 8 <= r <= 100.
Proof.
  intros [Hq1 Hq2] Hs1 Hs2 Hp1 Hp2. apply num_between.
  - apply (num_le_trans _ (score_of (Num 20) (Num 0) (Num 0))); [by vm_compute|].
    apply score_of_mono; cbn [num_le]; try done; lra.
  - apply (num_le_trans _ (score_of (Num 100) (Num 100) (Num 100))); [|by vm_compute].
    apply score_of_mono; cbn [num_le]; try done; lra.
Qed.

Lemma qualityScore_range label : 20 <= qualityScore label <= 100.
Proof.
  unfold qualityScore.
  repeat match goal with
    | |- context [String.eqb label ?s] => destruct (String.eqb label s); [lra|]
    end.
  lra.
Qed.

(** The speed score *)

Lemma span_all p s : all_chars p (span p s).1 = true.
Proof.
  induction s as [|c s IH]; [done|]. cbn [span].
  destruct (p c) eqn:Hc; [|done]. destruct (span p s) as [a b]. cbn in *. by rewrite Hc.
Qed.

Lemma digits_fold_nonneg l acc :
  (0 <= acc)%Z → Forall (λ c, is_digit c = true) l →
  (0 <= fold_left (λ acc c, 10 * acc + (Z.of_nat (nat_of_ascii c) - 48))%Z l acc)%Z.
Proof.
  revert acc. induction l as [|c l IH]; intros acc Hacc Hall; [done|].
  apply Forall_cons in Hall as [Hc Hall]. cbn [fold_left]. apply IH; [|done].
  unfold is_digit in Hc. apply andb_true_iff in Hc as [Hlo _]. apply Nat.leb_le in Hlo. lia.
Qed.

Lemma all_chars_Forall p s :
  all_chars p s = true → Forall (λ c, p c = true) (list_ascii_of_string s).
Proof.
  induction s as [|c s IH]; [by constructor|]. cbn. intros [Hc Hs]%andb_true_iff.
  constructor; [done|by apply IH].
Qed.

Lemma digits_value_nonneg s : all_chars is_digit s = true → (0 <= digits_value s)%Z.
Proof. intros Hs. apply digits_fold_nonneg; [done|by apply all_chars_Forall]. Qed.

Lemma to_number_nonneg q : 0 <= q → num_le (Num 0) (to_number q).
Proof.
  intros Hq. rewrite <- (to_number_0 0) by reflexivity. by apply to_number_mono.
Qed.

(** What [parseFloat] reads is [NaN] or not negative. *)
Lemma parseFloat_nonneg s : parseFloat s = NaN ∨ num_le (Num 0) (parseFloat s).
Proof.
  unfold parseFloat.
  pose proof (span_all is_digit s) as Hint.
  destruct (span is_digit s) as [int_part rest]. cbn [fst] in Hint.
  set (frac_part := match rest with
                    | String c rest' => if is_dot c then (span is_digit rest').1 else EmptyString
                    | EmptyString => EmptyString
                    end).
  assert (all_chars is_digit frac_part = true) as Hfrac.
  { subst frac_part. destruct rest as [|c rest']; [done|].
    destruct (is_dot c); [apply span_all|done]. }
  destruct (_ && _); [by left|]. right. apply to_number_nonneg.
  apply digits_value_nonneg in Hint, Hfrac.
  assert (0 < inject_Z (10 ^ Z.of_nat (String.length frac_part))) as Hpow.
  { rewrite <- (Zlt_Qlt 0). apply Z.pow_pos_nonneg; lia. }
  rewrite Zle_Qle in Hint, Hfrac.
  assert (0 <= inject_Z (digits_value frac_part)
               / inject_Z (10 ^ Z.of_nat (String.length frac_part))).
  { apply Qle_shift_div_l; [done|]. by rewrite Qmult_0_l. }
  change (inject_Z 0) with 0 in *. lra.
Qed.

Lemma Math_min_le x c : x ≠ NaN → num_le (Math_min x (Num c)) (Num c).
Proof.
  destruct x as [|[]|x]; cbn [Math_min js_le num_le]; try done.
  - intros _. apply Qle_refl.
  - intros _. destruct (Qle_bool x c) eqn:E; cbn [num_le];
      [by apply Qle_bool_iff|apply Qle_refl].
Qed.

Lemma num_le_not_NaN a x : num_le (Num a) x → x ≠ NaN.
Proof. by destruct x. Qed.

(** The speed score a speed makes. *)
Lemma speedScore_of label k :
  speedKBps_of label = Some k →
  speedScore label = js_mul (Math_min (js_div k (Num 5120)) (Num 1)) (Num 100).
Proof.
  unfold speedKBps_of, speedScore.
  destruct (_ || _); [discriminate|].
  destruct (match_speed label) as [[magnitude unit]|]; [|discriminate].
  destruct (parseFloat magnitude) as [|s|value]; [discriminate|..]; by intros [= <-].
Qed.

Lemma speedKBps_of_nonneg label k : speedKBps_of label = Some k → num_le (Num 0) k.
Proof.
  unfold speedKBps_of.
  destruct (_ || _); [discriminate|].
  destruct (match_speed label) as [[magnitude unit]|]; [|discriminate].
  destruct (parseFloat_nonneg magnitude) as [Hnan|Hpos].
  { by rewrite Hnan. }
  intros Hk.
  assert (k = if String.eqb unit "MB/s" then js_mul (parseFloat magnitude) (Num 1024)
              else parseFloat magnitude) as ->
    by (destruct (parseFloat magnitude); congruence).
  destruct (String.eqb unit "MB/s"); [by apply js_mul_nonneg|done].
Qed.

Lemma speed_ratio_range k :
  num_le (Num 0) k →
  num_le (Num 0) (js_mul (Math_min (js_div k (Num 5120)) (Num 1)) (Num 100))
  ∧ num_le (js_mul (Math_min (js_div k (Num 5120)) (Num 1)) (Num 100)) (Num 100).
Proof.
  intros Hk.
  assert (num_le (Num 0) (js_div k (Num 5120))) as Hr by by apply js_div_nonneg.
  split.
  - apply js_mul_nonneg; [done|].
    change (Num 0) with (Math_min (Num 0) (Num 1)). by apply Math_min_mono.
  - apply (num_le_trans _ (js_mul (Num 1) (Num 100))); [|by vm_compute].
    apply js_mul_mono; [done|]. apply Math_min_le. by eapply num_le_not_NaN.
Qed.

(** The speed score is [NaN], for a label whose magnitude [parseFloat]
    does not read, or lies between 0 and 100. *)
Lemma speedScore_cases label :
  (speedScore label = NaN
   ∧ ∃ magnitude unit, match_speed label = Some (magnitude, unit) ∧ parseFloat magnitude = NaN)
  ∨ (num_le (Num 0) (speedScore label) ∧ num_le (speedScore label) (Num 100)).
Proof.
  destruct (speedKBps_of label) as [k|] eqn:Hk.
  - right. rewrite (speedScore_of _ _ Hk). apply speed_ratio_range.
    by eapply speedKBps_of_nonneg.
  - unfold speedKBps_of in Hk. unfold speedScore.
    destruct (_ || _); [right; cbn [num_le]; lra|].
    destruct (match_speed label) as [[magnitude unit]|]; [|right; cbn [num_le]; lra].
    destruct (parseFloat magnitude) as [|s|value] eqn:Hv; [|done..].
    left. split; [|by eauto]. by destruct (String.eqb unit "MB/s").
Qed.

(** The ping score *)

Lemma ping_span : js_sub (Num 1000) (Num 50) = Num 950.
Proof. by vm_compute. Qed.

(** The linear part of the ping score. *)
Lemma ping_linear_anti p1 p2 :
  num_le p2 p1 →
  num_le (js_mul (js_div (js_sub (Num 1000) p1) (Num 950)) (Num 100))
         (js_mul (js_div (js_sub (Num 1000) p2) (Num 950)) (Num 100)).
Proof.
  intros H. apply js_mul_mono; [done|]. apply js_div_mono; [done|]. by apply js_sub_anti.
Qed.

Lemma ping_linear_range x :
  50 <= x <= 1000 →
  num_le (Num 0) (js_mul (js_div (js_sub (Num 1000) (Num x)) (Num 950)) (Num 100))
  ∧ num_le (js_mul (js_div (js_sub (Num 1000) (Num x)) (Num 950)) (Num 100)) (Num 100).
Proof.
  intros [H1 H2]. split.
  - apply (num_le_trans _ (js_mul (js_div (js_sub (Num 1000) (Num 1000)) (Num 950))
                                     (Num 100))); [by vm_compute|].
    by apply ping_linear_anti.
  - apply (num_le_trans _ (js_mul (js_div (js_sub (Num 1000) (Num 50)) (Num 950))
                                     (Num 100))); [|by vm_compute].
    by apply ping_linear_anti.
Qed.

Lemma Qle_bool_false x y : Qle_bool x y = false ↔ y < x.
Proof.
  rewrite <- not_true_iff_false, Qle_bool_iff. split; [apply Qnot_le_lt|apply Qlt_not_le].
Qed.

(** The ping score of a number, by the place of the ping. *)
Lemma pingScore_Num x :
  pingScore (Num x)
  = if Qle_bool x 0 then Num 0
    else if Qle_bool x 50 then Num 100
    else if Qle_bool 1000 x then Num 0
    else js_mul (js_div (js_sub (Num 1000) (Num x)) (Num 950)) (Num 100).
Proof. unfold pingScore. by rewrite ping_span. Qed.

(** The ping score is [NaN] for the ping [NaN] alone, and lies between 0
    and 100 otherwise. *)
Lemma pingScore_cases ping :
  (ping = NaN ∧ pingScore ping = NaN)
  ∨ (ping ≠ NaN ∧ num_le (Num 0) (pingScore ping) ∧ num_le (pingScore ping) (Num 100)).
Proof.
  destruct ping as [|[]|x]; [by left|right; split; [done|by vm_compute]..|].
  right. split; [done|]. rewrite pingScore_Num.
  destruct (Qle_bool x 0) eqn:E1; [cbn [num_le]; lra|].
  destruct (Qle_bool x 50) eqn:E2; [cbn [num_le]; lra|].
  destruct (Qle_bool 1000 x) eqn:E3; [cbn [num_le]; lra|].
  apply Qle_bool_false in E2, E3. apply ping_linear_range. lra.
Qed.

Lemma pingScore_antitone p1 p2 :
  num_lt (Num 0) p2 → num_le p2 p1 → num_le (pingScore p1) (pingScore p2).
Proof.
  intros [Hpos Hnot] Hle.
  destruct (pingScore_cases p2) as [[-> _]|(_ & Hlo2 & Hhi2)]; [done|].
  destruct (pingScore_cases p1) as [[-> _]|(_ & Hlo1 & Hhi1)]; [by destruct p2 as [|[]|]|].
  destruct p2 as [|[]|x2]; try done.
  { by destruct p1 as [|[]|x1]. }
  destruct p1 as [|[]|x1]; try done.
  cbn [num_le] in Hpos, Hnot, Hle. rewrite !pingScore_Num in *.
  destruct (Qle_bool x1 0) eqn:A1; [apply Qle_bool_iff in A1; exfalso; apply Hnot; lra|].
  destruct (Qle_bool x2 0) eqn:A2; [apply Qle_bool_iff in A2; exfalso; by apply Hnot|].
  destruct (Qle_bool x2 50) eqn:B2; [done|].
  destruct (Qle_bool x1 50) eqn:B1.
  { apply Qle_bool_iff in B1. apply Qle_bool_false in B2. lra. }
  destruct (Qle_bool 1000 x1) eqn:C1; [by destruct (Qle_bool 1000 x2)|].
  destruct (Qle_bool 1000 x2) eqn:C2.
  { apply Qle_bool_iff in C2. apply Qle_bool_false in C1. lra. }
  by apply ping_linear_anti.
Qed.

(** C4, at the input the scorer fails on.  The load-speed label [".MB/s"]
    matches the scorer's pattern with the magnitude ["."], which
    [parseFloat] reads as [NaN]; the speed score, and with it the video
    score, is [NaN], where an unparsable label is to score 30. *)
Lemma calculateVideoScore_bare_dot :
  match_speed ".MB/s" = Some (".", "MB/s")
  ∧ parseFloat "." = NaN
  ∧ speedScore ".MB/s" = NaN
  ∧ calculateVideoScore {| quality := "4K"; loadSpeed := ".MB/s"; pingTime := Num 100 |} = NaN
  ∧ spec_score {| quality := "4K"; loadSpeed := ".MB/s"; pingTime := Num 100 |} == 70.95.
Proof. by vm_compute. Qed.

(** C9. The video score is a function of its input (equal inputs give equal
    scores), and it never decreases when, the other two inputs fixed, the
    quality label moves to one of higher table score, the load speed
    increases, or a positive ping decreases. *)
Theorem calculateVideoScore_monotone :
  (∀ v1 v2, v1 = v2 → calculateVideoScore v1 = calculateVideoScore v2)
  ∧ (∀ quality1 quality2 speed ping,
       qualityScore quality1 <= qualityScore quality2 →
       num_le (calculateVideoScore {| quality := quality1; loadSpeed := speed; pingTime := ping |})
              (calculateVideoScore {| quality := quality2; loadSpeed := speed; pingTime := ping |}))
  ∧ (∀ label speed1 speed2 ping k1 k2,
       speedKBps_of speed1 = Some k1 → speedKBps_of speed2 = Some k2 → num_le k1 k2 →
       num_le (calculateVideoScore {| quality := label; loadSpeed := speed1; pingTime := ping |})
              (calculateVideoScore {| quality := label; loadSpeed := speed2; pingTime := ping |}))
  ∧ (∀ label speed ping1 ping2,
       num_lt (Num 0) ping2 → num_le ping2 ping1 →
       num_le (calculateVideoScore {| quality := label; loadSpeed := speed; pingTime := ping1 |})
              (calculateVideoScore {| quality := label; loadSpeed := speed; pingTime := ping2 |})).
Proof.
  split; [by intros ? ? ->|]. split; [|split].
  - intros q1 q2 speed ping Hq. rewrite !calculateVideoScore_eq. cbn [quality loadSpeed pingTime].
    pose proof (qualityScore_range q1) as [? ?].
    destruct (speedScore_cases speed) as [[-> _]|[? ?]];
      [rewrite !score_of_NaN_speed; done|].
    destruct (pingScore_cases ping) as [[_ ->]|(_ & ? & ?)];
      [rewrite !score_of_NaN_ping; done|].
    apply score_of_mono; cbn [num_le]; try done; try apply num_le_refl. lra.
  - intros label s1 s2 ping k1 k2 H1 H2 Hk. rewrite !calculateVideoScore_eq.
    cbn [quality loadSpeed pingTime].
    pose proof (qualityScore_range label) as [? ?].
    destruct (pingScore_cases ping) as [[_ ->]|(_ & ? & ?)];
      [rewrite !score_of_NaN_ping; done|].
    rewrite (speedScore_of _ _ H1), (speedScore_of _ _ H2).
    apply score_of_mono; cbn [num_le]; try done; try apply num_le_refl; [lra|lra|..].
    + apply speed_ratio_range. by eapply speedKBps_of_nonneg.
    + apply js_mul_mono; [done|]. apply Math_min_mono. by apply js_div_mono.
  - intros label speed p1 p2 Hpos Hle. rewrite !calculateVideoScore_eq.
    cbn [quality loadSpeed pingTime].
    pose proof (qualityScore_range label) as [? ?].
    destruct (speedScore_cases speed) as [[-> _]|[? ?]];
      [rewrite !score_of_NaN_speed; done|].
    pose proof (pingScore_antitone _ _ Hpos Hle) as Hanti.
    destruct (pingScore_cases p1) as [[-> _]|(_ & ? & ?)].
    { destruct Hpos as [Hpos _]. by destruct p2 as [|[]|]. }
    apply score_of_mono; cbn [num_le]; try done; try apply num_le_refl; lra.
Qed.

Lemma calculateVideoScore_monotone_witness :
  num_le (calculateVideoScore
            {| quality := "720p"; loadSpeed := "1.5 MB/s"; pingTime := Num 200 |})
         (calculateVideoScore
            {| quality := "1080p"; loadSpeed := "1.5 MB/s"; pingTime := Num 200 |})
  ∧ num_le (calculateVideoScore
              {| quality := "720p"; loadSpeed := "800 KB/s"; pingTime := Num 200 |})
           (calculateVideoScore
              {| quality := "720p"; loadSpeed := "1.5 MB/s"; pingTime := Num 200 |})
  ∧ num_le (calculateVideoScore
              {| quality := "720p"; loadSpeed := "1.5 MB/s"; pingTime := Num 200 |})
           (calculateVideoScore
              {| quality := "720p"; loadSpeed := "1.5 MB/s"; pingTime := Num 60 |}).
Proof.
  split; [|split].
  - apply (proj1 (proj2 calculateVideoScore_monotone)). by vm_compute.
  - eapply (proj1 (proj2 (proj2 calculateVideoScore_monotone)));
      [vm_compute; reflexivity|vm_compute; reflexivity|by vm_compute].
  - apply (proj2 (proj2 (proj2 calculateVideoScore_monotone))); by vm_compute.
Defined.

End Scoring.

(** ** The failover selector *)

Section Selection.
#[local] Opaque to_number.

Lemma best_cons {A} (cmp : A → A → number) h x l :
  best cmp h (x :: l)
  = best cmp (match js_sign (cmp x h) with Lt => x | _ => h end) l.
Proof. reflexivity. Qed.

Lemma head_fold_insert {A} (cmp : A → A → number) l h rest :
  head (fold_left (λ sorted x, insert_by cmp x sorted) l (h :: rest))
  = Some (best cmp h l).
Proof.
  revert h rest. induction l as [|x l IH]; intros h rest; [done|].
  rewrite best_cons. cbn [fold_left insert_by].
  destruct (js_sign (cmp x h)); apply IH.
Qed.

(** The head of the sorted array is what the scan keeps. *)
Lemma head_Array_sort {A} (cmp : A → A → number) x l :
  head (Array_sort cmp (x :: l)) = Some (best cmp x l).
Proof. unfold Array_sort. cbn [fold_left insert_by]. apply head_fold_insert. Qed.

Lemma best_elem_of {A} (cmp : A → A → number) h l : best cmp h l ∈ h :: l.
Proof.
  revert h. induction l as [|x l IH]; intros h; [by left|].
  rewrite best_cons.
  destruct (js_sign (cmp x h)).
  - pose proof (IH h) as [->|?]%elem_of_cons; [left|by do 2 right].
  - right. apply IH.
  - pose proof (IH h) as [->|?]%elem_of_cons; [left|by do 2 right].
Qed.

Lemma getNextAvailableSource_eq cur idx m :
  getNextAvailableSource cur idx m
  = (match availableSources (store m) cur idx with
     | [] => None
     | x :: l => Some (best compareSources x l)
     end, m).
Proof.
  unfold getNextAvailableSource, mbind, M_bind, get. cbn [fst snd].
  destruct (availableSources (store m) cur idx) as [|x l] eqn:E; [done|].
  cbn [length Nat.eqb]. by rewrite head_Array_sort.
Qed.

Lemma getNextAvailableSource_available cur idx m r :
  (getNextAvailableSource cur idx m).1 = Some r →
  r ∈ availableSources (store m) cur idx.
Proof.
  rewrite getNextAvailableSource_eq. cbn [fst].
  destruct (availableSources (store m) cur idx) as [|x l]; [done|].
  intros [= <-]. apply best_elem_of.
Qed.

Lemma elem_of_availableSources st cur idx r :
  r ∈ availableSources st cur idx
  ↔ r ∈ searchResults st
    ∧ (source r ≠ cur) ∧ (source r ∉ failedSources st) ∧ is_Some (episodes r !! idx).
Proof.
  unfold availableSources. rewrite list_elem_of_filter, lookup_lt_is_Some. tauto.
Qed.

(** C1. Whatever the state of the session and whatever failed source and
    episode index the selector is called with: a candidate it returns is
    one of the result set, its source is not the failed one, its source is
    not in the failed-source set, and its episode list has an entry at the
    index; and it returns nothing exactly when no candidate of the result
    set meets these three conditions. *)
Theorem getNextAvailableSource_viable (m : Machine) (currentSource : string)
    (episodeIndex : nat) :
  match (getNextAvailableSource currentSource episodeIndex m).1 with
  | Some r =>
      r ∈ searchResults (store m)
      ∧ (source r ≠ currentSource)
      ∧ (source r ∉ failedSources (store m))
      ∧ is_Some (episodes r !! episodeIndex)
  | None =>
      ∀ r, r ∈ searchResults (store m) →
        ¬ ((source r ≠ currentSource)
           ∧ (source r ∉ failedSources (store m))
           ∧ is_Some (episodes r !! episodeIndex))
  end.
Proof.
  destruct (getNextAvailableSource currentSource episodeIndex m).1 as [r|] eqn:E.
  - by apply elem_of_availableSources, getNextAvailableSource_available.
  - intros r Hr Hviable.
    assert (r ∈ availableSources (store m) currentSource episodeIndex) as Hin
      by by apply elem_of_availableSources.
    rewrite getNextAvailableSource_eq in E. cbn [fst] in E.
    destruct (availableSources (store m) currentSource episodeIndex); [|done].
    by apply elem_of_nil in Hin.
Qed.

Lemma best_top_ranked {A} (cmp : A → A → number) rank seen h l :
  agrees cmp rank (seen ++ l) →
  top_ranked rank seen h →
  top_ranked rank (seen ++ l) (best cmp h l).
Proof.
  revert seen h. induction l as [|x l IH]; intros seen h Hag Htop.
  { by rewrite app_nil_r. }
  rewrite best_cons.
  replace (seen ++ x :: l) with ((seen ++ [x]) ++ l) in * by by rewrite <- app_assoc.
  apply IH; [done|].
  destruct Htop as (earlier & later & -> & Hearlier & Hlater).
  rewrite (Hag x h) by set_solver.
  destruct (rank h ?= rank x)%Q eqn:Hc.
  - apply Qeq_alt in Hc. exists earlier, (later ++ [x]). split; [by rewrite <- app_assoc|].
    split; [done|]. intros c [?| ->%list_elem_of_singleton]%elem_of_app; [by apply Hlater|].
    rewrite Hc. apply Qle_refl.
  - apply Qlt_alt in Hc. exists (earlier ++ h :: later), []. split; [done|].
    split; [|by intros c ?%elem_of_nil].
    intros c [?|[ -> |?]%elem_of_cons]%elem_of_app; [|done|].
    + eapply Qlt_trans; [by apply Hearlier|done].
    + eapply Qle_lt_trans; [by apply Hlater|done].
  - apply Qgt_alt in Hc. exists earlier, (later ++ [x]). split; [by rewrite <- app_assoc|].
    split; [done|]. intros c [?| ->%list_elem_of_singleton]%elem_of_app; [by apply Hlater|].
    by apply Qlt_le_weak.
Qed.

Lemma best_top_ranked_all {A} (cmp : A → A → number) rank x l :
  agrees cmp rank (x :: l) → top_ranked rank (x :: l) (best cmp x l).
Proof.
  intros Hag. apply (best_top_ranked cmp rank [x] x l Hag).
  exists [], []. split; [done|]. split; by intros c ?%elem_of_nil.
Qed.

Lemma calculateVideoScore_on_grid v s : calculateVideoScore v = Num s → on_grid s.
Proof.
  unfold calculateVideoScore. cbv zeta.
  destruct (Math_round _) as [|[]|x]; try done. unfold js_div.
  change (Qeq_bool 100 0) with false. cbv iota. apply to_number_on_grid.
Qed.

(** Two measured candidates compare by descending score. *)
Lemma compareSources_scores a b sa sb :
  videoScore a = Some sa → videoScore b = Some sb →
  js_sign (compareSources a b) = (sb ?= sa)%Q.
Proof.
  unfold videoScore, compareSources.
  destruct (videoInfo a) as [ia|]; [|done].
  destruct (videoInfo b) as [ib|]; [|by destruct (calculateVideoScore ia) as [|[]|]].
  destruct (calculateVideoScore ia) as [|[]|xa] eqn:Ha; try done.
  destruct (calculateVideoScore ib) as [|[]|xb] eqn:Hb; try done.
  intros [= ->] [= ->]. cbv zeta.
  apply js_sub_sign; by eapply calculateVideoScore_on_grid.
Qed.

(** Two measured candidates of which one has no numeric score compare
    equal: the comparator's result is [NaN]. *)
Lemma compareSources_NaN a b ia ib :
  videoInfo a = Some ia → videoInfo b = Some ib →
  calculateVideoScore ia = NaN ∨ calculateVideoScore ib = NaN →
  compareSources a b = NaN.
Proof.
  intros Ha Hb H. unfold compareSources. rewrite Ha, Hb. cbv zeta.
  destruct H as [-> | ->]; [|done].
  unfold js_sub. by destruct (calculateVideoScore ib) as [|[]|].
Qed.

Lemma compareSources_refl a : js_sign (compareSources a a) = Eq.
Proof.
  unfold compareSources. destruct (videoInfo a) as [ia|].
  - cbv zeta. destruct (calculateVideoScore ia) as [|[]|s] eqn:Hs; [done..|].
    rewrite js_sub_sign by by eapply calculateVideoScore_on_grid.
    rewrite <- Qeq_alt. reflexivity.
  - cbn. rewrite Z.sub_diag. reflexivity.
Qed.

(** A pair of which one carries no measurement compares by descending
    resolution priority. *)
Lemma compareSources_priorities a b :
  ¬ (is_Some (videoInfo a) ∧ is_Some (videoInfo b)) →
  js_sign (compareSources a b)
  = (inject_Z (priority_of b) ?= inject_Z (priority_of a))%Q.
Proof.
  intros Hnot. unfold compareSources, priority_of.
  assert (∀ x y : Z, (inject_Z (x - y) ?= 0)%Q = (inject_Z x ?= inject_Z y)%Q) as Hz.
  { intros x y. unfold Qcompare. cbn. rewrite !Z.mul_1_r. symmetry. apply Z.compare_sub. }
  destruct (videoInfo a) as [ia|], (videoInfo b) as [ib|]; cbn [js_sign]; try apply Hz.
  exfalso. apply Hnot. split; eauto.
Qed.

(** The priority table: a label that mentions 1080 ranks 4, else one that
    mentions 720 ranks 3, then 480 ranks 2, then 360 ranks 1, and any other
    label is unranked (0). *)
Lemma resolutionPriority_table res :
  resolutionPriority res
  = if includes res "1080" then 4%Z
    else if includes res "720" then 3%Z
    else if includes res "480" then 2%Z
    else if includes res "360" then 1%Z
    else 0%Z.
Proof. reflexivity. Qed.

(** Where the comparator orders by a rank, every arrangement the language
    allows [sort] to make starts with the top-ranked element. *)
Lemma sorted_by_head {A} (cmp : A → A → number) rank (l sorted : list A) r :
  agrees cmp rank l → top_ranked rank l r → sorted_by cmp l sorted →
  head sorted = Some r.
Proof.
  intros Hag (earlier & later & -> & Hearlier & Hlater) (order & Hperm & Hall & Hsorted).
  set (l := earlier ++ r :: later) in *.
  assert (l !! length earlier = Some r) as Hr by (subst l; apply list_lookup_middle; done).
  assert (length earlier ∈ order) as Hin.
  { rewrite Hperm. apply elem_of_seq. apply lookup_lt_Some in Hr. lia. }
  apply list_elem_of_lookup in Hin as [j Hj].
  destruct (Forall2_lookup_l _ _ _ _ _ Hall Hj) as (b & Hb & Hlb).
  assert (b = r) as -> by congruence.
  destruct j as [|j]; [by rewrite <- head_lookup in Hb|]. exfalso.
  destruct order as [|p0 order']; [done|].
  destruct (Forall2_lookup_l _ _ _ _ _ Hall (eq_refl : (p0 :: order') !! 0%nat = Some p0))
    as (a0 & Ha0 & Hla0).
  destruct (Hsorted 0%nat (S j) p0 (length earlier) a0 r ltac:(lia) eq_refl Hj Ha0 Hb)
    as [Hle Hstable].
  assert (a0 ∈ l) as Ha0l by by eapply list_elem_of_lookup_2.
  assert (r ∈ l) as Hrl by by eapply list_elem_of_lookup_2.
  rewrite (Hag a0 r Ha0l Hrl) in Hle, Hstable.
  assert (p0 ≠ length earlier) as Hne.
  { assert (NoDup (p0 :: order')) as Hnd by (rewrite Hperm; apply NoDup_seq).
    intros ->. apply NoDup_cons in Hnd as [Hnotin _]. apply Hnotin.
    by eapply list_elem_of_lookup_2. }
  destruct (Nat.lt_trichotomy p0 (length earlier)) as [Hlt|[?|Hgt]]; [|done|].
  - assert (a0 ∈ earlier) as Hearly.
    { subst l. rewrite lookup_app_l in Hla0 by done. by eapply list_elem_of_lookup_2. }
    apply Hearlier in Hearly. apply Hle. by apply Qgt_alt.
  - assert (a0 ∈ later) as Hlate.
    { subst l. rewrite lookup_app_r in Hla0 by lia.
      destruct (p0 - length earlier)%nat as [|k] eqn:Hk; [lia|].
      by eapply list_elem_of_lookup_2. }
    apply Hlater in Hlate.
    destruct (Qcompare_spec (rank r) (rank a0)) as [Heq|Hlt|Hgt']; [|lra|done].
    specialize (Hstable eq_refl). lia.
Qed.

(** C5, as amended. The selector's comparator puts two candidates that
    both carry a quality measurement in descending order of video score
    when both scores are numbers, and treats them as equal when one score
    is [NaN]; a pair of which one carries no measurement it puts in
    descending order of resolution-label priority (1080 > 720 > 480 > 360 >
    unranked).  When every viable alternative carries a measurement with a
    numeric score, the selector returns the one with the highest video
    score, the earliest in arrival order among those of that score.  When
    no two different viable alternatives carry a measurement, it returns
    the one with the highest resolution-label priority, again the earliest
    among equals.  In both cases every arrangement the language allows
    [sort] to make of the viable alternatives starts with that candidate.
    In the scenario (playback on B fails at episode index 4; A has five
    episodes and score 80, C three episodes and score 90) it returns A. *)
Theorem getNextAvailableSource_top_ranked :
  (∀ a b sa sb,
     videoScore a = Some sa → videoScore b = Some sb →
     js_sign (compareSources a b) = (sb ?= sa)%Q)
  ∧ (∀ a b ia ib,
       videoInfo a = Some ia → videoInfo b = Some ib →
       calculateVideoScore ia = NaN ∨ calculateVideoScore ib = NaN →
       compareSources a b = NaN ∧ js_sign (compareSources a b) = Eq)
  ∧ (∀ a b,
       ¬ (is_Some (videoInfo a) ∧ is_Some (videoInfo b)) →
       js_sign (compareSources a b) = (priority_of b ?= priority_of a)%Z)
  ∧ (∀ m currentSource episodeIndex r,
       (getNextAvailableSource currentSource episodeIndex m).1 = Some r →
       (∀ c, c ∈ availableSources (store m) currentSource episodeIndex →
             is_Some (videoScore c)) →
       top_ranked (λ c, default 0%Q (videoScore c))
                  (availableSources (store m) currentSource episodeIndex) r
       ∧ ∀ sorted,
           sorted_by compareSources
                     (availableSources (store m) currentSource episodeIndex) sorted →
           head sorted = Some r)
  ∧ (∀ m currentSource episodeIndex r,
       (getNextAvailableSource currentSource episodeIndex m).1 = Some r →
       (∀ a b, a ∈ availableSources (store m) currentSource episodeIndex →
               b ∈ availableSources (store m) currentSource episodeIndex →
               is_Some (videoInfo a) → is_Some (videoInfo b) → a = b) →
       top_ranked (λ c, inject_Z (priority_of c))
                  (availableSources (store m) currentSource episodeIndex) r
       ∧ ∀ sorted,
           sorted_by compareSources
                     (availableSources (store m) currentSource episodeIndex) sorted →
           head sorted = Some r)
  ∧ (has_score scenario_A 80 ∧ has_score scenario_C 90
     ∧ (getNextAvailableSource "B" 4 scenario_machine).1 = Some scenario_A).
Proof.
  split; [apply compareSources_scores|].
  split.
  { intros a b ia ib Ha Hb H. rewrite (compareSources_NaN a b ia ib Ha Hb H). done. }
  split.
  { intros a b Hn. rewrite (compareSources_priorities a b Hn).
    unfold Qcompare. cbn. by rewrite !Z.mul_1_r. }
  split; [|split; [|by vm_compute]];
    intros m cur idx r; rewrite getNextAvailableSource_eq; cbn [fst];
    (destruct (availableSources (store m) cur idx) as [|x l]; [done|]);
    intros [= <-] H.
  - assert (agrees compareSources (λ c, default 0%Q (videoScore c)) (x :: l)) as Hag.
    { intros a b Ha Hb. destruct (H a Ha) as [sa Hsa], (H b Hb) as [sb Hsb].
      rewrite Hsa, Hsb. cbn. by apply compareSources_scores. }
    split; [by apply best_top_ranked_all|].
    intros sorted. apply sorted_by_head with (rank := λ c, default 0%Q (videoScore c));
      [done|by apply best_top_ranked_all].
  - assert (agrees compareSources (λ c, inject_Z (priority_of c)) (x :: l)) as Hag.
    { intros a b Ha Hb.
      destruct (decide (is_Some (videoInfo a) ∧ is_Some (videoInfo b))) as [[? ?]|Hn].
      + rewrite (H a b) by done. rewrite compareSources_refl.
        symmetry. rewrite <- Qeq_alt. reflexivity.
      + by apply compareSources_priorities. }
    split; [by apply best_top_ranked_all|].
    intros sorted. apply sorted_by_head with (rank := λ c, inject_Z (priority_of c));
      [done|by apply best_top_ranked_all].
Qed.

Lemma getNextAvailableSource_top_ranked_witness :
  availableSources (store ranked_machine) "Z" 2 = [ranked_A; ranked_B; ranked_C]
  ∧ Num <$> videoScore ranked_A = Some (to_number 40.92)
  ∧ Num <$> videoScore ranked_B = Some (to_number 40.93)
  ∧ Num <$> videoScore ranked_C = Some (to_number 40.93)
  ∧ (getNextAvailableSource "Z" 2 ranked_machine).1 = Some ranked_B
  ∧ top_ranked (λ c, default 0%Q (videoScore c))
               (availableSources (store ranked_machine) "Z" 2) ranked_B.
Proof.
  do 5 (split; [by vm_compute|]).
  apply (proj1 (proj2 (proj2 (proj2 getNextAvailableSource_top_ranked)))
           ranked_machine "Z" 2 ranked_B).
  - by vm_compute.
  - intros c Hc.
    change (availableSources (store ranked_machine) "Z" 2)
      with [ranked_A; ranked_B; ranked_C] in Hc.
    apply elem_of_cons in Hc as [->|Hc]; [eexists; by vm_compute|].
    apply elem_of_cons in Hc as [->|Hc]; [eexists; by vm_compute|].
    apply list_elem_of_singleton in Hc as ->. eexists; by vm_compute.
Defined.

(** C5 as stated fails where measured and unmeasured candidates mix.  With
    A (measured, score 100, label 4K), B (unmeasured, label 720p) and C
    (measured, score 30, label 1080p) all viable, the pairwise rule puts A
    before C (scores), C before B and B before A (priorities): whichever
    candidate the selector returns, another viable one ranks before it, so
    none is top-ranked. *)
Lemma mixed_candidates_have_no_top :
  availableSources (store cycle_machine) "Z" 0 = [cycle_A; cycle_B; cycle_C]
  ∧ has_score cycle_A 100
  ∧ has_score cycle_C 30
  ∧ js_sign (compareSources cycle_A cycle_C) = Lt
  ∧ js_sign (compareSources cycle_C cycle_B) = Lt
  ∧ js_sign (compareSources cycle_B cycle_A) = Lt
  ∧ ∀ r, r ∈ availableSources (store cycle_machine) "Z" 0 →
      ∃ c, c ∈ availableSources (store cycle_machine) "Z" 0
           ∧ js_sign (compareSources c r) = Lt.
Proof.
  split; [by vm_compute|]. do 5 (split; [by vm_compute|]).
  intros r Hr.
  change (availableSources (store cycle_machine) "Z" 0)
    with [cycle_A; cycle_B; cycle_C] in *.
  apply elem_of_cons in Hr as [->|Hr]; [exists cycle_B; split; [set_solver|by vm_compute]|].
  apply elem_of_cons in Hr as [->|Hr]; [exists cycle_C; split; [set_solver|by vm_compute]|].
  apply list_elem_of_singleton in Hr as ->. exists cycle_A. split; [set_solver|by vm_compute].
Qed.

End Selection.

(** ** Invariants of the asynchronous actions *)

Lemma preserves_ret {A} (I : Machine → Prop) (a : A) : preserves I (mret a).
Proof. by intros m. Qed.

Lemma preserves_bind_val {A B} (I : Machine → Prop) (V : A → Prop) (c : M A) (f : A → M B) :
  (∀ m, I m → I (c m).2 ∧ V (c m).1) →
  (∀ a, V a → preserves I (f a)) →
  preserves I (c ≫= f).
Proof.
  intros Hc Hf m Hm. unfold mbind, M_bind.
  destruct (Hc m Hm) as [H2 H1]. by apply Hf.
Qed.

Lemma preserves_bind {A B} (I : Machine → Prop) (c : M A) (f : A → M B) :
  preserves I c → (∀ a, preserves I (f a)) → preserves I (c ≫= f).
Proof.
  intros Hc Hf. apply (preserves_bind_val I (λ _, True)); [|auto].
  intros m Hm. split; [by apply Hc|done].
Qed.

Ltac preserves_step :=
  lazymatch goal with
  | |- preserves _ (mbind _ _) => apply preserves_bind; [|intros ?]
  | |- preserves _ (mret _) => apply preserves_ret
  | |- preserves _ (match ?x with _ => _ end) => destruct x
  end.

Create HintDb preserves discriminated.

Section Invariant.
Variable env : Environment.
Variable query : string.
Variable J : DetailState → list (nat * DetailState) → Prop.

Hypothesis good_loading : ∀ b, good J (with_loading b).
Hypothesis good_error : ∀ e, good J (with_error e).
Hypothesis good_error_loading : ∀ e b, good J (with_error e ∘ with_loading b).
Hypothesis good_isFavorited : ∀ b, good J (with_isFavorited b).
Hypothesis good_done : good J (with_loading false ∘ with_allSourcesLoaded true).
Hypothesis good_merge : ∀ results merge,
  Forall (λ r, title r = query) results →
  good J (merge_results (attach_resolution env <$> results) merge).

Lemma preserves_get : preserves (lift_inv J) get.
Proof. by intros m. Qed.

Lemma preserves_set f : good J f → preserves (lift_inv J) (set f).
Proof. intros Hf m Hm. by apply Hf. Qed.

Lemma preserves_new_AbortController : preserves (lift_inv J) new_AbortController.
Proof. by intros m. Qed.

Lemma preserves_controller_abort c : preserves (lift_inv J) (controller_abort c).
Proof. by intros m. Qed.

Lemma preserves_signal_aborted c : preserves (lift_inv J) (signal_aborted c).
Proof. by intros m. Qed.

Lemma preserves_issue c : preserves (lift_inv J) (issue c).
Proof. by intros m. Qed.

Lemma preserves_issue_all cs : preserves (lift_inv J) (issue_all cs).
Proof. by intros m. Qed.

Lemma preserves_abort : preserves (lift_inv J) abort.
Proof. intros m Hm. unfold abort, mbind, M_bind, get. cbn. by destruct (controller (store m)). Qed.

Lemma preserves_suspend : preserves (lift_inv J) (suspend env).
Proof.
  intros m Hm. unfold suspend. case_decide; [|done].
  by apply preserves_abort.
Qed.

#[local] Hint Resolve preserves_get preserves_set preserves_new_AbortController
  preserves_controller_abort preserves_signal_aborted preserves_issue
  preserves_issue_all preserves_abort preserves_suspend : preserves.

Lemma preserves_fetch {A} (response : Outcome A) signal :
  preserves (lift_inv J) (_fetch env response signal).
Proof using Type.
  unfold _fetch. repeat preserves_step; eauto with preserves.
Qed.

Lemma searchVideo_settle_titles k c m results :
  (searchVideo_settle env query k c m).1 = Resolved results →
  Forall (λ r, title r = query) results.
Proof.
  unfold searchVideo_settle, mbind, M_bind, mret, M_ret. cbn [fst snd].
  destruct (_fetch _ _ _ _).1; [|done].
  intros [= <-]. apply Forall_forall. by intros r [? _]%list_elem_of_filter.
Qed.

Lemma preserves_searchVideo_settle k c m :
  lift_inv J m →
  lift_inv J (searchVideo_settle env query k c m).2
  ∧ titled query (searchVideo_settle env query k c m).1.
Proof using Type.
  intros Hm. split.
  - revert m Hm. change (preserves (lift_inv J) (searchVideo_settle env query k c)).
    unfold searchVideo_settle. preserves_step; [apply preserves_fetch|preserves_step].
  - unfold titled. destruct (searchVideo_settle _ _ _ _ _).1 eqn:E; [|done].
    by eapply searchVideo_settle_titles.
Qed.

Lemma preserves_api_searchVideo k c m :
  lift_inv J m →
  lift_inv J (api_searchVideo env query k c m).2
  ∧ titled query (api_searchVideo env query k c m).1.
Proof using Type.
  intros Hm. unfold api_searchVideo, mbind at 1, M_bind at 1.
  by apply preserves_searchVideo_settle.
Qed.

Lemma preserves_api_searchVideos : preserves (lift_inv J) (api_searchVideos env query).
Proof using Type.
  unfold api_searchVideos. preserves_step; [eauto with preserves|apply preserves_fetch].
Qed.

Lemma preserves_api_getResources c : preserves (lift_inv J) (api_getResources env c).
Proof using Type.
  unfold api_getResources. preserves_step; [eauto with preserves|apply preserves_fetch].
Qed.

Lemma preserves_processAndSetResults c results merge :
  Forall (λ r, title r = query) results →
  preserves (lift_inv J) (processAndSetResults env c results merge).
Proof using good_merge.
  intros Hres. unfold processAndSetResults.
  repeat preserves_step; eauto with preserves.
Qed.

Lemma filter_titled (results : list SearchResult) :
  Forall (λ r, title r = query) (filter (λ item, title item = query) results).
Proof. apply Forall_forall. by intros r [? _]%list_elem_of_filter. Qed.

#[local] Hint Resolve preserves_api_searchVideos preserves_api_getResources
  preserves_processAndSetResults filter_titled : preserves.

Lemma preserves_preferred_protocol p c :
  preserves (lift_inv J) (preferred_protocol env query p c).
Proof using All.
  unfold preferred_protocol.
  apply (preserves_bind_val _ (titled query)); [apply preserves_api_searchVideo|].
  intros response Htitled.
  assert (Forall (λ r, title r = query)
            (match response with Resolved results => results | Rejected _ => [] end)) as Hpref.
  { by destruct response. }
  repeat preserves_step; eauto with preserves.
Qed.

Lemma preserves_fan_in c settling first total :
  preserves (lift_inv J) (fan_in env query c settling first total).
Proof using All.
  revert first total. induction settling as [|resource rest IH]; intros first total.
  { apply preserves_ret. }
  cbn [fan_in].
  apply (preserves_bind_val _ (titled query)); [apply preserves_searchVideo_settle|].
  intros response Htitled.
  destruct response as [results|]; [|apply IH].
  cbn in Htitled.
  repeat preserves_step; eauto with preserves.
Qed.

Lemma preserves_standard_protocol c :
  preserves (lift_inv J) (standard_protocol env query c).
Proof using All.
  unfold standard_protocol.
  repeat preserves_step; eauto using preserves_fan_in with preserves.
Qed.

Lemma preserves_final_checks : preserves (lift_inv J) (final_checks env query).
Proof using All.
  unfold final_checks. repeat preserves_step; eauto with preserves.
Qed.

Lemma preserves_init_after_reset p i c :
  preserves (lift_inv J) (init_after_reset env query p i c).
Proof using All.
  unfold init_after_reset.
  repeat preserves_step;
    eauto using preserves_preferred_protocol, preserves_standard_protocol,
      preserves_final_checks with preserves.
Qed.

Lemma preserves_setDetail d : good J (with_detail (Some d)) → preserves (lift_inv J) (setDetail env d).
Proof using good_isFavorited.
  intros Hd. unfold setDetail. repeat preserves_step; eauto with preserves.
Qed.

Lemma preserves_toggleFavorite : preserves (lift_inv J) (toggleFavorite env).
Proof using good_isFavorited.
  unfold toggleFavorite. repeat preserves_step; eauto with preserves.
Qed.

End Invariant.

Lemma init_eq env query p i m :
  init env query p i m
  = init_after_reset env query p i
      (length (heap (match controller (store m) with
                     | Some old => controller_abort old
                     | None => mret tt
                     end m).2))
      (set (reset query
              (length (heap (match controller (store m) with
                             | Some old => controller_abort old
                             | None => mret tt
                             end m).2)))
           (new_AbortController
              (match controller (store m) with
               | Some old => controller_abort old
               | None => mret tt
               end m).2).2).2.
Proof. reflexivity. Qed.


(** ** Aggregation *)

Section Aggregation.

Lemma source_attach_resolution env r : source (attach_resolution env r) = source r.
Proof. unfold attach_resolution. by destruct (videoInfo r). Qed.

Lemma title_attach_resolution env r : title (attach_resolution env r) = title r.
Proof. unfold attach_resolution. by destruct (videoInfo r). Qed.

Lemma suspend_store env m : store (suspend env m).2 = store m.
Proof.
  unfold suspend. case_decide; [|done].
  unfold abort, mbind, M_bind, get. cbn. by destruct (controller (store m)).
Qed.

Lemma suspend_keeps_aborted env signal m :
  heap m !! signal = Some true → heap (suspend env m).2 !! signal = Some true.
Proof.
  intros Hab. unfold suspend. case_decide; [|done].
  unfold abort, mbind, M_bind, get. cbn.
  destruct (controller (store m)) as [c|]; [|done]. cbn.
  destruct (decide (c = signal)) as [->|Hne].
  - apply list_lookup_insert_eq. by eapply lookup_lt_Some.
  - by rewrite list_lookup_insert_ne.
Qed.

(** C2, at a batch the merge gets wrong.  The merge drops an incoming
    candidate whose sourceKey the result set already has (a second result
    of provider A, merged into a result set that holds A, is not added),
    but it never compares the candidates of a batch with each other: two
    results of provider A merged in append mode into an empty result set
    both stay, and a whole search over the one provider A ends with both.
    A lookup by sourceKey then reaches the first of the two only. *)
Lemma append_keeps_twins :
  source <$> searchResults
    (store (processAndSetResults twin_env 0 [raw "A" 2 "X"] true
              (with_store (with_searchResults [raw "A" 1 "X"] initial_state)
                 (new_AbortController initial_machine).2)).2)
  = ["A"]
  ∧ source <$> searchResults
      (store (processAndSetResults twin_env 0 [raw "A" 1 "X"; raw "A" 2 "X"] true
                (new_AbortController initial_machine).2).2)
    = ["A"; "A"]
  ∧ result_id <$> searchResults (store (init twin_env "X" None None initial_machine).2)
    = [1%Z; 2%Z]
  ∧ source <$> searchResults (store (init twin_env "X" None None initial_machine).2)
    = ["A"; "A"]
  ∧ result_id <$> List.find (λ r, String.eqb (source r) "A")
                     (searchResults (store (init twin_env "X" None None initial_machine).2))
    = Some 1%Z.
Proof. by vm_compute. Qed.

(** X2. Once the session's signal is aborted, [processAndSetResults] leaves
    the store as it is, in either merge mode. *)
Theorem processAndSetResults_discards_when_aborted (env : Environment) (signal : nat)
    (results : list SearchResult) (merge : bool) (m : Machine) :
  heap m !! signal = Some true →
  store (processAndSetResults env signal results merge m).2 = store m.
Proof.
  intros Hab. unfold processAndSetResults, mbind, M_bind.
  cbn [fst snd issue_all signal_aborted].
  set (m0 := {| store := store m; heap := heap m; clock := clock m;
                calls := _; published := published m |}).
  rewrite (suspend_keeps_aborted env signal m0 Hab). cbn.
  apply (suspend_store env m0).
Qed.

Lemma processAndSetResults_discards_witness :
  store (processAndSetResults twin_env 0 [raw "A" 1 "X"] false
           (controller_abort 0 (new_AbortController initial_machine).2).2).2
  = initial_state.
Proof.
  apply (processAndSetResults_discards_when_aborted twin_env 0 [raw "A" 1 "X"] false
           (controller_abort 0 (new_AbortController initial_machine).2).2).
  reflexivity.
Defined.

End Aggregation.

(** ** Sessions *)

Section Sessions.

Lemma init_failedSources env query p i m :
  failedSources (store (init env query p i m).2) = failedSources (store m).
Proof.
  rewrite init_eq.
  apply (preserves_init_after_reset env query
           (λ st _, failedSources st = failedSources (store m)));
    try by repeat intro.
  unfold lift_inv. cbn. by destruct (controller (store m)).
Qed.

Lemma perform_failedSources env a m :
  failedSources (store m) ⊆ failedSources (store (perform env a m).2).
Proof.
  destruct a as [query p i|d| | |src reason|cur idx]; cbn [perform].
  - by rewrite init_failedSources.
  - enough (failedSources (store (setDetail env d m).2) = failedSources (store m)) as -> by done.
    apply (preserves_setDetail env (λ st _, failedSources st = failedSources (store m)));
      by repeat intro.
  - enough (failedSources (store (abort m).2) = failedSources (store m)) as -> by done.
    apply (preserves_abort (λ st _, failedSources st = failedSources (store m))).
    by repeat intro.
  - enough (failedSources (store (toggleFavorite env m).2) = failedSources (store m)) as -> by done.
    apply (preserves_toggleFavorite env (λ st _, failedSources st = failedSources (store m)));
      by repeat intro.
  - cbn. set_solver.
  - unfold mbind, M_bind. rewrite getNextAvailableSource_eq. done.
Qed.

(** C6, as amended. The failed-source set is empty in the state the store
    starts from; no action of the store, [init] included, ever takes a
    sourceKey out of it, over any run of actions; and [init] does not empty
    it: the session it starts inherits the set as the previous one left it. *)
Theorem failedSources_only_grows :
  failedSources initial_state = ∅
  ∧ (∀ env actions m,
       failedSources (store m) ⊆ failedSources (store (perform_all env actions m)))
  ∧ (∀ env query preferredSource id m,
       failedSources (store (init env query preferredSource id m).2)
       = failedSources (store m)).
Proof.
  split; [done|]. split; [|apply init_failedSources].
  intros env actions. induction actions as [|a actions IH]; intros m; [done|].
  cbn [perform_all fold_left]. etrans; [apply (perform_failedSources env a)|apply IH].
Qed.

(** C6 as stated fails on a session that follows a failure: after source A
    is marked as failed, the next [init] starts with A still in the set. *)
Lemma init_inherits_failedSources :
  failedSources
    (store (perform_all quiet_env
              [MarkSourceAsFailed "A" "playback error"; Init "X" None None]
              initial_machine))
  = {[ "A" ]}.
Proof. by vm_compute. Qed.

(** C7, as amended. [markSourceAsFailed] records the sourceKey it is given:
    after the call the failed-source set contains it.  The selector
    [getNextAvailableSource] records nothing: it leaves the store, the
    failed-source set included, as it found it.  A caller that marks the
    failed source and then asks the selector gets a candidate outside the
    set that now holds the failed source. *)
Theorem markSourceAsFailed_records :
  (∀ source reason m,
     source ∈ failedSources (store (markSourceAsFailed source reason m).2))
  ∧ (∀ currentSource episodeIndex m,
       (getNextAvailableSource currentSource episodeIndex m).2 = m)
  ∧ (∀ currentSource reason episodeIndex m r,
       (getNextAvailableSource currentSource episodeIndex
          (markSourceAsFailed currentSource reason m).2).1 = Some r →
       source r ∉ failedSources (store (markSourceAsFailed currentSource reason m).2)).
Proof.
  split; [|split].
  - intros src reason m. cbn. set_solver.
  - intros cur idx m. by rewrite getNextAvailableSource_eq.
  - intros cur reason idx m r Hr%getNextAvailableSource_available.
    by apply elem_of_availableSources in Hr as (_ & _ & Hr & _).
Qed.

Lemma markSourceAsFailed_records_witness :
  (getNextAvailableSource "B" 4 (markSourceAsFailed "B" "playback error" scenario_machine).2).1
  = Some scenario_A
  ∧ source scenario_A
    ∉ failedSources (store (markSourceAsFailed "B" "playback error" scenario_machine).2).
Proof.
  split; [by vm_compute|].
  apply (proj2 (proj2 markSourceAsFailed_records) "B" "playback error" 4 scenario_machine).
  by vm_compute.
Defined.

(** C7 as stated fails on the selector: called for the failed source B on
    a session whose failed-source set is empty, it returns A and leaves the
    set empty, so B is not in it after the call. *)
Lemma getNextAvailableSource_records_nothing :
  (getNextAvailableSource "B" 4 scenario_machine).1 = Some scenario_A
  ∧ failedSources (store (getNextAvailableSource "B" 4 scenario_machine).2) = ∅.
Proof. by vm_compute. Qed.

(** X4. Marking the same source as failed a second time changes neither
    the failed-source set nor what the selector returns afterwards. *)
Theorem markSourceAsFailed_idempotent :
  ∀ source reason1 reason2 m,
    failedSources (store (markSourceAsFailed source reason2
                            (markSourceAsFailed source reason1 m).2).2)
    = failedSources (store (markSourceAsFailed source reason1 m).2)
    ∧ ∀ currentSource episodeIndex,
        (getNextAvailableSource currentSource episodeIndex
           (markSourceAsFailed source reason2 (markSourceAsFailed source reason1 m).2).2).1
        = (getNextAvailableSource currentSource episodeIndex
             (markSourceAsFailed source reason1 m).2).1.
Proof.
  intros src r1 r2 m.
  assert (failedSources (store (markSourceAsFailed src r2 (markSourceAsFailed src r1 m).2).2)
          = failedSources (store (markSourceAsFailed src r1 m).2)) as Hsame.
  { unfold markSourceAsFailed, mbind, M_bind, get, set. cbn.
    by rewrite <- (assoc_L (∪)), (idemp_L (∪)). }
  split; [done|]. intros cur idx. rewrite !getNextAvailableSource_eq. cbn [fst].
  unfold availableSources. rewrite Hsame. done.
Qed.

Lemma good_published_since P base f :
  (∀ st, P st → P (f st)) → good (published_since P base) f.
Proof.
  intros Hf st pub t [Hst (new & -> & Hnew)]. split; [by apply Hf|].
  exists ((t, f st) :: new). split; [done|]. constructor; [by apply Hf|done].
Qed.

Lemma matches_merge_results env query results merge st :
  Forall (λ r, title r = query) results →
  matches_query query st →
  matches_query query (merge_results (attach_resolution env <$> results) merge st).
Proof.
  intros Hres [Hq Hst]. split; [done|]. cbn.
  assert (Forall (λ r, title r = query) (attach_resolution env <$> results)) as Hatt.
  { apply Forall_fmap. eapply Forall_impl; [done|].
    intros r Hr. cbn. by rewrite title_attach_resolution. }
  destruct merge; [|done].
  apply Forall_app. split; [done|].
  rewrite Forall_forall in Hatt. apply Forall_forall.
  intros r [_ Hr]%list_elem_of_filter. by apply Hatt.
Qed.

(** Every state [init] publishes, and the one it leaves, is a state of a
    session for its query whose candidates all carry the query as title. *)
Lemma init_published env query p i m :
  ∃ new,
    published (init env query p i m).2 = new ++ published m
    ∧ Forall (λ entry, matches_query query entry.2) new
    ∧ matches_query query (store (init env query p i m).2).
Proof.
  rewrite init_eq.
  set (m1 := (match controller (store m) with
              | Some old => controller_abort old | None => mret tt end m).2).
  assert (published m1 = published m) as Hpub.
  { subst m1. by destruct (controller (store m)). }
  set (m2 := (set _ _).2).
  assert (lift_inv (published_since (matches_query query) (published m))
            (init_after_reset env query p i (length (heap m1)) m2).2)
    as [Hst (new & Hnew & Hall)].
  { apply (preserves_init_after_reset env query
             (published_since (matches_query query) (published m))).
    1-5: by intros; apply good_published_since; intros st Hst.
    - intros results merge Hres. apply good_published_since.
      intros st. by apply matches_merge_results.
    - split; [split; [done|constructor]|].
      exists [(clock m1, reset query (length (heap m1)) (store m1))].
      split; [by rewrite <- Hpub|]. repeat constructor. }
  by exists new.
Qed.

Lemma matches_query_consistent query st : matches_query query st → consistent st.
Proof. intros [Hq Hst]. unfold consistent. by rewrite Hq. Qed.

Lemma perform_consistent env a m :
  lift_inv (published_since consistent []) m →
  lift_inv (published_since consistent []) (perform env a m).2.
Proof.
  intros Hm. destruct a as [query p i|d| | |src reason|cur idx]; cbn [perform].
  - destruct Hm as [_ (old & Hold & Hall)]. rewrite app_nil_r in Hold.
    destruct (init_published env query p i m) as (new & Hnew & Hnew_ok & Hst).
    split; [by eapply matches_query_consistent|].
    exists (new ++ old). rewrite app_nil_r, Hnew, Hold. split; [done|].
    apply Forall_app. split; [|done].
    eapply Forall_impl; [done|]. intros entry. apply matches_query_consistent.
  - revert Hm. apply (preserves_setDetail env);
      by intros; apply good_published_since; intros st Hst.
  - revert Hm. apply preserves_abort.
  - revert Hm. apply (preserves_toggleFavorite env);
      by intros; apply good_published_since; intros st Hst.
  - revert Hm. unfold markSourceAsFailed. apply preserves_bind; [apply preserves_get|].
    intros st. apply preserves_set. by apply good_published_since; intros st' Hst.
  - unfold mbind, M_bind. by rewrite getNextAvailableSource_eq.
Qed.

(** C10. What [api.searchVideo] hands back has the query as the title of
    every result.  Every state that a call of [init] publishes, and the one
    it ends in, belongs to a session for the query of that call, and every
    candidate in its result set has that query as its title.  And over any
    run of the store's actions from its initial state, every published
    state has a result set whose candidates all carry the title that the
    state's own query names (and an empty one before the first session). *)
Theorem init_results_match_query :
  (∀ env query resourceId signal m results,
     (api_searchVideo env query resourceId signal m).1 = Resolved results →
     Forall (λ r, title r = query) results)
  ∧ (∀ env query preferredSource id m,
       ∃ new,
         published (init env query preferredSource id m).2 = new ++ published m
         ∧ Forall (λ entry, matches_query query entry.2) new
         ∧ matches_query query (store (init env query preferredSource id m).2))
  ∧ (∀ env actions entry,
       entry ∈ published (perform_all env actions initial_machine) →
       consistent entry.2).
Proof.
  split; [|split].
  - intros env query k c m results. unfold api_searchVideo, mbind at 1, M_bind at 1.
    apply searchVideo_settle_titles.
  - apply init_published.
  - intros env actions.
    assert (∀ m, lift_inv (published_since consistent []) m →
                 lift_inv (published_since consistent []) (perform_all env actions m)) as H.
    { induction actions as [|a actions IH]; intros m Hm; [done|].
      cbn [perform_all fold_left]. by apply IH, perform_consistent. }
    destruct (H initial_machine) as [_ (new & Hnew & Hall)].
    { split; [done|]. by exists []. }
    rewrite app_nil_r in Hnew. rewrite Hnew.
    intros entry Hentry. by eapply Forall_forall in Hall.
Qed.

End Sessions.

(** ** Runs that nobody cancels *)

Section Quiet.
Variable env : Environment.
Hypothesis never_aborted : abort_at env = None.
Variable signal : nat.

Lemma runs_ret {A} (a : A) st : runs signal (mret a) st a st [] [].
Proof. by intros m <- Hlive. Qed.

Lemma runs_bind {A B} (c : M A) (k : A → M B) st a st1 log1 shown1 b st2 log2 shown2 :
  runs signal c st a st1 log1 shown1 →
  runs signal (k a) st1 b st2 log2 shown2 →
  runs signal (c ≫= k) st b st2 (log2 ++ log1) (shown2 ++ shown1).
Proof.
  intros Hc Hk m Hst Hlive. unfold mbind, M_bind.
  destruct (Hc m Hst Hlive) as (Ha & Hst1 & Hlive1 & Hlog1 & Hshown1). rewrite Ha.
  destruct (Hk (c m).2 Hst1 Hlive1) as (Hb & Hst2 & Hlive2 & Hlog2 & Hshown2).
  repeat split; try done.
  - by rewrite Hlog2, Hlog1, app_assoc.
  - by rewrite Hshown2, Hshown1, app_assoc.
Qed.

Lemma runs_weaken {A} (c : M A) st a st' log shown log' shown' :
  runs signal c st a st' log shown → log = log' → shown = shown' →
  runs signal c st a st' log' shown'.
Proof. by intros H <- <-. Qed.

Lemma runs_get st : runs signal get st st st [] [].
Proof. by intros m <- Hlive. Qed.

Lemma runs_set f st : runs signal (set f) st tt (f st) [] [f st].
Proof. by intros m <- Hlive. Qed.

Lemma runs_signal_aborted st : runs signal (signal_aborted signal) st false st [] [].
Proof. intros m <- Hlive. cbn. by rewrite Hlive. Qed.

Lemma runs_issue c st : runs signal (issue c) st tt st [c] [].
Proof. by intros m <- Hlive. Qed.

Lemma runs_issue_all cs st : runs signal (issue_all cs) st tt st (rev cs) [].
Proof. by intros m <- Hlive. Qed.

Lemma runs_suspend st : runs signal (suspend env) st tt st [] [].
Proof using never_aborted.
  intros m <- Hlive. unfold suspend. rewrite never_aborted. by case_decide.
Qed.

Lemma runs_fetch {A} (response : Outcome A) (with_signal : bool) st :
  runs signal (_fetch env response (if with_signal then Some signal else None))
       st response st [] [].
Proof using never_aborted.
  unfold _fetch. destruct with_signal.
  - eapply runs_weaken;
      [ eapply runs_bind; [apply runs_suspend|];
        eapply runs_bind; [apply runs_signal_aborted|apply runs_ret]
      | reflexivity.. ].
  - eapply runs_weaken;
      [ eapply runs_bind; [apply runs_suspend|apply runs_ret] | reflexivity.. ].
Qed.

Lemma runs_api_searchVideo query resourceId st :
  runs signal (api_searchVideo env query resourceId signal) st
       (filtered query (server_search_one env query resourceId)) st
       [call_searchVideo query resourceId signal] [].
Proof using never_aborted.
  unfold api_searchVideo, searchVideo_settle.
  eapply runs_weaken;
    [ eapply runs_bind; [apply runs_issue|];
      eapply runs_bind; [apply (runs_fetch _ true)|apply runs_ret]
    | reflexivity.. ].
Qed.

Lemma runs_api_searchVideos query st :
  runs signal (api_searchVideos env query) st (server_search_all env query) st
       [call_searchVideos query] [].
Proof using never_aborted.
  unfold api_searchVideos.
  eapply runs_weaken;
    [ eapply runs_bind; [apply runs_issue|apply (runs_fetch _ false)]
    | reflexivity.. ].
Qed.

Lemma runs_api_getResources st :
  runs signal (api_getResources env signal) st (server_resources env) st
       [call_getResources signal] [].
Proof using never_aborted.
  unfold api_getResources.
  eapply runs_weaken;
    [ eapply runs_bind; [apply runs_issue|apply (runs_fetch _ true)]
    | reflexivity.. ].
Qed.

Lemma runs_processAndSetResults results merge st :
  runs signal (processAndSetResults env signal results merge) st tt
       (merge_results (attach_resolution env <$> results) merge st)
       (rev (probe_calls signal results))
       [merge_results (attach_resolution env <$> results) merge st].
Proof using never_aborted.
  unfold processAndSetResults.
  eapply runs_weaken;
    [ eapply runs_bind; [apply runs_issue_all|];
      eapply runs_bind; [apply runs_suspend|];
      eapply runs_bind; [apply runs_signal_aborted|apply runs_set]
    | reflexivity.. ].
Qed.

Lemma runs_preferred_fallback query preferredSource allResults st :
  preferred_empty env query preferredSource →
  server_search_all env query = Resolved allResults →
  ∃ log,
    runs signal (preferred_protocol env query preferredSource signal) st true
         (fallback_store env query (filter (λ item, title item = query) allResults) st)
         log
         (fallback_shown env query (filter (λ item, title item = query) allResults) st)
    ∧ call_searchVideos query ∈ log.
Proof using never_aborted.
  intros Hpref Hall. unfold preferred_protocol.
  assert (match filtered query (server_search_one env query preferredSource) with
          | Resolved results => results
          | Rejected _ => []
          end = []) as Hnone.
  { unfold preferred_empty in Hpref. by destruct (filtered _ _). }
  unfold fallback_shown, fallback_store.
  destruct (filter (λ item, title item = query) allResults) as [|r found'] eqn:Hfound;
    (eexists; split;
     [ eapply runs_weaken;
       [ eapply runs_bind; [apply runs_api_searchVideo|];
         cbv zeta; rewrite Hnone;
         eapply runs_bind; [apply runs_signal_aborted|];
         cbn [length Nat.ltb Nat.leb];
         (eapply runs_bind; [|apply runs_ret]);
         (eapply runs_bind; [apply runs_api_searchVideos|]);
         rewrite Hall; cbv beta iota; rewrite Hfound; cbn [length Nat.ltb Nat.leb];
         first [ apply runs_set
               | eapply runs_bind; [apply runs_processAndSetResults|apply runs_set] ]
       | reflexivity.. ]
     | rewrite !elem_of_app; set_solver ]).
Qed.

Lemma runs_preferred_fallback_rejected query preferredSource message st :
  preferred_empty env query preferredSource →
  server_search_all env query = Rejected message →
  runs signal (preferred_protocol env query preferredSource signal) st true
       (fallback_failed_store message st)
       [call_searchVideos query; call_searchVideo query preferredSource signal]
       [fallback_failed_store message st].
Proof using never_aborted.
  intros Hpref Hall. unfold preferred_protocol, fallback_failed_store.
  assert (match filtered query (server_search_one env query preferredSource) with
          | Resolved results => results
          | Rejected _ => []
          end = []) as Hnone.
  { unfold preferred_empty in Hpref. by destruct (filtered _ _). }
  eapply runs_weaken;
    [ eapply runs_bind; [apply runs_api_searchVideo|];
      cbv zeta; rewrite Hnone;
      eapply runs_bind; [apply runs_signal_aborted|];
      cbn [length Nat.ltb Nat.leb];
      (eapply runs_bind; [|apply runs_ret]);
      (eapply runs_bind; [apply runs_api_searchVideos|]);
      rewrite Hall; apply runs_set
    | reflexivity.. ].
Qed.

Lemma runs_final_checks query st :
  searchResults st ≠ [] ∨ truthy (error st) = true →
  ∃ st' log shown,
    runs signal (final_checks env query) st tt st' log shown
    ∧ same_outcome st st'
    ∧ Forall (same_outcome st) shown.
Proof using never_aborted.
  intros Hpre. unfold final_checks.
  assert ((length (searchResults st) =? 0)%nat && negb (truthy (error st)) = false) as Hskip.
  { destruct Hpre as [Hne| ->]; [|by rewrite andb_false_r].
    by destruct (searchResults st). }
  destruct (detail st) as [d|] eqn:Hd;
    [destruct (FavoriteManager_isFavorited env (source d) (result_id d)) as [b|e] eqn:Hfav|];
    (eexists _, _, _; split;
     [ eapply runs_bind; [apply runs_get|];
       rewrite Hskip, Hd;
       (eapply runs_bind; [apply runs_ret|]);
       try (eapply runs_bind; [apply runs_suspend|]; rewrite Hfav);
       first [apply runs_set|apply runs_ret]
     | split; [done|by repeat constructor] ]).
Qed.

Lemma runs_init_after_reset_fallback query preferredSource id allResults st :
  truthy (Some preferredSource) && truthy (Some id) = true →
  preferred_empty env query preferredSource →
  server_search_all env query = Resolved allResults →
  ∃ st' log shown,
    runs signal (init_after_reset env query (Some preferredSource) (Some id) signal)
         st tt st' log shown
    ∧ call_searchVideos query ∈ log
    ∧ same_outcome
        (fallback_store env query (filter (λ item, title item = query) allResults) st) st'
    ∧ Forall (λ seen, loading seen = false →
                same_outcome
                  (fallback_store env query
                     (filter (λ item, title item = query) allResults) st) seen)
             shown.
Proof using never_aborted.
  intros Htruthy Hpref Hall. unfold init_after_reset. rewrite Htruthy.
  destruct (runs_preferred_fallback query preferredSource allResults st Hpref Hall)
    as (log1 & Hrun1 & Hlog1).
  destruct (runs_final_checks query
              (fallback_store env query (filter (λ item, title item = query) allResults) st))
    as (st2 & log2 & shown2 & Hrun2 & Hsame & Hshown2).
  { unfold fallback_store. destruct (filter _ allResults); [by right|by left]. }
  assert (loading (fallback_store env query
                     (filter (λ item, title item = query) allResults) st) = false) as Hoff.
  { unfold fallback_store. by destruct (filter _ allResults). }
  eexists _, _, _. split; [|split; [|split]].
  - eapply runs_bind; [apply Hrun1|].
    eapply runs_bind; [apply Hrun2|].
    eapply runs_bind; [apply runs_signal_aborted|apply runs_set].
  - rewrite !elem_of_app. auto.
  - destruct Hsame as (Hres & Hload & Herr). by repeat split.
  - rewrite !Forall_app. repeat split; try by constructor.
    + apply Forall_singleton. intros _.
      destruct Hsame as (Hres & Hload & Herr). by repeat split.
    + eapply Forall_impl; [apply Hshown2|]. by intros seen Hseen _.
    + unfold fallback_shown, fallback_store.
      destruct (filter _ allResults);
        repeat (apply Forall_cons; split); try apply Forall_nil; done.
Qed.

Lemma runs_init_after_reset_fallback_failed query preferredSource id message st :
  truthy (Some preferredSource) && truthy (Some id) = true →
  preferred_empty env query preferredSource →
  server_search_all env query = Rejected message →
  ∃ st' log shown,
    runs signal (init_after_reset env query (Some preferredSource) (Some id) signal)
         st tt st' log shown
    ∧ call_searchVideos query ∈ log
    ∧ same_outcome (fallback_failed_store message st) st'
    ∧ Forall (λ seen, loading seen = false →
                same_outcome (fallback_failed_store message st) seen)
             shown.
Proof using never_aborted.
  intros Htruthy Hpref Hall. unfold init_after_reset. rewrite Htruthy.
  pose proof (runs_preferred_fallback_rejected query preferredSource message st Hpref Hall)
    as Hrun1.
  destruct (runs_final_checks query (fallback_failed_store message st))
    as (st2 & log2 & shown2 & Hrun2 & Hsame & Hshown2); [by right|].
  eexists _, _, _. split; [|split; [|split]].
  - eapply runs_bind; [apply Hrun1|].
    eapply runs_bind; [apply Hrun2|].
    eapply runs_bind; [apply runs_signal_aborted|apply runs_set].
  - rewrite !elem_of_app, !elem_of_cons. auto 10.
  - destruct Hsame as (Hres & Hload & Herr). by repeat split.
  - rewrite !Forall_app. repeat split; try by constructor.
    + apply Forall_singleton. intros _.
      destruct Hsame as (Hres & Hload & Herr). by repeat split.
    + eapply Forall_impl; [apply Hshown2|]. by intros seen Hseen _.
Qed.

Lemma runs_init_after_reset_no_resources query preferredSource id allResources st :
  truthy preferredSource && truthy id = false →
  server_resources env = Resolved allResources →
  enabled_resources (videoSource env) allResources = [] →
  ∃ log shown,
    runs signal (init_after_reset env query preferredSource id signal) st tt
         ((with_loading false ∘ with_allSourcesLoaded true)
            ((with_error (Some msg_no_enabled_resources) ∘ with_loading false) st))
         log shown.
Proof using never_aborted.
  intros Hfalsy Hres Hnone. unfold init_after_reset. rewrite Hfalsy.
  eexists _, _.
  eapply runs_bind.
  { unfold standard_protocol.
    eapply runs_bind; [apply runs_api_getResources|].
    rewrite Hres. cbv zeta. fold (enabled_resources (videoSource env) allResources).
    rewrite Hnone. cbn [length Nat.eqb].
    eapply runs_bind; [apply runs_set|apply runs_ret]. }
  cbv beta iota.
  eapply runs_bind; [apply runs_ret|].
  eapply runs_bind; [apply runs_signal_aborted|apply runs_set].
Qed.

End Quiet.

(** X31. Merging a batch in append mode while the session is live and
    nobody cancels it leaves every pre-existing candidate in place and
    unchanged, in front of what it adds, and adds exactly the incoming
    candidates, each with its resolution attached, whose sourceKey no
    pre-existing candidate has; and when neither the existing result set
    nor the incoming batch holds two candidates of one sourceKey, neither
    does the result. *)
Theorem processAndSetResults_append (env : Environment) (signal : nat)
    (results : list SearchResult) (m : Machine) :
  abort_at env = None →
  heap m !! signal = Some false →
  searchResults (store (processAndSetResults env signal results true m).2)
  = searchResults (store m)
    ++ filter (λ r, source r ∉ source <$> searchResults (store m))
              (attach_resolution env <$> results)
  ∧ (NoDup (source <$> searchResults (store m)) →
     NoDup (source <$> results) →
     NoDup (source <$> searchResults (store (processAndSetResults env signal results true m).2))).
Proof.
  intros Hquiet Hlive.
  destruct (runs_processAndSetResults env Hquiet signal results true (store m) m eq_refl Hlive)
    as (_ & -> & _).
  cbn [merge_results searchResults with_searchResults].
  assert (filter (λ r, source r ∉ (list_to_set (source <$> searchResults (store m)) : gset string))
                 (attach_resolution env <$> results)
          = filter (λ r, source r ∉ source <$> searchResults (store m))
                   (attach_resolution env <$> results)) as ->.
  { apply list_filter_iff. intros r. by rewrite elem_of_list_to_set. }
  split; [done|].
  intros Hex Hin. rewrite fmap_app. apply NoDup_app. split; [done|]. split.
  + intros s Hs [r [-> [Hr _]%list_elem_of_filter]]%list_elem_of_fmap. done.
  + eapply sublist_NoDup; [|apply fmap_sublist, sublist_filter].
    rewrite <- list_fmap_compose.
    by rewrite (list_fmap_ext (source ∘ attach_resolution env) source results)
      by (intros; apply source_attach_resolution).
Qed.

Lemma processAndSetResults_append_witness :
  source <$> searchResults
    (store (processAndSetResults twin_env 0 [raw "A" 2 "X"; raw "B" 3 "X"] true
              (with_store (with_searchResults [raw "A" 1 "X"] initial_state)
                 (new_AbortController initial_machine).2)).2)
  = ["A"; "B"]
  ∧ NoDup (source <$> searchResults
             (store (processAndSetResults twin_env 0 [raw "A" 2 "X"; raw "B" 3 "X"] true
                       (with_store (with_searchResults [raw "A" 1 "X"] initial_state)
                          (new_AbortController initial_machine).2)).2)).
Proof.
  destruct (processAndSetResults_append twin_env 0 [raw "A" 2 "X"; raw "B" 3 "X"]
              (with_store (with_searchResults [raw "A" 1 "X"] initial_state)
                 (new_AbortController initial_machine).2) eq_refl eq_refl)
    as [Hres Hnodup].
  split; [by rewrite Hres|].
  apply Hnodup; apply (bool_decide_unpack _); by vm_compute.
Defined.

(** C8, as amended. In the preferred-source protocol ([preferredSource]
    and [id] both given), when nobody cancels the session and the
    preferred-source search fails or yields no candidate: [init] issues the
    all-sources search, and it ends with the loading flag cleared and
    - when that search answers and at least one of its results has exactly
      the query as title, the result set made of those matches (each with
      its resolution attached) and no error;
    - when it answers and none has, an empty result set and the "no source
      found" error;
    - when it fails, an empty result set and the "search failed" error
      that carries the message of the failure.
    The fallback is not left to the background: every state this session
    publishes with the loading flag cleared already shows that result set
    and that error. *)
Theorem init_preferred_fallback (env : Environment) (query preferredSource id : string)
    (m : Machine) :
  abort_at env = None →
  truthy (Some preferredSource) && truthy (Some id) = true →
  preferred_empty env query preferredSource →
  call_searchVideos query ∈ calls (init env query (Some preferredSource) (Some id) m).2
  ∧ loading (store (init env query (Some preferredSource) (Some id) m).2) = false
  ∧ match server_search_all env query with
    | Resolved allResults =>
        match filter (λ item, title item = query) allResults with
        | [] =>
            searchResults (store (init env query (Some preferredSource) (Some id) m).2) = []
            ∧ error (store (init env query (Some preferredSource) (Some id) m).2)
              = Some (msg_fallback_no_match query)
        | r :: found =>
            searchResults (store (init env query (Some preferredSource) (Some id) m).2)
            = attach_resolution env <$> r :: found
            ∧ error (store (init env query (Some preferredSource) (Some id) m).2) = None
        end
    | Rejected message =>
        searchResults (store (init env query (Some preferredSource) (Some id) m).2) = []
        ∧ error (store (init env query (Some preferredSource) (Some id) m).2)
          = Some (msg_search_failed message)
    end
  ∧ ∃ shown,
      (published (init env query (Some preferredSource) (Some id) m).2).*2
      = shown ++ (published m).*2
      ∧ Forall (λ seen, loading seen = false →
                  same_outcome (store (init env query (Some preferredSource) (Some id) m).2)
                               seen)
               shown.
Proof.
  intros Hquiet Htruthy Hpref. rewrite init_eq.
  set (m1 := (match controller (store m) with
              | Some old => controller_abort old | None => mret tt end m).2).
  assert (published m1 = published m) as Hm1.
  { subst m1. by destruct (controller (store m)). }
  set (m2 := (set _ _).2).
  assert (searchResults (store m2) = [] ∧ error (store m2) = None) as [Hres0 Herr0]
    by by subst m2.
  assert (∃ st' log shown,
            runs (length (heap m1))
                 (init_after_reset env query (Some preferredSource) (Some id)
                    (length (heap m1)))
                 (store m2) tt st' log shown
            ∧ call_searchVideos query ∈ log
            ∧ same_outcome (fallback_end env query (store m2)) st'
            ∧ Forall (λ seen, loading seen = false →
                        same_outcome (fallback_end env query (store m2)) seen) shown)
    as (st' & log & shown & Hrun & Hlog & (Hres & Hload & Herr) & Hshown).
  { unfold fallback_end.
    destruct (server_search_all env query) as [allResults|message] eqn:Hall.
    - by apply runs_init_after_reset_fallback.
    - by apply runs_init_after_reset_fallback_failed. }
  destruct (Hrun m2 eq_refl) as (_ & Hst & _ & Hcalls & Hpub).
  { subst m2. cbn. by apply list_lookup_middle. }
  rewrite Hst, Hcalls, Hpub, Hres, Herr. split; [|split; [|split]].
  - apply elem_of_app. by left.
  - rewrite Hload. unfold fallback_end, fallback_store, fallback_failed_store.
    destruct (server_search_all env query) as [allResults|message]; [|done].
    by destruct (filter _ allResults).
  - unfold fallback_end, fallback_store, fallback_failed_store.
    destruct (server_search_all env query) as [allResults|message]; [|done].
    by destruct (filter _ allResults).
  - exists (shown ++ [store m2]). split.
    + subst m2. cbn. by rewrite Hm1, <- app_assoc.
    + apply Forall_app. split.
      * eapply Forall_impl; [apply Hshown|]. intros seen Hseen Hoff.
        destruct (Hseen Hoff) as (Hres' & Hload' & Herr').
        repeat split; congruence.
      * apply Forall_singleton. by subst m2.
Qed.

Lemma init_preferred_fallback_witness :
  source <$> searchResults
    (store (init fallback_env "X" (Some "A") (Some "1") initial_machine).2) = ["B"; "C"]
  ∧ loading (store (init fallback_env "X" (Some "A") (Some "1") initial_machine).2) = false
  ∧ error (store (init fallback_env "X" (Some "A") (Some "1") initial_machine).2) = None.
Proof.
  destruct (init_preferred_fallback fallback_env "X" "A" "1" initial_machine)
    as (_ & Hload & Hfound & _); [reflexivity|reflexivity|by vm_compute|].
  change (server_search_all fallback_env "X") with (Resolved fallback_results) in Hfound.
  change (filter _ fallback_results) with [raw "B" 1 "X"; raw "C" 2 "X"] in Hfound.
  destruct Hfound as [Hres Herr]. rewrite Hres. by split.
Defined.

(** C8 as stated leaves out the failure of the fallback itself.  The
    preferred source ["A"] fails, and so does the all-sources search, with
    status 502: [init] ends with the loading flag cleared, an empty result
    set and the "search failed" error, not the "no source found" one. *)
Lemma init_fallback_search_fails :
  preferred_empty down_env "X" "A"
  ∧ server_search_all down_env "X" = Rejected "HTTP error! status: 502"
  ∧ calls (init down_env "X" (Some "A") (Some "1") initial_machine).2
    = [call_searchVideos "X"; call_searchVideo "X" "A" 0]
  ∧ loading (store (init down_env "X" (Some "A") (Some "1") initial_machine).2) = false
  ∧ searchResults (store (init down_env "X" (Some "A") (Some "1") initial_machine).2) = []
  ∧ error (store (init down_env "X" (Some "A") (Some "1") initial_machine).2)
    = Some (msg_search_failed "HTTP error! status: 502")
  ∧ msg_search_failed "HTTP error! status: 502" ≠ msg_fallback_no_match "X".
Proof. by vm_compute. Qed.

(** X3. In the standard protocol (no preferred source, or no id), when
    nobody cancels the session and the catalogue of providers, filtered by
    the settings, is empty: [init] ends with the "no enabled sources"
    error, the loading flag cleared, the search marked as finished and an
    empty result set. *)
Theorem init_no_enabled_resources (env : Environment) (query : string)
    (preferredSource id : option string) (allResources : list ApiSite) (m : Machine) :
  abort_at env = None →
  truthy preferredSource && truthy id = false →
  server_resources env = Resolved allResources →
  enabled_resources (videoSource env) allResources = [] →
  error (store (init env query preferredSource id m).2) = Some msg_no_enabled_resources
  ∧ loading (store (init env query preferredSource id m).2) = false
  ∧ allSourcesLoaded (store (init env query preferredSource id m).2) = true
  ∧ searchResults (store (init env query preferredSource id m).2) = [].
Proof.
  intros Hquiet Hfalsy Hres Hnone. rewrite init_eq.
  set (m1 := (match controller (store m) with
              | Some old => controller_abort old | None => mret tt end m).2).
  set (m2 := (set _ _).2).
  destruct (runs_init_after_reset_no_resources env Hquiet (length (heap m1))
              query preferredSource id allResources (store m2) Hfalsy Hres Hnone)
    as (log & shown & Hrun).
  destruct (Hrun m2 eq_refl) as (_ & Hst & _ & _).
  { subst m2. cbn. by apply list_lookup_middle. }
  by rewrite Hst.
Qed.

Lemma init_no_enabled_resources_witness :
  error (store (init quiet_env "X" None None initial_machine).2)
  = Some msg_no_enabled_resources
  ∧ loading (store (init quiet_env "X" None None initial_machine).2) = false
  ∧ allSourcesLoaded (store (init quiet_env "X" None None initial_machine).2) = true
  ∧ searchResults (store (init quiet_env "X" None None initial_machine).2) = [].
Proof.
  apply (init_no_enabled_resources quiet_env "X" None None [] initial_machine);
    reflexivity.
Defined.

(** ** Cancellation *)

(** C3, at a run the orchestrator gets wrong.  A search for ["X"] with the
    preferred source ["A"]: the preferred search finds nothing, the
    fallback [api.searchVideos] goes out without the session's signal, and
    the user aborts while it is in flight (second suspension).  The
    session's controller is aborted, and yet the completion of the fallback
    writes the error and clears the loading flag: the store publishes a new
    state at clock 2, after the abort. *)
Lemma init_fallback_ignores_cancellation :
  abort_at (with_abort_at (Some 2) quiet_env) = Some 2
  ∧ heap (init (with_abort_at (Some 2) quiet_env) "X" (Some "A") (Some "1") initial_machine).2
    = [true]
  ∧ calls (init (with_abort_at (Some 2) quiet_env) "X" (Some "A") (Some "1") initial_machine).2
    = [call_searchVideos "X"; call_searchVideo "X" "A" 0]
  ∧ published (init (with_abort_at (Some 2) quiet_env) "X" (Some "A") (Some "1") initial_machine).2
    = [(2, (with_error (Some (msg_fallback_no_match "X")) ∘ with_loading false)
             (reset "X" 0 initial_state));
       (0, reset "X" 0 initial_state)].
Proof. by vm_compute. Qed.

(** ** Cancellation and the result set *)

Lemma triple_ret {A} (P : Machine → Prop) (a : A) (Q : A → Machine → Prop) :
  (∀ m, P m → Q a m) → triple P (mret a) Q.
Proof. intros H m Hm. by apply H. Qed.

Lemma triple_bind {A B} (P : Machine → Prop) (c : M A) (Q : A → Machine → Prop)
    (k : A → M B) (R : B → Machine → Prop) :
  triple P c Q → (∀ a, triple (Q a) (k a) R) → triple P (c ≫= k) R.
Proof. intros Hc Hk m Hm. unfold mbind, M_bind. by apply Hk, Hc. Qed.

Lemma triple_conseq {A} (P P' : Machine → Prop) (c : M A) (Q Q' : A → Machine → Prop) :
  triple P' c Q' → (∀ m, P m → P' m) → (∀ a m, Q' a m → Q a m) → triple P c Q.
Proof. intros Hc HP HQ m Hm. by apply HQ, Hc, HP. Qed.

Ltac as_preserves :=
  lazymatch goal with
  | |- @triple ?A ?I ?c ?Q => unify Q (λ _ : A, I); change (preserves I c)
  end.

Ltac as_triple :=
  lazymatch goal with
  | |- preserves ?I ?c => change (triple I c (λ _, I))
  end.

(** What an [await] does to the machine. *)
Lemma suspend_effect env m :
  (suspend env m).2
  = {| store := store m;
       heap := if decide (abort_at env = Some (S (clock m)))
               then match controller (store m) with
                    | Some c => <[c := true]> (heap m)
                    | None => heap m
                    end
               else heap m;
       clock := S (clock m); calls := calls m; published := published m |}.
Proof.
  unfold suspend. cbn. case_decide; [|done].
  unfold abort, mbind, M_bind, get. cbn. by destruct (controller (store m)).
Qed.

Create HintDb frozen discriminated.

Section Frozen.
Variable env : Environment.
Variable signal a : nat.
Variable base : list (nat * DetailState).
Hypothesis abort_at_a : abort_at env = Some a.

Lemma frozen_suspend : preserves (frozen_since signal a base) (suspend env).
Proof using abort_at_a.
  intros m (Hc & Hh & new & Hnew & Hall). rewrite suspend_effect, Hc.
  destruct (decide (abort_at env = Some (S (clock m)))) as [Ha|Ha];
    rewrite abort_at_a in Ha; (split; [done|]); split; cbn [heap clock published store].
  - injection Ha as ->. rewrite bool_decide_eq_true_2 by done.
    apply list_lookup_insert_eq. by eapply lookup_lt_Some.
  - exists new. split; [done|]. eapply Forall_impl; [done|].
    intros [t st] [Ht Hst]. cbn in *. split; [lia|done].
  - rewrite Hh. f_equal. apply bool_decide_ext. split; [lia|].
    intros Hle. destruct (decide (a = S (clock m))) as [->|]; [done|lia].
  - exists new. split; [done|]. eapply Forall_impl; [done|].
    intros [t st] [Ht Hst]. cbn in *. split; [lia|done].
Qed.

Lemma frozen_set f : keeps_result_set f → preserves (frozen_since signal a base) (set f).
Proof.
  intros Hf m (Hc & Hh & new & Hnew & Hall). destruct (Hf (store m)) as [Hres Hctl].
  split; [|split].
  - cbn. by rewrite Hctl.
  - done.
  - exists ((clock m, f (store m)) :: new). cbn. split; [by rewrite Hnew|].
    constructor; [done|]. eapply Forall_impl; [done|].
    intros [t st] [Ht Hst]. cbn in *. split; [done|]. intros Hle. rewrite Hres. auto.
Qed.

(** A write that the session makes while its signal is live. *)
Lemma frozen_set_live f m :
  (∀ st, controller (f st) = controller st) →
  frozen_since signal a base m → heap m !! signal = Some false →
  frozen_since signal a base (set f m).2.
Proof.
  intros Hctl (Hc & Hh & new & Hnew & Hall) Hlive.
  assert (¬ a ≤ clock m) as Hbefore.
  { intros Hle. rewrite Hh, bool_decide_eq_true_2 in Hlive by done. done. }
  split; [|split].
  - cbn. by rewrite Hctl.
  - done.
  - exists ((clock m, f (store m)) :: new). cbn. split; [by rewrite Hnew|].
    constructor; [cbn; split; [done|intros ?; lia]|]. eapply Forall_impl; [done|].
    intros [t st] [Ht Hst]. cbn in *. split; [done|intros ?; lia].
Qed.

Lemma frozen_signal_aborted :
  triple (frozen_since signal a base) (signal_aborted signal)
         (λ aborted m, frozen_since signal a base m
                       ∧ (aborted = false → heap m !! signal = Some false)).
Proof.
  intros m Hm. split; [done|]. cbn. destruct Hm as (_ & Hh & _). rewrite Hh. cbn.
  by intros ->.
Qed.

Lemma frozen_issue c : preserves (frozen_since signal a base) (issue c).
Proof. by intros m. Qed.

Lemma frozen_issue_all cs : preserves (frozen_since signal a base) (issue_all cs).
Proof. by intros m. Qed.

Lemma frozen_get : preserves (frozen_since signal a base) get.
Proof. by intros m. Qed.

Lemma frozen_fetch {A} (response : Outcome A) c :
  preserves (frozen_since signal a base) (_fetch env response c).
Proof using abort_at_a.
  unfold _fetch. apply preserves_bind; [apply frozen_suspend|]. intros _.
  destruct c; [|apply preserves_ret].
  apply preserves_bind; [by intros m|]. intros b. apply preserves_ret.
Qed.

Lemma frozen_processAndSetResults results merge :
  preserves (frozen_since signal a base) (processAndSetResults env signal results merge).
Proof using abort_at_a.
  unfold processAndSetResults.
  apply preserves_bind; [apply frozen_issue_all|]. intros _.
  apply preserves_bind; [apply frozen_suspend|]. intros _.
  as_triple.
  eapply triple_bind; [apply frozen_signal_aborted|].
  intros [] m [Hm Hlive]; [done|].
  apply frozen_set_live; [done|done|by apply Hlive].
Qed.

Lemma frozen_searchVideo_settle query k :
  preserves (frozen_since signal a base) (searchVideo_settle env query k signal).
Proof using abort_at_a.
  unfold searchVideo_settle. preserves_step; [apply frozen_fetch|preserves_step].
Qed.

#[local] Hint Resolve frozen_suspend frozen_issue frozen_issue_all frozen_get
  frozen_fetch frozen_processAndSetResults frozen_searchVideo_settle : frozen.
#[local] Hint Extern 1 (preserves _ (signal_aborted _)) => (by intros ?) : frozen.
#[local] Hint Extern 1 (preserves _ (set _)) => (apply frozen_set; by intros ?) : frozen.

Lemma frozen_preferred_protocol query p :
  preserves (frozen_since signal a base) (preferred_protocol env query p signal).
Proof using abort_at_a.
  unfold preferred_protocol, api_searchVideo, api_searchVideos.
  repeat preserves_step; eauto with frozen.
Qed.

Lemma frozen_fan_in query settling first total :
  preserves (frozen_since signal a base) (fan_in env query signal settling first total).
Proof using abort_at_a.
  revert first total. induction settling as [|resource rest IH]; intros first total.
  { apply preserves_ret. }
  cbn [fan_in]. repeat preserves_step; eauto with frozen.
Qed.

Lemma frozen_standard_protocol query :
  preserves (frozen_since signal a base) (standard_protocol env query signal).
Proof using abort_at_a.
  unfold standard_protocol, api_getResources.
  repeat preserves_step; eauto using frozen_fan_in with frozen.
Qed.

Lemma frozen_final_checks query :
  preserves (frozen_since signal a base) (final_checks env query).
Proof using abort_at_a.
  unfold final_checks. repeat preserves_step; eauto with frozen.
Qed.

Lemma frozen_init_after_reset query p i :
  preserves (frozen_since signal a base) (init_after_reset env query p i signal).
Proof using abort_at_a.
  unfold init_after_reset.
  repeat preserves_step;
    eauto using frozen_preferred_protocol, frozen_standard_protocol, frozen_final_checks
      with frozen.
Qed.

End Frozen.

(** X6. Once a session is aborted, its result set stays as it is: every state
    that [init] publishes from the moment of the abort on shows the
    candidates, the sources and the detail that the store holds when [init]
    returns. *)
Theorem init_result_set_frozen_after_abort (env : Environment) (query : string)
    (preferredSource id : option string) (m : Machine) (a : nat) :
  abort_at env = Some a →
  clock m < a →
  ∃ new,
    published (init env query preferredSource id m).2 = new ++ published m
    ∧ Forall (λ entry, a ≤ entry.1 →
                result_set entry.2
                = result_set (store (init env query preferredSource id m).2)) new.
Proof.
  intros Ha Hclock. rewrite init_eq.
  set (m1 := (match controller (store m) with
              | Some old => controller_abort old | None => mret tt end m).2).
  assert (published m1 = published m ∧ clock m1 = clock m) as [Hpub Hclk].
  { subst m1. by destruct (controller (store m)). }
  set (m2 := (set _ _).2).
  destruct (frozen_init_after_reset env (length (heap m1)) a (published m) Ha
              query preferredSource id m2) as (_ & _ & new & Hnew & Hall).
  { split; [done|]. split.
    - subst m2. cbn. rewrite Hclk, bool_decide_eq_false_2 by lia.
      by apply list_lookup_middle.
    - exists [(clock m1, reset query (length (heap m1)) (store m1))].
      split; [by rewrite <- Hpub|]. constructor; [|constructor]. cbn. split; [done|intros ?; lia]. }
  exists new. split; [done|]. eapply Forall_impl; [done|]. by intros entry [_ H].
Qed.

Lemma init_result_set_frozen_after_abort_witness :
  ∃ new,
    published (init (with_abort_at (Some 3) fallback_env) "X" (Some "A") (Some "1")
                 initial_machine).2 = new ++ published initial_machine
    ∧ Forall (λ entry, 3 ≤ entry.1 →
                result_set entry.2
                = result_set (store (init (with_abort_at (Some 3) fallback_env) "X"
                                       (Some "A") (Some "1") initial_machine).2)) new.
Proof.
  apply (init_result_set_frozen_after_abort (with_abort_at (Some 3) fallback_env) "X"
           (Some "A") (Some "1") initial_machine 3); [reflexivity|cbn; lia].
Defined.

(** ** Sessions that nobody cancels *)

Lemma triple_pre_pure {A} (P : Machine → Prop) (φ : Prop) (c : M A) Q :
  (φ → triple P c Q) → triple (λ m, P m ∧ φ) c Q.
Proof. intros H m [Hm Hφ]. by apply H. Qed.

Create HintDb live discriminated.

Section Live.
Variable env : Environment.
Hypothesis never_aborted : abort_at env = None.
Variable signal : nat.

Lemma live_suspend : preserves (live signal) (suspend env).
Proof using never_aborted.
  intros m Hm. unfold live. by rewrite suspend_effect, never_aborted.
Qed.

Lemma live_signal_aborted :
  triple (live signal) (signal_aborted signal) (λ aborted m, live signal m ∧ aborted = false).
Proof. intros m Hm. split; [done|]. cbn. by rewrite Hm. Qed.

Lemma live_fetch {A} (response : Outcome A) c :
  preserves (live signal) (_fetch env response c).
Proof using never_aborted.
  unfold _fetch. apply preserves_bind; [apply live_suspend|]. intros _.
  destruct c; [|apply preserves_ret].
  apply preserves_bind; [by intros m|]. intros b. apply preserves_ret.
Qed.

Lemma live_processAndSetResults results merge :
  preserves (live signal) (processAndSetResults env signal results merge).
Proof using never_aborted.
  unfold processAndSetResults.
  apply preserves_bind; [by intros m|]. intros _.
  apply preserves_bind; [apply live_suspend|]. intros _.
  apply preserves_bind; [by intros m|]. intros []; by intros m.
Qed.

Lemma live_searchVideo_settle query k :
  preserves (live signal) (searchVideo_settle env query k signal).
Proof using never_aborted.
  unfold searchVideo_settle. preserves_step; [apply live_fetch|preserves_step].
Qed.

#[local] Hint Resolve live_suspend live_fetch live_processAndSetResults
  live_searchVideo_settle : live.
#[local] Hint Extern 1 (preserves _ (set _)) => (by intros ?) : live.
#[local] Hint Extern 1 (preserves _ (issue _)) => (by intros ?) : live.
#[local] Hint Extern 1 (preserves _ (issue_all _)) => (by intros ?) : live.
#[local] Hint Extern 1 (preserves _ get) => (by intros ?) : live.
#[local] Hint Extern 1 (preserves _ (signal_aborted _)) => (by intros ?) : live.

Lemma live_fan_in query settling first total :
  preserves (live signal) (fan_in env query signal settling first total).
Proof using never_aborted.
  revert first total. induction settling as [|resource rest IH]; intros first total.
  { apply preserves_ret. }
  cbn [fan_in]. repeat preserves_step; eauto with live.
Qed.

Lemma live_final_checks query : preserves (live signal) (final_checks env query).
Proof using never_aborted.
  unfold final_checks. repeat preserves_step; eauto with live.
Qed.

(** While the signal is live the preferred-source protocol runs to its end. *)
Lemma live_preferred_protocol query p :
  triple (live signal) (preferred_protocol env query p signal)
         (λ reached_end m, live signal m ∧ reached_end = true).
Proof using never_aborted.
  unfold preferred_protocol, api_searchVideo, api_searchVideos.
  eapply triple_bind.
  { as_preserves. repeat preserves_step; eauto with live. }
  intros response. cbv zeta.
  eapply triple_bind; [apply live_signal_aborted|].
  intros aborted. apply triple_pre_pure. intros ->. cbv iota.
  eapply triple_bind.
  { as_preserves. repeat preserves_step; eauto with live. }
  intros ?; cbv beta.
  destruct (0 <? _)%nat; [|by apply triple_ret].
  eapply triple_bind.
  { as_preserves. repeat preserves_step; eauto with live. }
  intros [allResults|message]; [|by apply triple_ret].
  eapply triple_bind; [apply live_signal_aborted|].
  intros b. apply triple_pre_pure. intros ->. cbv iota.
  eapply triple_bind; [as_preserves; apply live_processAndSetResults|].
  intros ?; cbv beta. by apply triple_ret.
Qed.

(** The standard protocol leaves early only with an error in the store. *)
Lemma live_standard_protocol query :
  triple (live signal) (standard_protocol env query signal)
         (λ reached_end m, live signal m
                           ∧ (reached_end = false → truthy (error (store m)) = true)).
Proof using never_aborted.
  unfold standard_protocol, api_getResources.
  eapply triple_bind.
  { as_preserves. repeat preserves_step; eauto with live. }
  intros [allResources|message]; cbv zeta beta.
  - destruct (_ =? 0)%nat.
    + intros m Hm. by split.
    + eapply triple_bind; [as_preserves; by intros m|].
      intros ?; cbv beta.
      eapply triple_bind; [as_preserves; apply live_fan_in|].
      intros [? totalResults]; cbv beta.
      eapply triple_bind.
      { as_preserves. repeat preserves_step; eauto with live. }
      intros ?; cbv beta. by apply triple_ret.
  - intros m Hm. by split.
Qed.

Lemma final_checks_settled query m : settled (store (final_checks env query m).2).
Proof.
  unfold final_checks, mbind, M_bind, get. cbn [fst snd].
  match goal with
  | |- context [(?c m).2] => set (m1 := (c m).2)
  end.
  assert (settled (store m1)) as Hm1.
  { subst m1. unfold settled.
    destruct (searchResults (store m)) as [|r rs] eqn:Hres; cbn [length Nat.eqb andb].
    - destruct (truthy (error (store m))) eqn:Herr; cbn [negb]; right; [done|].
      cbn. done.
    - left. cbn. by rewrite Hres. }
  destruct (detail (store m)) as [d|]; [|done].
  assert (store (suspend env m1).2 = store m1) as Hs by apply suspend_store.
  destruct (FavoriteManager_isFavorited env (source d) (result_id d)); cbn.
  - unfold settled in *. cbn. by rewrite Hs.
  - by rewrite Hs.
Qed.

End Live.

(** X7. A session that nobody cancels always comes to an end the user can see:
    whatever the protocol and whatever the servers answer, [init] leaves
    the loading flag cleared, the search marked as finished, and either
    candidates in the result set or an error message. *)
Theorem init_always_settles (env : Environment) (query : string)
    (preferredSource id : option string) (m : Machine) :
  abort_at env = None →
  loading (store (init env query preferredSource id m).2) = false
  ∧ allSourcesLoaded (store (init env query preferredSource id m).2) = true
  ∧ settled (store (init env query preferredSource id m).2).
Proof.
  intros Hquiet. rewrite init_eq.
  set (m1 := (match controller (store m) with
              | Some old => controller_abort old | None => mret tt end m).2).
  set (m2 := (set _ _).2).
  assert (live (length (heap m1)) m2) as Hlive.
  { subst m2. unfold live. cbn. by apply list_lookup_middle. }
  revert Hlive. generalize (length (heap m1)) m2. clear m m1 m2. intros signal m Hlive.
  enough (triple (live signal) (init_after_reset env query preferredSource id signal)
            (λ _ m', loading (store m') = false ∧ allSourcesLoaded (store m') = true
                     ∧ settled (store m'))) as H by by apply H.
  unfold init_after_reset.
  eapply (triple_bind _ _ (λ reached_end m', live signal m'
            ∧ (reached_end = false → truthy (error (store m')) = true))).
  { destruct (truthy preferredSource && truthy id).
    - eapply triple_conseq; [by apply live_preferred_protocol|done|].
      by intros r m' [? ->].
    - by apply live_standard_protocol. }
  intros reached_end; cbv beta.
  eapply (triple_bind _ _ (λ _ m', live signal m' ∧ settled (store m'))).
  { destruct reached_end.
    - intros m' [Hm' _]. split; [by apply live_final_checks|apply final_checks_settled].
    - intros m' [Hm' Herr]. split; [done|]. right. by apply Herr. }
  intros ?; cbv beta.
  eapply (triple_bind _ _ (λ aborted m', (live signal m' ∧ settled (store m'))
                                         ∧ aborted = false)).
  { intros m' [Hm' Hs]. split; [done|]. cbn. by rewrite Hm'. }
  intros aborted. apply triple_pre_pure. intros ->. cbv iota.
  intros m' [_ Hs]. cbn. by repeat split.
Qed.

Lemma init_always_settles_witness :
  loading (store (init fallback_env "X" None None initial_machine).2) = false
  ∧ allSourcesLoaded (store (init fallback_env "X" None None initial_machine).2) = true
  ∧ settled (store (init fallback_env "X" None None initial_machine).2).
Proof. apply (init_always_settles fallback_env "X" None None initial_machine). reflexivity. Defined.

(** ** What every published state satisfies *)

Create HintDb published discriminated.

Section Published.
Variable env : Environment.
Variable P : DetailState → Prop.

Hypothesis P_loading : ∀ st, P st → P (with_loading false st).
Hypothesis P_error : ∀ e st, P st → P (with_error e st).
Hypothesis P_error_loading : ∀ e st, P st → P ((with_error e ∘ with_loading false) st).
Hypothesis P_isFavorited : ∀ b st, P st → P (with_isFavorited b st).
Hypothesis P_done : ∀ st, P st → P ((with_loading false ∘ with_allSourcesLoaded true) st).
Hypothesis P_append : ∀ results st, P st → P (merge_results results true st).
Hypothesis P_replace : ∀ results st, P st → fresh st → P (merge_results results false st).

Lemma published_set base f :
  (∀ st, P st → P (f st)) → preserves (lift_inv (published_since P base)) (set f).
Proof. intros Hf. apply preserves_set. by apply good_published_since. Qed.

#[local] Hint Resolve preserves_get preserves_new_AbortController
  preserves_controller_abort preserves_signal_aborted preserves_issue
  preserves_issue_all preserves_abort preserves_suspend preserves_fetch
  preserves_api_searchVideos preserves_api_getResources : published.
#[local] Hint Extern 1 (preserves _ (set _)) => (apply published_set; by auto) : published.

Lemma published_append base signal results :
  preserves (lift_inv (published_since P base)) (processAndSetResults env signal results true).
Proof using P_append.
  unfold processAndSetResults.
  repeat preserves_step; eauto with published.
Qed.

Lemma published_replace base signal results :
  triple (lift_inv (λ st pub, published_since P base st pub ∧ fresh st))
         (processAndSetResults env signal results false)
         (λ _, lift_inv (published_since P base)).
Proof using P_replace.
  unfold processAndSetResults.
  eapply triple_bind; [as_preserves; apply preserves_issue_all|]. intros ?; cbv beta.
  eapply triple_bind; [as_preserves; apply preserves_suspend|]. intros ?; cbv beta.
  eapply triple_bind; [as_preserves; apply preserves_signal_aborted|].
  intros []; cbv beta.
  - by intros m [Hm _].
  - intros m [[Hst (new & Hnew & Hall)] Hfresh]. split; [by apply P_replace|].
    exists ((clock m, merge_results (attach_resolution env <$> results) false (store m)) :: new).
    split; [cbn; by rewrite Hnew|]. constructor; [by apply P_replace|done].
Qed.

#[local] Hint Resolve published_append : published.

Lemma published_preferred_protocol base query p signal :
  triple (lift_inv (λ st pub, published_since P base st pub ∧ fresh st))
         (preferred_protocol env query p signal)
         (λ _, lift_inv (published_since P base)).
Proof using P_loading P_error_loading P_append P_replace.
  unfold preferred_protocol.
  eapply triple_bind.
  { as_preserves. intros m Hm. by apply preserves_api_searchVideo. }
  intros response; cbv beta zeta.
  eapply triple_bind; [as_preserves; apply preserves_signal_aborted|].
  intros []; cbv beta; [by intros m [Hm _]|].
  eapply (triple_bind _ _ (λ _, lift_inv (published_since P base))).
  - destruct (0 <? _)%nat.
    + eapply triple_bind; [apply published_replace|]. intros ?; cbv beta.
      as_preserves. eauto with published.
    + eapply triple_bind; [as_preserves; apply preserves_api_searchVideos|].
      intros [allResults|message]; cbv beta.
      * destruct (0 <? _)%nat.
        -- eapply triple_bind; [apply published_replace|]. intros ?; cbv beta.
           as_preserves. eauto with published.
        -- eapply triple_conseq;
             [as_preserves; apply (published_set base), P_error_loading
             |by intros m [Hm _]|done].
      * eapply triple_conseq;
          [as_preserves; apply (published_set base), P_error_loading
          |by intros m [Hm _]|done].
  - intros ?; cbv beta. as_preserves.
    repeat preserves_step; eauto with published.
Qed.

Lemma published_fan_in base query signal settling first total :
  preserves (lift_inv (published_since P base)) (fan_in env query signal settling first total).
Proof using P_append P_loading.
  revert first total. induction settling as [|resource rest IH]; intros first total.
  { apply preserves_ret. }
  cbn [fan_in]. apply preserves_bind.
  { intros m Hm. by apply preserves_searchVideo_settle. }
  intros response.
  repeat preserves_step; eauto with published.
Qed.

Lemma published_standard_protocol base query signal :
  preserves (lift_inv (published_since P base)) (standard_protocol env query signal).
Proof using P_append P_loading P_error_loading.
  unfold standard_protocol.
  repeat preserves_step;
    eauto using published_fan_in with published.
Qed.

Lemma published_final_checks base query :
  preserves (lift_inv (published_since P base)) (final_checks env query).
Proof using P_error P_isFavorited.
  unfold final_checks. repeat preserves_step; eauto with published.
Qed.

Lemma published_init_after_reset base query p i signal :
  triple (lift_inv (λ st pub, published_since P base st pub ∧ fresh st))
         (init_after_reset env query p i signal)
         (λ _, lift_inv (published_since P base)).
Proof using All.
  unfold init_after_reset.
  eapply (triple_bind _ _ (λ _, lift_inv (published_since P base))).
  { destruct (truthy p && truthy i); [apply published_preferred_protocol|].
    eapply triple_conseq;
      [as_preserves; apply (published_standard_protocol base)|by intros m [Hm _]|done]. }
  intros reached_end; cbv beta. as_preserves.
  repeat preserves_step; eauto using published_final_checks with published.
Qed.

Hypothesis P_reset : ∀ query c st, P (reset query c st).

Lemma init_published_since query p i m :
  ∃ new,
    published (init env query p i m).2 = new ++ published m
    ∧ Forall (λ entry, P entry.2) new
    ∧ P (store (init env query p i m).2).
Proof using All.
  rewrite init_eq.
  set (m1 := (match controller (store m) with
              | Some old => controller_abort old | None => mret tt end m).2).
  assert (published m1 = published m) as Hpub.
  { subst m1. by destruct (controller (store m)). }
  set (m2 := (set _ _).2).
  destruct (published_init_after_reset (published m) query p i (length (heap m1)) m2)
    as [Hst (new & Hnew & Hall)].
  { split; [|done]. split; [apply P_reset|].
    exists [(clock m1, reset query (length (heap m1)) (store m1))].
    split; [by rewrite <- Hpub|]. constructor; [apply P_reset|constructor]. }
  by exists new.
Qed.

End Published.

Section Actions.
Variable env : Environment.
Variable P : DetailState → Prop.

Hypothesis P_init : ∀ query p i m,
  ∃ new,
    published (init env query p i m).2 = new ++ published m
    ∧ Forall (λ entry, P entry.2) new
    ∧ P (store (init env query p i m).2).
Hypothesis P_detail : ∀ d st, P st → P (with_detail d st).
Hypothesis P_isFavorited : ∀ b st, P st → P (with_isFavorited b st).
Hypothesis P_failedSources : ∀ v st, P st → P (with_failedSources v st).

#[local] Hint Resolve preserves_get preserves_suspend : published.
#[local] Hint Extern 1 (preserves _ (set _)) => (apply published_set; by auto) : published.

Lemma perform_published_since a m :
  lift_inv (published_since P []) m → lift_inv (published_since P []) (perform env a m).2.
Proof using All.
  intros Hm. destruct a as [query p i|d| | |src reason|cur idx]; cbn [perform].
  - destruct Hm as [_ (old & Hold & Hall)]. rewrite app_nil_r in Hold.
    destruct (P_init query p i m) as (new & Hnew & Hnew_ok & Hst).
    split; [done|]. exists (new ++ old). rewrite app_nil_r, Hnew, Hold. split; [done|].
    by apply Forall_app.
  - revert m Hm. change (preserves (lift_inv (published_since P [])) (setDetail env d)).
    unfold setDetail. repeat preserves_step; eauto with published.
  - revert Hm. apply preserves_abort.
  - revert m Hm. change (preserves (lift_inv (published_since P [])) (toggleFavorite env)).
    unfold toggleFavorite. repeat preserves_step; eauto with published.
  - revert m Hm.
    change (preserves (lift_inv (published_since P [])) (markSourceAsFailed src reason)).
    unfold markSourceAsFailed. repeat preserves_step; eauto with published.
  - unfold mbind, M_bind. by rewrite getNextAvailableSource_eq.
Qed.

Lemma perform_all_published_since actions :
  P initial_state →
  Forall (λ entry, P entry.2) (published (perform_all env actions initial_machine))
  ∧ P (store (perform_all env actions initial_machine)).
Proof using All.
  intros Hinit.
  assert (∀ m, lift_inv (published_since P []) m →
               lift_inv (published_since P []) (perform_all env actions m)) as H.
  { induction actions as [|a actions IH]; intros m Hm; [done|].
    cbn [perform_all fold_left]. by apply IH, perform_published_since. }
  destruct (H initial_machine) as [Hst (new & Hnew & Hall)].
  { split; [done|]. by exists []. }
  rewrite app_nil_r in Hnew. by rewrite Hnew.
Qed.

End Actions.

(** X8. Over any run of the store's actions, whenever the result set holds a
    candidate, [sources] lists exactly the candidates of the result set, in
    the same order, each with its source, name, resolution and measurement:
    in every state the store publishes and in the one it ends in. *)
Theorem sources_mirror_searchResults (env : Environment) (actions : list Action) :
  Forall (λ entry, sources_mirror entry.2)
         (published (perform_all env actions initial_machine))
  ∧ sources_mirror (store (perform_all env actions initial_machine)).
Proof.
  apply perform_all_published_since; try done;
    try (by intros; unfold sources_mirror in *; cbn; auto).
  intros query p i m.
  apply init_published_since; by intros; unfold sources_mirror in *; cbn; auto.
Qed.

(** X9. Over any run of the store's actions, no published state marks the
    search as finished while it still shows the loading indicator. *)
Theorem allSourcesLoaded_clears_loading (env : Environment) (actions : list Action) :
  Forall (λ entry, finished_means_loaded entry.2)
         (published (perform_all env actions initial_machine))
  ∧ finished_means_loaded (store (perform_all env actions initial_machine)).
Proof.
  apply perform_all_published_since; try done;
    try (by intros; unfold finished_means_loaded in *; cbn; auto).
  intros query p i m.
  apply init_published_since; by intros; unfold finished_means_loaded in *; cbn; auto.
Qed.

(** ** Failover over several actions *)

Section Failover.

Lemma perform_all_failedSources env actions m :
  failedSources (store m) ⊆ failedSources (store (perform_all env actions m)).
Proof.
  revert m. induction actions as [|a actions IH]; intros m; [done|].
  cbn [perform_all fold_left]. etrans; [apply (perform_failedSources env a)|apply IH].
Qed.

(** X11. A source that was marked as failed is never offered again: whatever
    actions follow, new sessions included, the selector does not return a
    candidate of that source. *)
Theorem failed_source_is_never_offered (env : Environment) (src reason : string)
    (actions : list Action) (currentSource : string) (episodeIndex : nat) (m : Machine) :
  match (getNextAvailableSource currentSource episodeIndex
           (perform_all env actions (markSourceAsFailed src reason m).2)).1 with
  | Some r => source r ≠ src
  | None => True
  end.
Proof.
  destruct (getNextAvailableSource _ _ _).1 as [r|] eqn:E; [|done].
  apply getNextAvailableSource_available, elem_of_availableSources in E
    as (_ & _ & Hnot & _).
  intros Heq. apply Hnot. rewrite Heq.
  apply (perform_all_failedSources env actions). cbn. set_solver.
Qed.

Lemma find_source_None src (results : list SearchResult) :
  src ∉ source <$> results →
  List.find (λ r, String.eqb (source r) src) results = None.
Proof.
  induction results as [|r results IH]; [done|]. cbn [List.find fmap list_fmap].
  intros Hnot. apply not_elem_of_cons in Hnot as [Hne Hnot].
  destruct (String.eqb_spec (source r) src) as [Heq|_]; [by subst|by apply IH].
Qed.

Lemma find_source_Some (results : list SearchResult) r :
  NoDup (source <$> results) → r ∈ results →
  List.find (λ c, String.eqb (source c) (source r)) results = Some r.
Proof.
  induction results as [|c results IH]; intros Hnd Hin; [by apply elem_of_nil in Hin|].
  cbn [fmap list_fmap] in Hnd. apply NoDup_cons in Hnd as [Hc Hnd]. cbn [List.find].
  apply elem_of_cons in Hin as [->|Hin].
  - by rewrite String.eqb_refl.
  - destruct (String.eqb_spec (source c) (source r)) as [Heq|_]; [|by apply IH].
    exfalso. apply Hc. rewrite Heq. by apply list_elem_of_fmap_2.
Qed.

(** X12. [episodesSelectorBySource] answers with the empty list for a source the
    result set does not know, and, when no two candidates share a source,
    with the episode list of the candidate of that source. *)
Theorem episodesSelectorBySource_lookup (st : DetailState) :
  (∀ src, src ∉ source <$> searchResults st → episodesSelectorBySource src st = [])
  ∧ (NoDup (source <$> searchResults st) →
     ∀ r, r ∈ searchResults st → episodesSelectorBySource (source r) st = episodes r).
Proof.
  split.
  - intros src Hnot. unfold episodesSelectorBySource. by rewrite find_source_None.
  - intros Hnd r Hr. unfold episodesSelectorBySource. by rewrite find_source_Some.
Qed.

Lemma episodesSelectorBySource_lookup_witness :
  episodesSelectorBySource (source scenario_A) (store scenario_machine) = episodes scenario_A.
Proof.
  apply (proj2 (episodesSelectorBySource_lookup (store scenario_machine))).
  - apply (bool_decide_unpack _). by vm_compute.
  - by repeat constructor.
Defined.

(** X13. When no two candidates share a source, the episode list that
    [episodesSelectorBySource] gives for the source the selector picked has
    an entry at the episode index the selector was asked for. *)
Theorem failover_episode_exists (m : Machine) (currentSource : string)
    (episodeIndex : nat) (r : SearchResult) :
  NoDup (source <$> searchResults (store m)) →
  (getNextAvailableSource currentSource episodeIndex m).1 = Some r →
  is_Some (episodesSelectorBySource (source r) (store m) !! episodeIndex).
Proof.
  intros Hnd Hr.
  apply getNextAvailableSource_available, elem_of_availableSources in Hr
    as (Hin & _ & _ & Hep).
  unfold episodesSelectorBySource. by rewrite find_source_Some.
Qed.

Lemma failover_episode_exists_witness :
  is_Some (episodesSelectorBySource (source scenario_A) (store scenario_machine) !! 4).
Proof.
  apply (failover_episode_exists scenario_machine "B" 4 scenario_A).
  - apply (bool_decide_unpack _). by vm_compute.
  - by vm_compute.
Defined.

End Failover.

Section Frame.

(** X14. Only [init] writes the state of the search: [setDetail], [abort],
    [toggleFavorite], [markSourceAsFailed] and [getNextAvailableSource]
    leave the query, the result set, the sources, the loading flag, the
    error, the finished flag and the controller as they are; [abort] and
    the selector leave the whole store as it is. *)
Theorem only_init_writes_the_search_state (env : Environment) (m : Machine) :
  (∀ d, search_state (store (setDetail env d m).2) = search_state (store m))
  ∧ store (abort m).2 = store m
  ∧ search_state (store (toggleFavorite env m).2) = search_state (store m)
  ∧ (∀ src reason,
       search_state (store (markSourceAsFailed src reason m).2) = search_state (store m))
  ∧ (∀ currentSource episodeIndex,
       store (getNextAvailableSource currentSource episodeIndex m).2 = store m).
Proof.
  split; [|split; [|split; [|split]]].
  - intros d.
    apply (preserves_setDetail env (λ st _, search_state st = search_state (store m)));
      by repeat intro.
  - unfold abort, mbind, M_bind, get. cbn. by destruct (controller (store m)).
  - apply (preserves_toggleFavorite env (λ st _, search_state st = search_state (store m)));
      by repeat intro.
  - done.
  - intros cur idx. by rewrite getNextAvailableSource_eq.
Qed.

End Frame.

(** ** The fan-out of the standard protocol *)

Lemma searches_app log1 log2 : searches (log1 ++ log2) = searches log1 ++ searches log2.
Proof. apply omap_app. Qed.

Lemma searches_probe_calls signal results : searches (rev (probe_calls signal results)) = [].
Proof.
  induction results as [|r results IH]; [done|].
  unfold probe_calls. cbn [omap list_omap].
  destruct (videoInfo r); [done|]. destruct (episodes r); [done|].
  cbn [rev]. rewrite searches_app. unfold probe_calls in IH. by rewrite IH.
Qed.

Lemma searches_rev_searchVideo query signal (resources : list ApiSite) :
  searches (rev ((λ resource, call_searchVideo query (key resource) signal) <$> resources))
  = rev ((λ resource, (query, key resource, signal)) <$> resources).
Proof.
  induction resources as [|r resources IH]; [done|].
  cbn [fmap list_fmap rev]. rewrite searches_app, IH. done.
Qed.

Lemma gather_cons env query resource rest acc :
  gather env query (resource :: rest) acc
  = gather env query rest (acc ++ contribution env query acc resource).
Proof. reflexivity. Qed.

Lemma found_total_0 env query settling :
  found_total env query settling = 0 →
  ∀ acc, gather env query settling acc = acc.
Proof.
  induction settling as [|resource rest IH]; intros Hzero acc; [done|].
  unfold found_total in Hzero. cbn [fmap list_fmap sum_list sum_list_with] in Hzero.
  apply Nat.eq_add_0 in Hzero as [Hhere Hrest].
  rewrite gather_cons. unfold contribution.
  destruct (filtered query _) as [[|r rs]|]; [|done|]; cbn; rewrite app_nil_r; by apply IH.
Qed.

Lemma gather_extends env query settling acc :
  acc `prefix_of` gather env query settling acc.
Proof.
  revert acc. induction settling as [|resource rest IH]; intros acc; [done|].
  rewrite gather_cons. etrans; [|apply IH]. by apply prefix_app_r.
Qed.

Lemma found_total_pos env query settling :
  found_total env query settling ≠ 0 → gather env query settling [] ≠ [].
Proof.
  induction settling as [|resource rest IH]; [done|].
  unfold found_total. cbn [fmap list_fmap sum_list sum_list_with]. rewrite gather_cons.
  unfold contribution.
  destruct (filtered query _) as [[|r rs]|] eqn:E; cbn [length]; [by apply IH| |by apply IH].
  intros _. cbn [app fmap list_fmap].
  rewrite filter_cons_True by set_solver.
  intros Hnil.
  match type of Hnil with
  | gather _ _ _ ?acc = [] => pose proof (gather_extends env query rest acc) as [k Hk]
  end.
  rewrite Hnil in Hk. done.
Qed.

Section FanOut.
Variable env : Environment.
Hypothesis never_aborted : abort_at env = None.
Variable signal : nat.
Variable query : string.

Lemma runs_searchVideo_settle resourceId st :
  runs signal (searchVideo_settle env query resourceId signal) st
       (filtered query (server_search_one env query resourceId)) st [] [].
Proof using never_aborted.
  unfold searchVideo_settle.
  eapply runs_weaken;
    [ eapply runs_bind; [by apply (runs_fetch _ never_aborted _ _ true)|apply runs_ret]
    | reflexivity.. ].
Qed.

Lemma searchResults_merge_append results st :
  searchResults (merge_results results true st)
  = searchResults st ++ filter (λ r, source r ∉ source <$> searchResults st) results.
Proof.
  cbn. f_equal. apply list_filter_iff. intros r. by rewrite elem_of_list_to_set.
Qed.

Lemma searchResults_fan_in_store settling first st :
  searchResults (fan_in_store env query settling first st)
  = gather env query settling (searchResults st).
Proof.
  revert first st. induction settling as [|resource rest IH]; intros first st; [done|].
  cbn [fan_in_store]. rewrite gather_cons. unfold contribution.
  destruct (filtered query _) as [[|r rs]|].
  - cbn. rewrite app_nil_r. apply IH.
  - rewrite IH. f_equal. destruct first; cbn [id]; by rewrite <- searchResults_merge_append.
  - rewrite app_nil_r. apply IH.
Qed.

Lemma fan_in_store_frame settling first st :
  error (fan_in_store env query settling first st) = error st
  ∧ q (fan_in_store env query settling first st) = q st
  ∧ (first = true → loading (fan_in_store env query settling first st) = loading st)
  ∧ (found_total env query settling ≠ 0 → first = false →
     loading (fan_in_store env query settling first st) = false)
  ∧ (found_total env query settling = 0 → fan_in_store env query settling first st = st).
Proof.
  revert first st. induction settling as [|resource rest IH]; intros first st; [done|].
  cbn [fan_in_store].
  replace (found_total env query (resource :: rest))
    with (match filtered query (server_search_one env query (key resource)) with
          | Resolved results => length results
          | Rejected _ => 0
          end + found_total env query rest) by done.
  destruct (filtered query _) as [[|r rs]|]; cbn [length Nat.add]; try apply IH.
  match goal with
  | |- context [fan_in_store env query rest true ?st'] =>
      destruct (IH true st') as (Herr & Hq & Hload & _ & _)
  end.
  rewrite Herr, Hq, Hload by done.
  repeat split; try done; by destruct first.
Qed.

Lemma runs_fan_in settling first total st :
  ∃ first' log shown,
    runs signal (fan_in env query signal settling first total) st
         (first', total + found_total env query settling)
         (fan_in_store env query settling first st) log shown
    ∧ searches log = [].
Proof using never_aborted.
  revert first total st. induction settling as [|resource rest IH]; intros first total st.
  { exists first, [], []. split; [|done]. cbn [fan_in found_total fmap list_fmap sum_list].
    unfold found_total. cbn. rewrite Nat.add_0_r. apply runs_ret. }
  cbn [fan_in fan_in_store]. unfold found_total. cbn [fmap list_fmap sum_list sum_list_with].
  fold (found_total env query rest).
  destruct (filtered query (server_search_one env query (key resource))) as [[|r rs]|] eqn:E.
  - destruct (IH first total st) as (first' & log & shown & Hrun & Hlog).
    exists first', (log ++ []), (shown ++ []). split; [|by rewrite app_nil_r].
    eapply runs_bind; [apply runs_searchVideo_settle|]. by rewrite E.
  - destruct (IH true (total + length (r :: rs))
                ((if first then id else with_loading false)
                   (merge_results (attach_resolution env <$> r :: rs) true st)))
      as (first' & log & shown & Hrun & Hlog).
    rewrite <- Nat.add_assoc in Hrun.
    destruct first; (eexists first', _, _; split;
      [ eapply runs_bind; [apply runs_searchVideo_settle|];
        rewrite E; cbn [length Nat.ltb Nat.leb];
        (eapply runs_bind; [by apply runs_processAndSetResults|]);
        (eapply runs_bind; [|apply Hrun]);
        first [apply runs_ret|apply runs_set]
      | by rewrite !searches_app, Hlog, searches_probe_calls ]).
  - destruct (IH first total st) as (first' & log & shown & Hrun & Hlog).
    exists first', (log ++ []), (shown ++ []). split; [|by rewrite app_nil_r].
    eapply runs_bind; [apply runs_searchVideo_settle|]. by rewrite E.
Qed.

(** The end of [init], from a store that has something to show: the final
    check adds no error, and the [finally] block clears the loading flag
    and marks the search as finished. *)
Lemma runs_init_tail (reached_end : bool) st :
  settled st →
  ∃ st' log shown,
    runs signal
      ((if reached_end then final_checks env query else mret tt) ;;
       aborted ← signal_aborted signal;
       if aborted : bool then mret tt
       else set (with_loading false ∘ with_allSourcesLoaded true)) st tt st' log shown
    ∧ searchResults st' = searchResults st
    ∧ sources st' = sources st
    ∧ detail st' = detail st
    ∧ error st' = error st
    ∧ q st' = q st
    ∧ loading st' = false
    ∧ allSourcesLoaded st' = true
    ∧ log = [].
Proof using never_aborted.
  intros Hpre.
  assert ((length (searchResults st) =? 0)%nat && negb (truthy (error st)) = false) as Hskip.
  { destruct Hpre as [Hne| ->]; [|by rewrite andb_false_r].
    by destruct (searchResults st). }
  destruct reached_end; [unfold final_checks|];
    [destruct (detail st) as [d|] eqn:Hd;
       [destruct (FavoriteManager_isFavorited env (source d) (result_id d)) as [b|e] eqn:Hfav|]|];
    (eexists _, _, _; split;
     [ eapply runs_bind;
       [ first
           [ apply runs_ret
           | eapply runs_bind; [apply runs_get|];
             rewrite Hskip, Hd;
             (eapply runs_bind; [apply runs_ret|]);
             try (eapply runs_bind; [by apply runs_suspend|]; rewrite Hfav);
             first [apply runs_set|apply runs_ret] ]
       | eapply runs_bind; [apply runs_signal_aborted|apply runs_set] ]
     | by cbn ]).
Qed.

Lemma runs_standard_protocol allResources st :
  server_resources env = Resolved allResources →
  enabled_resources (videoSource env) allResources ≠ [] →
  ∃ log shown,
    runs signal (standard_protocol env query signal) st true
      ((if (found_total env query
              (settle_order env (enabled_resources (videoSource env) allResources)) =? 0)%nat
        then with_error (Some (msg_all_sources_empty query)) ∘ with_loading false
        else id)
         (fan_in_store env query
            (settle_order env (enabled_resources (videoSource env) allResources)) false st))
      log shown
    ∧ searches log
      = rev ((λ resource, (query, key resource, signal))
               <$> enabled_resources (videoSource env) allResources).
Proof using never_aborted.
  intros Hres Hsome. unfold standard_protocol.
  destruct (runs_fan_in (settle_order env (enabled_resources (videoSource env) allResources))
              false 0 st) as (first' & log & shown & Hrun & Hlog).
  assert ((length (enabled_resources (videoSource env) allResources) =? 0)%nat = false) as Hlen.
  { by destruct (enabled_resources (videoSource env) allResources). }
  destruct (found_total env query _ =? 0)%nat eqn:Hfound;
    (eexists _, _; split;
     [ eapply runs_bind; [by apply runs_api_getResources|];
       rewrite Hres; cbv zeta;
       fold (enabled_resources (videoSource env) allResources);
       rewrite Hlen;
       (eapply runs_bind; [apply runs_issue_all|]);
       (eapply runs_bind; [apply Hrun|]);
       cbv beta iota; cbn [Nat.add]; rewrite Hfound;
       (eapply runs_bind; [|apply runs_ret]);
       first [apply runs_set|apply runs_ret]
     | rewrite !searches_app, Hlog, searches_rev_searchVideo; by rewrite ?app_nil_r ]).
Qed.

End FanOut.

(** X15. The standard protocol, when nobody cancels the session and the
    settings leave at least one provider enabled: [init] searches exactly
    the enabled providers, once each and with the session's signal, and
    ends with the result set made of what each search contributed, in the
    order the searches settled: the results titled as the query, each with
    its resolution attached, less those whose source an earlier candidate
    already has.  A search that fails contributes nothing.  The loading
    flag is cleared and the search marked as finished; the error is the
    "no source found" message when the result set is empty and absent
    otherwise. *)
Theorem init_standard_fan_out (env : Environment) (query : string)
    (preferredSource id : option string) (allResources : list ApiSite) (m : Machine) :
  abort_at env = None →
  truthy preferredSource && truthy id = false →
  server_resources env = Resolved allResources →
  enabled_resources (videoSource env) allResources ≠ [] →
  searchResults (store (init env query preferredSource id m).2)
  = gather env query (settle_order env (enabled_resources (videoSource env) allResources)) []
  ∧ error (store (init env query preferredSource id m).2)
    = match gather env query
              (settle_order env (enabled_resources (videoSource env) allResources)) [] with
      | [] => Some (msg_all_sources_empty query)
      | _ :: _ => None
      end
  ∧ loading (store (init env query preferredSource id m).2) = false
  ∧ allSourcesLoaded (store (init env query preferredSource id m).2) = true
  ∧ ∃ log,
      calls (init env query preferredSource id m).2 = log ++ calls m
      ∧ searches log
        = rev ((λ resource, (query, key resource, length (heap m)))
                 <$> enabled_resources (videoSource env) allResources).
Proof.
  intros Hquiet Hfalsy Hres Hsome. rewrite init_eq.
  set (m1 := (match controller (store m) with
              | Some old => controller_abort old | None => mret tt end m).2).
  assert (calls m1 = calls m ∧ length (heap m1) = length (heap m)) as [Hcalls Hlen].
  { subst m1. destruct (controller (store m)); [|done]. cbn. by rewrite length_insert. }
  set (m2 := (set _ _).2).
  set (settled_order := settle_order env (enabled_resources (videoSource env) allResources)).
  destruct (runs_standard_protocol env Hquiet (length (heap m1)) query allResources (store m2)
              Hres Hsome) as (log1 & shown1 & Hrun1 & Hlog1).
  fold settled_order in Hrun1.
  set (st1 := (if (found_total env query settled_order =? 0)%nat then _ else _) _) in Hrun1.
  destruct (fan_in_store_frame env query settled_order false (store m2))
    as (Herr & _ & _ & Hload & Hsame).
  assert (searchResults st1 = gather env query settled_order []
          ∧ error st1 = match gather env query settled_order [] with
                        | [] => Some (msg_all_sources_empty query)
                        | _ :: _ => None
                        end) as [Hres1 Herr1].
  { subst st1. destruct (found_total env query settled_order =? 0)%nat eqn:Hfound.
    - apply Nat.eqb_eq in Hfound. rewrite (found_total_0 env query settled_order Hfound).
      by rewrite (Hsame Hfound).
    - apply Nat.eqb_neq in Hfound. cbn [Datatypes.id].
      rewrite searchResults_fan_in_store, Herr.
      pose proof (found_total_pos env query settled_order Hfound).
      change (searchResults (store m2)) with (@nil SearchResult).
      change (error (store m2)) with (@None string).
      by destruct (gather env query settled_order []). }
  destruct (runs_init_tail env Hquiet (length (heap m1)) query true st1)
    as (st' & log2 & shown2 & Hrun2 & Hres2 & _ & _ & Herr2 & _ & Hload2 & Hdone2 & ->).
  { unfold settled. rewrite Hres1, Herr1. destruct (gather env query settled_order []); auto. }
  assert (runs (length (heap m1))
            (init_after_reset env query preferredSource id (length (heap m1)))
            (store m2) tt st' ([] ++ log1) (shown2 ++ shown1)) as Hrun.
  { unfold init_after_reset. rewrite Hfalsy.
    eapply runs_bind; [apply Hrun1|apply Hrun2]. }
  destruct (Hrun m2 eq_refl) as (_ & Hst & _ & Hlog & _).
  { subst m2. cbn. by apply list_lookup_middle. }
  rewrite Hst, Hres2, Herr2, Hres1, Herr1.
  repeat split; try done.
  exists log1. rewrite Hlog, <- Hlen. split; [|done]. subst m2. cbn. by rewrite Hcalls.
Qed.

Lemma init_standard_fan_out_witness :
  source <$> searchResults (store (init two_sites_env "X" None None initial_machine).2)
  = ["B"]
  ∧ error (store (init two_sites_env "X" None None initial_machine).2) = None.
Proof.
  destruct (init_standard_fan_out two_sites_env "X" None None
              [site "A"; site "B"; site "C"] initial_machine)
    as (Hres & Herr & _); [reflexivity|reflexivity|reflexivity|by vm_compute|].
  rewrite Hres, Herr. by vm_compute.
Defined.

(** ** The other endings of [init] *)

Section Branches.
Variable env : Environment.
Hypothesis never_aborted : abort_at env = None.
Variable signal : nat.
Variable query : string.

Lemma runs_standard_protocol_rejected message st :
  server_resources env = Rejected message →
  runs signal (standard_protocol env query signal) st false
       ((with_error (Some (msg_resources_failed message)) ∘ with_loading false) st)
       [call_getResources signal]
       [(with_error (Some (msg_resources_failed message)) ∘ with_loading false) st].
Proof using never_aborted.
  intros Hres. unfold standard_protocol.
  eapply runs_weaken;
    [ eapply runs_bind; [by apply runs_api_getResources|];
      rewrite Hres;
      eapply runs_bind; [apply runs_set|apply runs_ret]
    | reflexivity.. ].
Qed.


End Branches.

(** A session that nobody cancels, from the run of its protocol to the end
    of [init]. *)
Lemma init_quiet_run env query p i m reached_end st1 log1 shown1 :
  abort_at env = None →
  runs (length (heap m))
       (if truthy p && truthy i
        then preferred_protocol env query (default "" p) (length (heap m))
        else standard_protocol env query (length (heap m)))
       (reset query (length (heap m)) (store m)) reached_end st1 log1 shown1 →
  settled st1 →
  searchResults (store (init env query p i m).2) = searchResults st1
  ∧ sources (store (init env query p i m).2) = sources st1
  ∧ detail (store (init env query p i m).2) = detail st1
  ∧ error (store (init env query p i m).2) = error st1
  ∧ loading (store (init env query p i m).2) = false
  ∧ allSourcesLoaded (store (init env query p i m).2) = true
  ∧ calls (init env query p i m).2 = log1 ++ calls m.
Proof.
  intros Hquiet Hrun1 Hsettled. rewrite init_eq.
  set (m1 := (match controller (store m) with
              | Some old => controller_abort old | None => mret tt end m).2).
  assert (calls m1 = calls m ∧ length (heap m1) = length (heap m) ∧ store m1 = store m)
    as (Hcalls & Hlen & Hstore).
  { subst m1. destruct (controller (store m)); [|done]. cbn. by rewrite length_insert. }
  set (m2 := (set _ _).2).
  rewrite <- Hlen in Hrun1.
  destruct (runs_init_tail env Hquiet (length (heap m1)) query reached_end st1 Hsettled)
    as (st' & log2 & shown2 & Hrun2 & Hres2 & Hsrc2 & Hdet2 & Herr2 & _ & Hload2 & Hdone2 & ->).
  assert (runs (length (heap m1)) (init_after_reset env query p i (length (heap m1)))
            (store m2) tt st' ([] ++ log1) (shown2 ++ shown1)) as Hrun.
  { unfold init_after_reset.
    eapply runs_bind; [|apply Hrun2].
    replace (store m2) with (reset query (length (heap m1)) (store m)); [done|].
    subst m2. unfold set, new_AbortController. cbn [store snd fst]. by rewrite Hstore. }
  destruct (Hrun m2 eq_refl) as (_ & Hst & _ & Hlog & _).
  { subst m2. cbn. by apply list_lookup_middle. }
  rewrite Hst, Hlog. repeat split; try done. subst m2. cbn. by rewrite Hcalls.
Qed.

(** X16. The standard protocol, when nobody cancels the session and the
    request for the provider catalogue fails: [init] asks no provider, and
    ends with the "failed to get the video sources" error that carries the
    message of the failure, an empty result set, the loading flag cleared
    and the search marked as finished. *)
Theorem init_resources_failed (env : Environment) (query : string)
    (preferredSource id : option string) (message : string) (m : Machine) :
  abort_at env = None →
  truthy preferredSource && truthy id = false →
  server_resources env = Rejected message →
  error (store (init env query preferredSource id m).2)
  = Some (msg_resources_failed message)
  ∧ searchResults (store (init env query preferredSource id m).2) = []
  ∧ loading (store (init env query preferredSource id m).2) = false
  ∧ allSourcesLoaded (store (init env query preferredSource id m).2) = true
  ∧ calls (init env query preferredSource id m).2
    = call_getResources (length (heap m)) :: calls m.
Proof.
  intros Hquiet Hfalsy Hres.
  pose proof (init_quiet_run env query preferredSource id m) as Hinit.
  rewrite Hfalsy in Hinit.
  destruct (Hinit _ _ _ _ Hquiet
              (runs_standard_protocol_rejected env Hquiet _ query message _ Hres))
    as (Hres' & _ & _ & Herr & Hload & Hdone & Hcalls); [by right|].
  by rewrite Hres', Herr, Hload, Hdone, Hcalls.
Qed.

Lemma init_resources_failed_witness :
  error (store (init down_env "X" None None initial_machine).2)
  = Some "获取视频源失败：HTTP error! status: 502".
Proof.
  by destruct (init_resources_failed down_env "X" None None "HTTP error! status: 502"
                 initial_machine) as (-> & _).
Defined.

(** X17. The preferred-source protocol, when nobody cancels the session, the
    preferred source finds nothing and the all-sources search fails:
    [init] ends with the "search failed" error that carries the message of
    the failure, an empty result set, the loading flag cleared and the
    search marked as finished, after exactly these two searches. *)
Theorem init_fallback_failed (env : Environment) (query preferredSource id : string)
    (message : string) (m : Machine) :
  abort_at env = None →
  truthy (Some preferredSource) && truthy (Some id) = true →
  preferred_empty env query preferredSource →
  server_search_all env query = Rejected message →
  error (store (init env query (Some preferredSource) (Some id) m).2)
  = Some (msg_search_failed message)
  ∧ searchResults (store (init env query (Some preferredSource) (Some id) m).2) = []
  ∧ loading (store (init env query (Some preferredSource) (Some id) m).2) = false
  ∧ allSourcesLoaded (store (init env query (Some preferredSource) (Some id) m).2) = true
  ∧ calls (init env query (Some preferredSource) (Some id) m).2
    = call_searchVideos query
      :: call_searchVideo query preferredSource (length (heap m)) :: calls m.
Proof.
  intros Hquiet Htruthy Hpref Hall. unfold fallback_failed_store in *.
  pose proof (init_quiet_run env query (Some preferredSource) (Some id) m) as Hinit.
  rewrite Htruthy in Hinit.
  destruct (Hinit _ _ _ _ Hquiet
              (runs_preferred_fallback_rejected env Hquiet _ query preferredSource message _
                 Hpref Hall))
    as (Hres' & _ & _ & Herr & Hload & Hdone & Hcalls); [by right|].
  by rewrite Hres', Herr, Hload, Hdone, Hcalls.
Qed.

Lemma init_fallback_failed_witness :
  error (store (init down_env "X" (Some "A") (Some "1") initial_machine).2)
  = Some "搜索失败：HTTP error! status: 502".
Proof.
  by destruct (init_fallback_failed down_env "X" "A" "1" "HTTP error! status: 502"
                 initial_machine) as (-> & _).
Defined.



(** ** The range of the video score *)

Section ScoreRange.
Local Open Scope Q_scope.
#[local] Opaque to_number.

(** The score of a measurement whose speed and ping scores are numbers. *)
Lemma calculateVideoScore_number v :
  speedScore (loadSpeed v) ≠ NaN → pingTime v ≠ NaN →
  ∃ s, calculateVideoScore v = Num s ∧ 8 <= s <= 100.
Proof.
  intros Hspeed Hping. rewrite calculateVideoScore_eq.
  destruct (speedScore_cases (loadSpeed v)) as [[? _]|[? ?]]; [done|].
  destruct (pingScore_cases (pingTime v)) as [[? _]|(_ & ? & ?)]; [done|].
  apply score_of_range; try done. apply qualityScore_range.
Qed.

(** X20. The video score, when it is a number, lies between 8 and 100; it
    is never infinite. *)
Theorem calculateVideoScore_range (v : VideoInfo) :
  match calculateVideoScore v with
  | Num s => 8 <= s <= 100
  | NaN => True
  | Infinity _ => False
  end.
Proof.
  destruct (speedScore_cases (loadSpeed v)) as [[Hs _]|[Hs _]].
  { by rewrite calculateVideoScore_eq, Hs, score_of_NaN_speed. }
  destruct (pingScore_cases (pingTime v)) as [[_ Hp]|[Hp _]].
  { by rewrite calculateVideoScore_eq, Hp, score_of_NaN_ping. }
  destruct (calculateVideoScore_number v) as (s & -> & ?); [|done..].
  by eapply num_le_not_NaN.
Qed.

End ScoreRange.

Section ScoreNaN.
#[local] Opaque to_number.

Lemma is_dot_not_digit c : is_dot c = true → is_digit c = false.
Proof.
  unfold is_dot, is_digit. intros H%Nat.eqb_eq. rewrite H. reflexivity.
Qed.

Lemma speedScore_NaN_iff label :
  speedScore label = NaN
  ↔ ∃ magnitude unit, match_speed label = Some (magnitude, unit) ∧ parseFloat magnitude = NaN.
Proof.
  split.
  - destruct (speedScore_cases label) as [[_ ?]|[H _]]; [done|].
    intros E. rewrite E in H. done.
  - intros (magnitude & unit & Hm & Hp). unfold speedScore.
    destruct (_ || _) eqn:Hspecial.
    + apply orb_true_iff in Hspecial as [->%String.eqb_eq| ->%String.eqb_eq];
        by vm_compute in Hm.
    + rewrite Hm, Hp. by destruct (String.eqb unit "MB/s").
Qed.

Lemma parseFloat_NaN_iff c a :
  (is_digit c || is_dot c) = true →
  parseFloat (String c a) = NaN
  ↔ is_dot c = true ∧ match a with
                       | String d _ => is_digit d = false
                       | EmptyString => True
                       end.
Proof.
  intros Hc. unfold parseFloat. cbn [span].
  destruct (is_digit c) eqn:Hdigit.
  - destruct (span is_digit a) as [x y]. cbn [String.eqb andb].
    split; [by intros ?%to_number_not_NaN|].
    intros [Hdot _]. apply is_dot_not_digit in Hdot. congruence.
  - cbn in Hc. rewrite Hc. cbn [String.eqb andb fst].
    destruct a as [|d a']; [by cbn|]. cbn [span].
    destruct (is_digit d); [|by cbn].
    destruct (span is_digit a') as [x y]. cbn [String.eqb andb fst].
    split; [by intros ?%to_number_not_NaN|by intros [_ ?]].
Qed.

(** X21. The video score is not a number exactly when the latency is not
    one, or the load-speed label matches the scorer's pattern and starts
    with a dot that no digit follows (["."], [".MB/s"], ["..5 KB/s"]);
    every other measurement gives a number. *)
Theorem calculateVideoScore_NaN_iff (v : VideoInfo) :
  calculateVideoScore v = NaN
  ↔ pingTime v = NaN
    ∨ (is_Some (match_speed (loadSpeed v)) ∧ starts_with_bare_dot (loadSpeed v) = true).
Proof.
  assert (calculateVideoScore v = NaN
          ↔ pingTime v = NaN ∨ speedScore (loadSpeed v) = NaN) as ->.
  { split.
    - intros HNaN.
      destruct (pingScore_cases (pingTime v)) as [[? _]|[Hp _]]; [by left|]. right.
      destruct (speedScore_cases (loadSpeed v)) as [[? _]|[Hs _]]; [done|].
      destruct (calculateVideoScore_number v) as (s & E & _); [|done|congruence].
      by eapply num_le_not_NaN.
    - rewrite calculateVideoScore_eq. intros [Hp| ->]; [|apply score_of_NaN_speed].
      rewrite Hp. apply score_of_NaN_ping. }
  apply or_iff_compat_l.
  rewrite speedScore_NaN_iff. generalize (loadSpeed v). clear v. intros label.
  unfold match_speed, starts_with_bare_dot.
  destruct label as [|c l'].
  { cbn. split; [by intros (? & ? & ? & _)|by intros [_ ?]]. }
  cbn [span]. destruct (is_digit c || is_dot c) eqn:Hc.
  2: { cbn. split; [by intros (? & ? & ? & _)|].
       intros [_ [Hdot _]%andb_true_iff]. by rewrite Hdot, orb_true_r in Hc. }
  destruct (span (λ c0, is_digit c0 || is_dot c0) l') as [a b] eqn:Hspan.
  cbn [String.eqb].
  assert (match a with String d _ => is_digit d = false | EmptyString => True end
          ↔ match l' with String d _ => is_digit d = false | EmptyString => True end) as Hsecond.
  { destruct l' as [|d l'']; cbn [span] in Hspan; [by injection Hspan as <- <-|].
    destruct (is_digit d || is_dot d) eqn:Hd.
    - destruct (span _ l'') as [a' b']. by injection Hspan as <- <-.
    - injection Hspan as <- <-. apply orb_false_iff in Hd as [Hd _]. by rewrite Hd. }
  destruct (String.eqb (skip_spaces b) "KB/s" || String.eqb (skip_spaces b) "MB/s")
    eqn:Hunit.
  - split.
    + intros (magnitude & unit & [= <- <-] & Hp).
      apply (parseFloat_NaN_iff c a Hc) in Hp as [Hdot Ha]. split; [by eexists|].
      rewrite Hdot. cbn. apply Hsecond in Ha.
      destruct l' as [|d l'']; [done|]. by rewrite Ha.
    + intros [_ [Hdot Hl]%andb_true_iff]. eexists _, _. split; [done|].
      apply (parseFloat_NaN_iff c a Hc). split; [done|]. apply Hsecond.
      destruct l' as [|d l'']; [done|]. by apply negb_true_iff in Hl.
  - split; [by intros (? & ? & ? & _)|]. by intros [[? ?] _].
Qed.

End ScoreNaN.

(** ** The API client *)

Section Fetch.
Variable this : API.t.
Variable net : Request → Exchange.
Variable verb path : string.
Variable payload : option Json.

(** X22. [_fetch] hands back a response exactly when a base URL is set and
    the request is answered, before any abort, with a status between 200
    and 299, and then it hands back that answer; it never rejects with an
    [AbortError], whoever aborted the request; and a client as the
    constructor makes it has a base URL, whatever it is given. *)
Theorem fetch_succeeds_on_2xx_only (signal : option AbortSignal) (timeout : nat) :
  (∀ given, API.baseURL (API.new given) ≠ "")
  ∧ (∀ response,
     API._fetch this net verb path payload signal timeout = Fulfilled response
     ↔ API.baseURL this ≠ ""
       ∧ fetch (net {| method := verb; url := API.baseURL this +:+ path; body := payload |})
               (default (Some timeout) signal) = Fulfilled response
       ∧ (200 ≤ status response ≤ 299)%nat)
  ∧ (∀ error,
       API._fetch this net verb path payload signal timeout = Thrown error →
       error_name error ≠ "AbortError").
Proof.
  split.
  { intros [url|]; [|done]. cbn. by destruct (String.eqb_spec url ""). }
  unfold API._fetch. split.
  - intros response.
    destruct (String.eqb_spec (API.baseURL this) "") as [Hbase|Hbase]; [by split; [|intros []]|].
    cbv zeta. destruct (fetch _ _) as [r|e].
    + assert (ok r = true ↔ (200 ≤ status r ≤ 299)%nat) as Hok.
      { unfold ok. rewrite andb_true_iff, !Nat.leb_le. done. }
      destruct (status r =? 401)%nat eqn:H401.
      * apply Nat.eqb_eq in H401. cbn. split; [done|]. intros (_ & [= ->] & ?). lia.
      * destruct (ok r) eqn:Hokr; cbn.
        -- split; [intros [= ->]|by intros (_ & ? & _)]. split; [done|]. split; [done|].
           by apply Hok.
        -- split; [done|]. intros (_ & [= ->] & Hr). apply Hok in Hr. done.
    + destruct (String.eqb (error_name e) "AbortError"); split; try done; by intros (_ & ? & _).
  - intros error.
    destruct (String.eqb_spec (API.baseURL this) "") as [Hbase|Hbase]; [by intros [= <-]|].
    cbv zeta. destruct (fetch _ _) as [r|e].
    + destruct (status r =? 401)%nat; [by intros [= <-]|].
      destruct (ok r); [done|by intros [= <-]].
    + destruct (String.eqb_spec (error_name e) "AbortError"); [by intros [= <-]|].
      by intros [= <-].
Qed.

(** X23. Given the caller's signal, [_fetch] is not bound by its timeout:
    whatever the timeout, the outcome is the same.  Given none, a request
    that is not answered within the timeout fails with the error "Request
    timeout". *)
Theorem fetch_timeout_needs_no_signal :
  (∀ signal timeout1 timeout2,
     API._fetch this net verb path payload (Some signal) timeout1
     = API._fetch this net verb path payload (Some signal) timeout2)
  ∧ (∀ timeout,
       API.baseURL this ≠ "" →
       (timeout ≤ latency (net {| method := verb; url := API.baseURL this +:+ path;
                                  body := payload |}))%nat →
       API._fetch this net verb path payload None timeout = Thrown (Error "Request timeout")).
Proof.
  split; [done|]. intros timeout Hbase Hlate. unfold API._fetch.
  destruct (String.eqb_spec (API.baseURL this) ""); [done|]. cbn.
  apply Nat.leb_le in Hlate. by rewrite Hlate.
Qed.

End Fetch.

Lemma fetch_timeout_needs_no_signal_witness :
  API._fetch (API.new None)
    (λ _, {| latency := 20; reply := Thrown (Error "Network request failed") |})
    "GET" "/api/server-config" None None 5
  = Thrown (Error "Request timeout").
Proof.
  apply (proj2 (fetch_timeout_needs_no_signal (API.new None)
                  (λ _, {| latency := 20; reply := Thrown (Error "Network request failed") |})
                  "GET" "/api/server-config" None)); [done|cbn; lia].
Defined.

Section Urls.

Lemma unhex_hex_digit n : n < 16 → unhex (API.hex_digit n) = n.
Proof. intros Hn. do 16 (destruct n as [|n]; [reflexivity|]). lia. Qed.

Lemma unreserved_not_percent c : API.is_unreserved c = true → Ascii.eqb c "%" = false.
Proof.
  intros Hc. destruct (Ascii.eqb_spec c "%") as [->|]; [|done]. by vm_compute in Hc.
Qed.

Lemma percent_decode_encode s : percent_decode (API.encodeURIComponent s) = s.
Proof.
  induction s as [|c s IH]; [done|]. cbn [API.encodeURIComponent].
  destruct (API.is_unreserved c) eqn:Hc.
  - cbn [percent_decode]. by rewrite (unreserved_not_percent c Hc), IH.
  - cbn [percent_decode]. rewrite Ascii.eqb_refl, IH. f_equal.
    pose proof (nat_ascii_bounded c) as Hb.
    rewrite !unhex_hex_digit.
    + rewrite <- (Nat.div_mod_eq (nat_of_ascii c) 16). apply ascii_nat_embedding.
    + apply Nat.mod_upper_bound. lia.
    + apply Nat.Div0.div_lt_upper_bound. lia.
Qed.

Lemma encodeURIComponent_inj s1 s2 :
  API.encodeURIComponent s1 = API.encodeURIComponent s2 → s1 = s2.
Proof.
  intros H. by rewrite <- (percent_decode_encode s1), H, percent_decode_encode.
Qed.

Lemma hex_digit_not_separator n c :
  n < 16 → c ∈ ["&"; "="; "?"; "#"; "/"; " "; "+"]%char →
  Ascii.eqb c (API.hex_digit n) = false.
Proof.
  intros Hn Hc.
  do 16 (destruct n as [|n];
         [by repeat (apply elem_of_cons in Hc as [->|Hc]; [done|]);
             apply elem_of_nil in Hc|]).
  lia.
Qed.

(** An encoded component holds none of the characters that structure a
    query string. *)
Lemma encodeURIComponent_no_separator s c :
  c ∈ ["&"; "="; "?"; "#"; "/"; " "; "+"]%char →
  occurs c (API.encodeURIComponent s) = false.
Proof.
  intros Hc. induction s as [|d s IH]; [done|]. cbn [API.encodeURIComponent].
  pose proof (nat_ascii_bounded d) as Hb.
  destruct (API.is_unreserved d) eqn:Hd; cbn [occurs]; rewrite IH.
  - destruct (Ascii.eqb_spec c d) as [->|]; [|done].
    repeat (apply elem_of_cons in Hc as [->|Hc]; [by vm_compute in Hd|]).
    by apply elem_of_nil in Hc.
  - rewrite !hex_digit_not_separator; try done.
    + rewrite !orb_false_r.
      repeat (apply elem_of_cons in Hc as [->|Hc]; [done|]). by apply elem_of_nil in Hc.
    + apply Nat.mod_upper_bound. lia.
    + apply Nat.Div0.div_lt_upper_bound. lia.
Qed.

Lemma append_inj_l (p a b : string) : p +:+ a = p +:+ b → a = b.
Proof. induction p as [|c p IH]; [done|]. cbn. intros [= H]. by apply IH. Qed.

Lemma string_append_assoc (a b c : string) : (a +:+ b) +:+ c = a +:+ b +:+ c.
Proof.
  induction a as [|x a IH]; [done|].
  change (String x ((a +:+ b) +:+ c) = String x (a +:+ b +:+ c)). by rewrite IH.
Qed.

Lemma string_append_length (a b : string) :
  String.length (a +:+ b) = String.length a + String.length b.
Proof.
  induction a as [|x a IH]; [done|].
  change (S (String.length (a +:+ b)) = S (String.length a + String.length b)).
  by rewrite IH.
Qed.

(** Two strings free of [c], each followed by [c] and more, that make the
    same string are the same, and so is what follows. *)
Lemma split_at_first c a1 a2 x1 x2 :
  occurs c a1 = false → occurs c a2 = false →
  a1 +:+ String c x1 = a2 +:+ String c x2 → a1 = a2 ∧ x1 = x2.
Proof.
  revert a2. induction a1 as [|d a1 IH]; intros [|e a2] H1 H2; cbn.
  - by intros [= ->].
  - intros [= <- _]. cbn in H2. by rewrite Ascii.eqb_refl in H2.
  - intros [= -> _]. cbn in H1. by rewrite Ascii.eqb_refl in H1.
  - intros [= <- H]. cbn in H1, H2. apply orb_false_iff in H1 as [_ H1], H2 as [_ H2].
    destruct (IH a2 H1 H2 H) as [-> ->]. done.
Qed.

(** X24. The URLs of the two searches determine their arguments: different
    queries, or different providers, never share a URL, whatever
    characters they hold; and the URL of a keyed request to the favourites
    or the play records determines its key, an absent and an empty key
    alone sharing the URL of the whole collection. *)
Theorem search_urls_determine_arguments :
  (∀ q1 q2, API.searchVideos_url q1 = API.searchVideos_url q2 → q1 = q2)
  ∧ (∀ q1 r1 q2 r2,
       API.searchVideo_url q1 r1 = API.searchVideo_url q2 r2 → q1 = q2 ∧ r1 = r2)
  ∧ (∀ k1 k2,
       API.getFavorites_url k1 = API.getFavorites_url k2 →
       truthy k1 = truthy k2 ∧ (truthy k1 = true → k1 = k2))
  ∧ (∀ k1 k2,
       API.deletePlayRecord_url k1 = API.deletePlayRecord_url k2 →
       truthy k1 = truthy k2 ∧ (truthy k1 = true → k1 = k2)).
Proof.
  assert (∀ prefix collection k1 k2,
            collection +:+ "?key=" = prefix →
            (if truthy k1 then prefix +:+ API.encodeURIComponent (default "" k1)
             else collection)
            = (if truthy k2 then prefix +:+ API.encodeURIComponent (default "" k2)
               else collection) →
            truthy k1 = truthy k2 ∧ (truthy k1 = true → k1 = k2)) as Hkeyed.
  { intros prefix collection k1 k2 <-.
    assert (∀ x, (collection +:+ "?key=") +:+ x ≠ collection) as Hne.
    { intros x H. apply (f_equal String.length) in H.
      rewrite !string_append_length in H. cbn in H. lia. }
    destruct (truthy k1) eqn:H1, (truthy k2) eqn:H2; try done.
    - intros H%append_inj_l%encodeURIComponent_inj. split; [done|]. intros _.
      destruct k1 as [s1|], k2 as [s2|]; try done. cbn in H. by subst.
    - intros H. by apply Hne in H.
    - intros H. symmetry in H. by apply Hne in H. }
  split; [|split; [|split]].
  - intros q1 q2 H%append_inj_l. by apply encodeURIComponent_inj.
  - intros q1 r1 q2 r2. unfold API.searchVideo_url. intros H%append_inj_l.
    change ("&resourceId=" +:+ ?x) with (String "&" ("resourceId=" +:+ x)) in H.
    apply split_at_first in H as [H1 H2];
      [|apply encodeURIComponent_no_separator; constructor..].
    apply append_inj_l in H2. by split; apply encodeURIComponent_inj.
  - intros k1 k2. by apply (Hkeyed "/api/favorites?key=" "/api/favorites").
  - intros k1 k2. by apply (Hkeyed "/api/playrecords?key=" "/api/playrecords").
Qed.

(** X25. [getVideoDetail] and [deleteSearchHistory] put their arguments into
    the URL as they are: a source that ends in ["&id=" ++ i] with the id
    [j] asks for the same URL as that source cut short with the id
    [i ++ "&id=" ++ j], and a keyword may bring parameters of its own. *)
Theorem raw_urls_do_not_separate_arguments :
  (∀ source i j,
     API.getVideoDetail_url (source +:+ "&id=" +:+ i) j
     = API.getVideoDetail_url source (i +:+ "&id=" +:+ j))
  ∧ (∀ keyword extra,
       keyword ≠ "" →
       API.deleteSearchHistory_url (Some (keyword +:+ "&" +:+ extra))
       = API.deleteSearchHistory_url (Some keyword) +:+ "&" +:+ extra).
Proof.
  split.
  - intros source i j. unfold API.getVideoDetail_url. by rewrite !string_append_assoc.
  - intros keyword extra Hne. unfold API.deleteSearchHistory_url.
    assert (truthy (Some keyword) = true) as ->.
    { cbn. by destruct (String.eqb_spec keyword ""). }
    assert (truthy (Some (keyword +:+ "&" +:+ extra)) = true) as ->.
    { cbn. destruct keyword; [done|]. done. }
    cbn [default]. by rewrite !string_append_assoc.
Qed.

Lemma raw_urls_do_not_separate_arguments_witness :
  API.deleteSearchHistory_url (Some ("old" +:+ "&" +:+ "keyword=new"))
  = API.deleteSearchHistory_url (Some "old") +:+ "&" +:+ "keyword=new".
Proof. by apply (proj2 raw_urls_do_not_separate_arguments "old" "keyword=new"). Defined.

End Urls.

(** ** The auth store *)

Section AuthStore.

Lemma fetch_Fulfilled_inv this net verb path payload signal timeout response :
  API._fetch this net verb path payload signal timeout = Fulfilled response →
  ok response = true
  ∧ fetch (net {| method := verb; url := API.baseURL this +:+ path; body := payload |})
          (default (Some timeout) signal) = Fulfilled response.
Proof.
  unfold API._fetch. destruct (String.eqb (API.baseURL this) ""); [done|]. cbv zeta.
  destruct (fetch _ _) as [r|e].
  - destruct (status r =? 401)%nat; [done|]. destruct (ok r) eqn:Hok; [|done].
    cbn. by intros [= <-].
  - by destruct (String.eqb (error_name e) "AbortError").
Qed.

Lemma fetch_reply exchange signal response :
  fetch exchange signal = Fulfilled response → reply exchange = Fulfilled response.
Proof.
  unfold fetch. destruct signal as [t|]; [|done]. by destruct (t <=? latency exchange)%nat.
Qed.

Lemma offline_fetch world n verb path payload signal timeout :
  offline world →
  ∃ error, API._fetch (client world) (requests world n) verb path payload signal timeout
           = Thrown error.
Proof.
  intros Hoff. destruct (API._fetch _ _ _ _ _ _ _) as [response|error] eqn:E; [|eauto].
  apply fetch_Fulfilled_inv in E as [Hok E%fetch_reply].
  apply Hoff in E. congruence.
Qed.

Lemma offline_login world n username password storage :
  offline world →
  ∃ error, API.login (client world) (requests world n) username password storage
           = (Thrown error, storage).
Proof.
  intros Hoff. unfold API.login.
  destruct (offline_fetch world n "POST" "/api/login"
              (Some (API.login_body username password)) None API.default_timeout Hoff)
    as [error ->]. eauto.
Qed.

Lemma offline_getServerConfig world n :
  offline world →
  ∃ error, API.getServerConfig (client world) (requests world n) = Thrown error.
Proof.
  intros Hoff. unfold API.getServerConfig.
  destruct (offline_fetch world n "GET" "/api/server-config" None None API.default_timeout Hoff)
    as [error ->]. eauto.
Qed.

(** X26. While no request is answered with a status between 200 and 299,
    [checkLoginStatus] never logs the user in: it ends with the user
    logged out, or leaves the state of the store as it found it.  Without
    a base URL, absent or empty, it ends with the user logged out and the
    login dialog closed, and touches nothing else. *)
Theorem checkLoginStatus_offline (world : AuthWorld) (apiBaseUrl : option string)
    (st : AuthState) (storage : AsyncStorage) :
  offline world →
  (isLoggedIn (auth (checkLoginStatus world apiBaseUrl st storage)) = false
   ∨ auth (checkLoginStatus world apiBaseUrl st storage) = st)
  ∧ checkLoginStatus world None st storage
    = {| auth := {| isLoggedIn := false; isLoginModalVisible := false |};
         storage_after := storage; toasts := []; polls := 0 |}
  ∧ checkLoginStatus world (Some "") st storage
    = {| auth := {| isLoggedIn := false; isLoginModalVisible := false |};
         storage_after := storage; toasts := []; polls := 0 |}.
Proof.
  intros Hoff. split; [|done]. unfold checkLoginStatus.
  destruct (negb (truthy apiBaseUrl)); [by left|]. cbv zeta.
  destruct (if _ && _ then _ else _) as [settingsState|error];
    [|left; unfold on_unexpected; cbn; by destruct (String.eqb _ _)].
  destruct (if isLoadingServerConfig settingsState then _ else _) as [config n].
  destruct (negb (has_StorageType config)); [by right|].
  unfold check_token. cbv zeta.
  destruct (negb (truthy (storage !! "authCookies"))).
  - destruct (match config with Some c => _ | None => false end); [|by left].
    destruct (offline_login world 0 None None storage Hoff) as [error ->]. by left.
  - destruct (offline_getServerConfig world 0 Hoff) as [error ->].
    destruct (LoginCredentialsManager_get world) as [[[username password]|]|error'];
      [|by left|left; unfold on_unexpected; cbn; by destruct (String.eqb _ _)].
    destruct (offline_login world 1 (Some username) (Some password) storage Hoff)
      as [error' ->]. by left.
Qed.

Lemma checkLoginStatus_offline_witness :
  isLoggedIn (auth (checkLoginStatus (answering 500) (Some "https://tv.example.org")
                      {| isLoggedIn := true; isLoginModalVisible := false |}
                      {[ "authCookies" := "sid=1" ]})) = false
  ∨ auth (checkLoginStatus (answering 500) (Some "https://tv.example.org")
            {| isLoggedIn := true; isLoginModalVisible := false |}
            {[ "authCookies" := "sid=1" ]})
    = {| isLoggedIn := true; isLoginModalVisible := false |}.
Proof.
  apply (checkLoginStatus_offline (answering 500) (Some "https://tv.example.org")
           {| isLoggedIn := true; isLoginModalVisible := false |}
           {[ "authCookies" := "sid=1" ]}).
  intros n request response [= <-]. reflexivity.
Defined.

(** X27. [checkLoginStatus] opens the login dialog only for a user it leaves
    logged out: when it ends with the dialog open and the user logged in,
    the dialog was open before the call. *)
Theorem checkLoginStatus_modal_means_logged_out (world : AuthWorld)
    (apiBaseUrl : option string) (st : AuthState) (storage : AsyncStorage) :
  isLoginModalVisible (auth (checkLoginStatus world apiBaseUrl st storage)) = true →
  isLoggedIn (auth (checkLoginStatus world apiBaseUrl st storage)) = false
  ∨ isLoginModalVisible st = true.
Proof.
  unfold checkLoginStatus.
  destruct (negb (truthy apiBaseUrl)); [by left|]. cbv zeta.
  destruct (if _ && _ then _ else _) as [settingsState|error];
    [|intros _; left; unfold on_unexpected; cbn; by destruct (String.eqb _ _)].
  destruct (if isLoadingServerConfig settingsState then _ else _) as [config n].
  destruct (negb (has_StorageType config)); [by right|].
  unfold check_token. cbv zeta.
  destruct (negb (truthy (storage !! "authCookies"))).
  - destruct (match config with Some c => _ | None => false end); [|by left].
    destruct (API.login _ _ _ _ _) as [[result|error] storage']; [|by left].
    cbn. destruct (login_ok result); cbn; auto.
  - destruct (API.getServerConfig _ _) as [?|?]; [done|].
    destruct (LoginCredentialsManager_get world) as [[[username password]|]|error'];
      [|by left|intros _; left; unfold on_unexpected; cbn; by destruct (String.eqb _ _)].
    destruct (API.login _ _ _ _ _) as [[result|error'] storage']; [|by left].
    destruct (login_ok result); [|by left].
    destruct (API.getServerConfig _ _) as [?|?]; [done|by left].
Qed.

Lemma checkLoginStatus_modal_witness :
  isLoggedIn (auth (checkLoginStatus (answering 500) (Some "https://tv.example.org")
                      initial_auth ∅)) = false
  ∨ isLoginModalVisible initial_auth = true.
Proof.
  apply (checkLoginStatus_modal_means_logged_out (answering 500)
           (Some "https://tv.example.org") initial_auth ∅).
  by vm_compute.
Defined.

(** X28. A cookie that the server no longer accepts does not stay: when a
    cookie is stored, the settings store holds a server configuration with
    a storage type, and the saved credentials can be read, [checkLoginStatus]
    either ends with the user logged in and the dialog closed, or removes
    the cookie from the storage and ends with the user logged out and the
    dialog open. *)
Theorem checkLoginStatus_drops_stale_cookie (world : AuthWorld) (apiBaseUrl : option string)
    (st : AuthState) (storage : AsyncStorage) (storageType : string)
    (savedCredentials : option (string * string)) :
  truthy apiBaseUrl = true →
  configured world storageType →
  truthy (storage !! "authCookies") = true →
  LoginCredentialsManager_get world = Fulfilled savedCredentials →
  auth (checkLoginStatus world apiBaseUrl st storage)
  = {| isLoggedIn := true; isLoginModalVisible := false |}
  ∨ (auth (checkLoginStatus world apiBaseUrl st storage)
     = {| isLoggedIn := false; isLoginModalVisible := true |}
     ∧ storage_after (checkLoginStatus world apiBaseUrl st storage) !! "authCookies" = None).
Proof.
  intros Hurl (siteName & Hsettings & Htype) Htoken Hcred.
  unfold checkLoginStatus. rewrite Hurl, Hsettings. cbn [negb serverConfig present andb
    isLoadingServerConfig has_StorageType StorageType].
  destruct (String.eqb_spec storageType "") as [|_]; [done|]. cbn [negb].
  unfold check_token. cbv zeta. rewrite Htoken, Hcred. cbn [negb].
  destruct (API.getServerConfig _ _) as [?|?]; [by left|].
  destruct savedCredentials as [[username password]|];
    [|right; split; [done|apply lookup_delete_eq]].
  destruct (API.login _ _ _ _ _) as [[result|error'] storage'];
    [|right; split; [done|apply lookup_delete_eq]].
  destruct (login_ok result); [|right; split; [done|apply lookup_delete_eq]].
  destruct (API.getServerConfig _ _) as [?|?]; [by left|].
  right; split; [done|apply lookup_delete_eq].
Qed.

Lemma checkLoginStatus_drops_stale_cookie_witness :
  auth (checkLoginStatus (answering 401) (Some "https://tv.example.org") initial_auth
          {[ "authCookies" := "sid=1" ]})
  = {| isLoggedIn := false; isLoginModalVisible := true |}
  ∧ storage_after (checkLoginStatus (answering 401) (Some "https://tv.example.org")
                     initial_auth {[ "authCookies" := "sid=1" ]}) !! "authCookies" = None.
Proof.
  assert (configured (answering 401) "redis") as Hconfigured by by exists "OrionTV".
  destruct (checkLoginStatus_drops_stale_cookie (answering 401)
              (Some "https://tv.example.org") initial_auth {[ "authCookies" := "sid=1" ]}
              "redis" None eq_refl Hconfigured ltac:(by vm_compute) eq_refl) as [H|H];
    [by vm_compute in H|done].
Defined.

Lemma wait_for_config_polls fuel world k waitTime config :
  (wait_for_config fuel world k waitTime config).2 ≤ k + fuel.
Proof.
  revert k waitTime. induction fuel as [|fuel IH]; intros k waitTime; cbn [wait_for_config].
  { cbn. lia. }
  destruct (waitTime <? maxWaitTime)%nat; [|cbn; lia]. cbv zeta.
  destruct (negb _); [cbn; lia|]. etrans; [apply IH|lia].
Qed.

Lemma wait_for_config_fuel world fuel1 fuel2 k j config :
  30 - j ≤ fuel1 → 30 - j ≤ fuel2 →
  wait_for_config fuel1 world k (checkInterval * j) config
  = wait_for_config fuel2 world k (checkInterval * j) config.
Proof.
  revert fuel2 k j. induction fuel1 as [|fuel1 IH]; intros fuel2 k j H1 H2.
  - assert (30 ≤ j) as Hj by lia.
    assert ((checkInterval * j <? maxWaitTime)%nat = false) as Hdone.
    { apply Nat.ltb_ge. unfold checkInterval, maxWaitTime. lia. }
    destruct fuel2; cbn [wait_for_config]; by rewrite ?Hdone.
  - destruct fuel2 as [|fuel2].
    + assert (30 ≤ j) as Hj by lia.
      assert ((checkInterval * j <? maxWaitTime)%nat = false) as Hdone.
      { apply Nat.ltb_ge. unfold checkInterval, maxWaitTime. lia. }
      cbn [wait_for_config]. by rewrite Hdone.
    + cbn [wait_for_config].
      destruct (checkInterval * j <? maxWaitTime)%nat; [|done]. cbv zeta.
      destruct (negb _); [done|].
      replace (checkInterval * j + checkInterval) with (checkInterval * S j) by lia.
      apply IH; lia.
Qed.

(** X29. The wait for the server configuration ends by its own clock: the
    loop of [checkLoginStatus] polls the settings store at most 30 times,
    and allowing it more rounds than 30 changes nothing. *)
Theorem checkLoginStatus_waits_at_most_30_polls (world : AuthWorld) :
  (∀ apiBaseUrl st storage, polls (checkLoginStatus world apiBaseUrl st storage) ≤ 30)
  ∧ (∀ fuel config,
       30 ≤ fuel →
       wait_for_config fuel world 0 0 config
       = wait_for_config (maxWaitTime / checkInterval) world 0 0 config).
Proof.
  split.
  - intros apiBaseUrl st storage. unfold checkLoginStatus.
    destruct (negb (truthy apiBaseUrl)); [cbn; lia|]. cbv zeta.
    destruct (if _ && _ then _ else _) as [settingsState|error]; [|cbn; lia].
    assert ((if isLoadingServerConfig settingsState
             then wait_for_config (maxWaitTime / checkInterval) world 0 0
                    (serverConfig settingsState)
             else (serverConfig settingsState, 0)).2 ≤ 30) as Hpolls.
    { destruct (isLoadingServerConfig settingsState); [|cbn; lia].
      etrans; [apply wait_for_config_polls|]. by vm_compute. }
    destruct (if isLoadingServerConfig settingsState then _ else _) as [config n].
    cbn [snd] in Hpolls.
    destruct (negb (has_StorageType config)); [done|].
    unfold check_token. cbv zeta.
    repeat match goal with
      | |- context [match ?x with _ => _ end] => destruct x
      | |- context [if ?x then _ else _] => destruct x
      end; try done; unfold on_unexpected; cbn; done.
  - intros fuel config Hfuel.
    change 0 with (checkInterval * 0) at 2 4.
    apply wait_for_config_fuel.
    + lia.
    + by vm_compute.
Qed.

Lemma checkLoginStatus_waits_at_most_30_polls_witness :
  wait_for_config 100 (answering 200) 0 0 None
  = wait_for_config (maxWaitTime / checkInterval) (answering 200) 0 0 None.
Proof.
  apply (proj2 (checkLoginStatus_waits_at_most_30_polls (answering 200)) 100 None). lia.
Defined.

(** X30. A logout that logs the user out blanks the stored cookie, and the
    next [checkLoginStatus] against a server that does not keep its
    sessions in local storage then asks for a login: it ends with the user
    logged out and the login dialog open, whatever the network does. *)
Theorem logout_then_checkLoginStatus (world next : AuthWorld) (st st' : AuthState)
    (storage : AsyncStorage) (apiBaseUrl : option string) (storageType : string) :
  isLoggedIn st = true →
  isLoggedIn (logout world st storage).1 = false →
  truthy apiBaseUrl = true →
  configured next storageType →
  storageType ≠ "localstorage" →
  (logout world st storage).1 = {| isLoggedIn := false; isLoginModalVisible := true |}
  ∧ (logout world st storage).2 !! "authCookies" = Some ""
  ∧ checkLoginStatus next apiBaseUrl st' (logout world st storage).2
    = {| auth := {| isLoggedIn := false; isLoginModalVisible := true |};
         storage_after := (logout world st storage).2; toasts := []; polls := 0 |}.
Proof.
  intros Hin Hout Hurl (siteName & Hsettings & Htype) Hlocal.
  unfold logout, API.logout in *.
  destruct (API._fetch _ _ _ _ _ _ _) as [response|error]; [|cbn in Hout; congruence].
  destruct (json response) as [j|error]; [|cbn in Hout; congruence].
  cbv beta iota zeta. cbn [fst snd].
  split; [done|]. split; [apply lookup_insert_eq|].
  unfold checkLoginStatus. rewrite Hurl, Hsettings.
  cbn [negb serverConfig present andb isLoadingServerConfig has_StorageType StorageType].
  destruct (String.eqb_spec storageType "") as [|_]; [done|]. cbn [negb].
  unfold check_token. cbv zeta.
  assert (<["authCookies" := ""]> storage !! "authCookies" = Some "") as ->
    by apply lookup_insert_eq.
  cbn [truthy String.eqb negb StorageType].
  by destruct (String.eqb_spec storageType "localstorage").
Qed.

Lemma logout_then_checkLoginStatus_witness :
  auth (checkLoginStatus (answering 200) (Some "https://tv.example.org") initial_auth
          (logout (answering 200) {| isLoggedIn := true; isLoginModalVisible := false |}
             {[ "authCookies" := "sid=1" ]}).2)
  = {| isLoggedIn := false; isLoginModalVisible := true |}.
Proof.
  assert (configured (answering 200) "redis") as Hconfigured by by exists "OrionTV".
  destruct (logout_then_checkLoginStatus (answering 200) (answering 200)
              {| isLoggedIn := true; isLoginModalVisible := false |} initial_auth
              {[ "authCookies" := "sid=1" ]} (Some "https://tv.example.org") "redis"
              eq_refl ltac:(by vm_compute) eq_refl Hconfigured ltac:(done))
    as (_ & _ & ->).
  reflexivity.
Defined.

End AuthStore.
